(** * Makani motor model: [sim/physics/motors.cc]

    A shallow embedding of the three functions of [sim::physics::motors]
    ([CalcTorqueLimits], [CalcMotorPower], [CalcMotorControllerLoss]) and
    the properties of them that the specification states.

    Numbers.  In the main reading a C++ [double] is a real number:
    [+ - * /], [sqrt], [fabs], [fmin], [fmax], [acos], [atan], [sin],
    [cos] are the exact operations of [R] and [M_PI] is [PI], so rounding,
    infinities and NaN are outside it.  An [int32_t] is an integer ([Z])
    and the quotient of two [int] is C++'s truncating division
    ([Z.quot]); the conversion of an [int] operand to [double] is [IZR].
    Division of reals is the total [Rdiv]; where a property is about a
    divisor being zero, the instrumented reading of module [Traced]
    records every divisor the code evaluates.  Module [Binary64] reads the
    same code over IEEE 754 binary64 and serves to run concrete calls.
    The one place where the two readings part systematically is the phase
    current step at standstill, where the cosine of the clamped angle is
    0 over the reals and positive in binary64: module [WithLibm] reads
    [CalcTorqueLimits] with the C library as a parameter, and the
    properties that reach standstill are stated there. *)

From Stdlib Require Import ZArith List Bool Uint63 Floats.
From Stdlib Require Import Reals Lra.
Import ListNotations.
Open Scope R_scope.

(** ** Data model *)

(** The two tags of [SimMotorLimit] that [CalcTorqueLimits] assigns (the
    enum is declared in a header, outside [motors.cc]). *)
Inductive SimMotorLimit : Set :=
| kSimMotorLimitPhaseCurrent
| kSimMotorLimitPower.

(** [MotorParams]: the fields the three functions read. *)
Record MotorParams : Type := mkMotorParams {
  Ld : R;
  Lq : R;
  Rs : R;
  flux_linkage : R;
  num_pole_pairs : Z;
  modulation_limit : R;
  phase_current_cmd_limit : R;
  iq_cmd_lower_limit : R;
  iq_cmd_upper_limit : R;
  omega_loss_coefficient_cubic : R;
  omega_loss_coefficient_sq : R;
  omega_loss_coefficient_lin : R;
  hysteresis_loss_coefficient : R;
  rds_on : R;
  specific_switching_loss : R;
  fixed_loss_sq_coeff : R;
  fixed_loss_lin_coeff : R;
  switching_frequency : R
}.

Record TorqueLimits : Type := mkTorqueLimits {
  lower_limit : R;
  upper_limit : R;
  lower_constraint : SimMotorLimit;
  upper_constraint : SimMotorLimit
}.

(** ** Helpers of the C library and of [common/c_math] *)

(** [DBL_EPSILON] of [<float.h>]: 2^-52. *)
Definition DBL_EPSILON : R := / 4503599627370496.

(** The comparisons [x < y] and [x > y] of the source, as booleans. *)
Definition Rltb (x y : R) : bool := if Rlt_dec x y then true else false.
Definition Rgtb (x y : R) : bool := Rltb y x.

(** Modelled from the spec: [Saturate] of [common/c_math/util.h], which is
    not among the sources; the specification says the value is "clamped to
    [[-1, 1]]" by it. *)
Definition Saturate (x low high : R) : R :=
  if Rltb x low then low else if Rgtb x high then high else x.

(** The precondition both [DCHECK_GE (DBL_EPSILON, fabs (Ld - Lq))] lines
    assert: the machine is not salient. *)
Definition non_salient (p : MotorParams) : Prop :=
  Rabs (Ld p - Lq p) <= DBL_EPSILON.

(** ** Quantities shared by [CalcTorqueLimits] and [CalcMotorPower]

    Both functions start with the same statements (lines 28-61 and
    112-143); each local of those lines is a function of the arguments
    here.  [voltage] is the value after the clamp of line 29 / 113. *)

(** [if (voltage < 0.0) voltage = 0.0;] *)
Definition clamp_voltage (voltage : R) : R :=
  if Rltb voltage 0 then 0 else voltage.

(** [double omega_e = rotor_vel * npp;] *)
Definition omega_e (rotor_vel : R) (p : MotorParams) : R :=
  rotor_vel * IZR (num_pole_pairs p).

(** [double vdq_max = voltage * (1.0 / sqrt(3.0)) * params.modulation_limit;] *)
Definition vdq_max (voltage : R) (p : MotorParams) : R :=
  voltage * (1 / sqrt 3) * modulation_limit p.

(** [double z2 = Rs * Rs + L * L * omega_e * omega_e;] *)
Definition z2 (rotor_vel : R) (p : MotorParams) : R :=
  Rs p * Rs p + Lq p * Lq p * omega_e rotor_vel p * omega_e rotor_vel p.

(** [double id_center = -omega_e * omega_e * L * lambda / z2;] *)
Definition id_center (rotor_vel : R) (p : MotorParams) : R :=
  - omega_e rotor_vel p * omega_e rotor_vel p * Lq p * flux_linkage p
  / z2 rotor_vel p.

(** [double iq_center = -Rs * omega_e * lambda / z2;] *)
Definition iq_center (rotor_vel : R) (p : MotorParams) : R :=
  - Rs p * omega_e rotor_vel p * flux_linkage p / z2 rotor_vel p.

(** [double iq_radius = vdq_max / sqrt(z2);] *)
Definition iq_radius (voltage rotor_vel : R) (p : MotorParams) : R :=
  vdq_max voltage p / sqrt (z2 rotor_vel p).

(** ** [CalcMotorControllerLoss] (lines 189-217) *)

(** [-3 / 2 * peak_phase_current_sq * params.rds_on]: [-3 / 2] is a
    quotient of two [int] literals, evaluated before the product. *)
Definition conduction_loss (peak_phase_current_sq : R) (p : MotorParams) : R :=
  IZR (Z.quot (-3) 2) * peak_phase_current_sq * rds_on p.

Definition variable_switching_loss_per_cycle
    (voltage peak_phase_current_sq : R) (p : MotorParams) : R :=
  - (3 * 2 / PI * voltage * sqrt peak_phase_current_sq
     * specific_switching_loss p).

Definition fixed_switching_loss_per_cycle (voltage : R) (p : MotorParams) : R :=
  -3 * (fixed_loss_sq_coeff p * voltage + fixed_loss_lin_coeff p) * voltage.

Definition CalcMotorControllerLoss
    (voltage peak_phase_current_sq : R) (p : MotorParams) : R :=
  conduction_loss peak_phase_current_sq p
  + switching_frequency p
    * (variable_switching_loss_per_cycle voltage peak_phase_current_sq p
       + fixed_switching_loss_per_cycle voltage p).

(** ** [CalcMotorPower] (lines 110-184) *)

(** [double iq = torque / (1.5 * npp * lambda);] *)
Definition iq_of_torque (torque : R) (p : MotorParams) : R :=
  torque / (1.5 * IZR (num_pole_pairs p) * flux_linkage p).

(** Lines 146-157: the squared peak phase current. *)
Definition peak_phase_current_sq
    (voltage torque rotor_vel : R) (p : MotorParams) : R :=
  let iq := iq_of_torque torque p in
  let peak_phase_current_sq := iq * iq in
  let iq_height := iq - iq_center rotor_vel p in
  if Rgtb (Rabs iq_height) (iq_radius voltage rotor_vel p) then
    peak_phase_current_sq + id_center rotor_vel p * id_center rotor_vel p
  else
    let id := id_center rotor_vel p
              + sqrt (iq_radius voltage rotor_vel p
                      * iq_radius voltage rotor_vel p
                      - iq_height * iq_height) in
    if Rltb id 0 then peak_phase_current_sq + id * id
    else peak_phase_current_sq.

(** [double mechanical_power = -torque * rotor_vel;] *)
Definition mechanical_power (torque rotor_vel : R) : R := - torque * rotor_vel.

(** [double resistive_loss = -3 / 2 * peak_phase_current_sq * Rs;] *)
Definition resistive_loss (peak_phase_current_sq : R) (p : MotorParams) : R :=
  IZR (Z.quot (-3) 2) * peak_phase_current_sq * Rs p.

(** Lines 166-171; [p_w_loss] holds the cubic, square and linear
    coefficients in that order. *)
Definition speed_loss (rotor_vel : R) (p : MotorParams) : R :=
  - (omega_loss_coefficient_cubic p * rotor_vel * rotor_vel
     + omega_loss_coefficient_sq p * rotor_vel
     + omega_loss_coefficient_lin p)
  * rotor_vel.

Definition hysteresis_loss
    (peak_phase_current_sq rotor_vel : R) (p : MotorParams) : R :=
  -0.5 * hysteresis_loss_coefficient p * peak_phase_current_sq
  * rotor_vel * rotor_vel.

Definition CalcMotorPower
    (voltage torque rotor_vel : R) (p : MotorParams) : R :=
  let voltage := clamp_voltage voltage in
  let peak_phase_current_sq :=
    peak_phase_current_sq voltage torque rotor_vel p in
  let controller_loss :=
    CalcMotorControllerLoss voltage peak_phase_current_sq p in
  mechanical_power torque rotor_vel
  + resistive_loss peak_phase_current_sq p
  + speed_loss rotor_vel p
  + hysteresis_loss peak_phase_current_sq rotor_vel p
  + controller_loss.

(** ** [CalcTorqueLimits] (lines 26-101) *)

(** The quadrature-current band the function narrows step by step: the
    locals [iq_cmd_lower_limit], [iq_cmd_upper_limit] and the two tags of
    [limits]. *)
Record IqBand : Type := mkIqBand {
  iq_lower : R;
  iq_upper : R;
  lower_tag : SimMotorLimit;
  upper_tag : SimMotorLimit
}.

(** Lines 53-56. *)
Definition hard_limits (p : MotorParams) : IqBand :=
  {| iq_lower := iq_cmd_lower_limit p;
     iq_upper := iq_cmd_upper_limit p;
     lower_tag := kSimMotorLimitPhaseCurrent;
     upper_tag := kSimMotorLimitPhaseCurrent |}.

(** Lines 62-69: the power (voltage) limit, for given values of the locals
    [iq_center] and [iq_radius]. *)
Definition power_limit (iq_center iq_radius : R) (b : IqBand) : IqBand :=
  let b :=
    if Rltb (iq_lower b) (iq_center - iq_radius) then
      {| iq_lower := iq_center - iq_radius; iq_upper := iq_upper b;
         lower_tag := kSimMotorLimitPower; upper_tag := upper_tag b |}
    else b in
  if Rgtb (iq_upper b) (iq_center + iq_radius) then
    {| iq_lower := iq_lower b; iq_upper := iq_center + iq_radius;
       lower_tag := lower_tag b; upper_tag := kSimMotorLimitPower |}
  else b.

Definition apply_power_limit
    (voltage rotor_vel : R) (p : MotorParams) (b : IqBand) : IqBand :=
  power_limit (iq_center rotor_vel p) (iq_radius voltage rotor_vel p) b.

(** Lines 72-75, before the saturation. *)
Definition cos_idq_raw (voltage rotor_vel : R) (p : MotorParams) : R :=
  (vdq_max voltage p * vdq_max voltage p
   - z2 rotor_vel p * phase_current_cmd_limit p * phase_current_cmd_limit p
   - flux_linkage p * flux_linkage p * omega_e rotor_vel p * omega_e rotor_vel p)
  / (2 * Rmax (Rabs (omega_e rotor_vel p)) 1 * flux_linkage p
     * phase_current_cmd_limit p * sqrt (z2 rotor_vel p)).

(** [cos_idq = Saturate(cos_idq, -1.0, 1.0);] *)
Definition cos_idq (voltage rotor_vel : R) (p : MotorParams) : R :=
  Saturate (cos_idq_raw voltage rotor_vel p) (-1) 1.

(** [double theta_delta = acos(cos_idq);] *)
Definition theta_delta (voltage rotor_vel : R) (p : MotorParams) : R :=
  acos (cos_idq voltage rotor_vel p).

(** [fabs(omega_e) > DBL_EPSILON ? atan(Rs / (omega_e * L)) : 0.0] *)
Definition theta_ref (rotor_vel : R) (p : MotorParams) : R :=
  if Rgtb (Rabs (omega_e rotor_vel p)) DBL_EPSILON
  then atan (Rs p / (omega_e rotor_vel p * Lq p))
  else 0.

(** [theta = fmin(theta_ref - theta_delta, -0.5 * M_PI);] *)
Definition theta_lower (voltage rotor_vel : R) (p : MotorParams) : R :=
  Rmin (theta_ref rotor_vel p - theta_delta voltage rotor_vel p) (-0.5 * PI).

(** [theta = fmax(theta_ref + theta_delta, 0.5 * M_PI);] *)
Definition theta_upper (voltage rotor_vel : R) (p : MotorParams) : R :=
  Rmax (theta_ref rotor_vel p + theta_delta voltage rotor_vel p) (0.5 * PI).

(** Lines 81-95: the phase current limit, for given values of the locals
    [i_phase_lim], [id_center] and of [theta] at lines 82 and 90. *)
Definition phase_current_limit
    (i_phase_lim id_center theta_lo theta_hi : R) (b : IqBand) : IqBand :=
  let theta := theta_lo in
  let b :=
    if Rltb id_center (i_phase_lim * cos theta)
       && Rgtb (i_phase_lim * sin theta) (iq_lower b) then
      {| iq_lower := i_phase_lim * sin theta; iq_upper := iq_upper b;
         lower_tag := kSimMotorLimitPhaseCurrent; upper_tag := upper_tag b |}
    else b in
  let theta := theta_hi in
  if Rltb id_center (i_phase_lim * cos theta)
     && Rltb (i_phase_lim * sin theta) (iq_upper b) then
    {| iq_lower := iq_lower b; iq_upper := i_phase_lim * sin theta;
       lower_tag := lower_tag b; upper_tag := kSimMotorLimitPhaseCurrent |}
  else b.

Definition apply_phase_current_limit
    (voltage rotor_vel : R) (p : MotorParams) (b : IqBand) : IqBand :=
  phase_current_limit (phase_current_cmd_limit p) (id_center rotor_vel p)
    (theta_lower voltage rotor_vel p) (theta_upper voltage rotor_vel p) b.

(** The band in quadrature current at line 96, for the clamped voltage. *)
Definition iq_limits (voltage rotor_vel : R) (p : MotorParams) : IqBand :=
  apply_phase_current_limit voltage rotor_vel p
    (apply_power_limit voltage rotor_vel p (hard_limits p)).

Definition CalcTorqueLimits
    (voltage rotor_vel : R) (p : MotorParams) : TorqueLimits :=
  let voltage := clamp_voltage voltage in
  let b := iq_limits voltage rotor_vel p in
  {| lower_limit :=
       1.5 * IZR (num_pole_pairs p) * flux_linkage p * iq_lower b;
     upper_limit :=
       1.5 * IZR (num_pole_pairs p) * flux_linkage p * iq_upper b;
     lower_constraint := lower_tag b;
     upper_constraint := upper_tag b |}.

(** ** The same code with its partial operations recorded

    Every real division and every [acos] call of the three functions is
    logged, in program order, with the divisor or the argument it is
    evaluated at.  The value computed is the one of the functions above
    ([Traced_CalcTorqueLimits_value] and its siblings below). *)
Module Traced.

(** The division sites, named by the local each one defines. *)
Inductive site : Set :=
| at_inv_sqrt3     (* 1.0 / sqrt(3.0) *)
| at_id_center     (* ... / z2 *)
| at_iq_center     (* ... / z2 *)
| at_iq_radius     (* vdq_max / sqrt(z2) *)
| at_cos_idq       (* ... / (2.0 * fmax(...) * lambda * i_phase_lim * sqrt(z2)) *)
| at_theta_ref     (* Rs / (omega_e * L) *)
| at_iq            (* torque / (1.5 * npp * lambda) *)
| at_two_over_pi.  (* 3.0 * 2.0 / M_PI *)

Inductive event : Type :=
| Div (s : site) (divisor : R)
| Acos (arg : R).

(** A value together with the events of computing it. *)
Definition M (A : Type) : Type := (A * list event)%type.

Definition ret {A : Type} (a : A) : M A := (a, []).

Definition bind {A B : Type} (m : M A) (k : A -> M B) : M B :=
  let r := k (fst m) in (fst r, snd m ++ snd r).

Definition div_at (s : site) (x y : R) : M R := (x / y, [Div s y]).

Definition acos_at (x : R) : M R := (acos x, [Acos x]).

Notation "x <- m ;; k" := (bind m (fun x => k))
  (at level 61, m at next level, right associativity).

Definition CalcTorqueLimits
    (voltage rotor_vel : R) (p : MotorParams) : M TorqueLimits :=
  let voltage := if Rltb voltage 0 then 0 else voltage in
  let L := Lq p in
  let Rs := Rs p in
  let lambda := flux_linkage p in
  let i_phase_lim := phase_current_cmd_limit p in
  let npp := num_pole_pairs p in
  let omega_e := rotor_vel * IZR npp in
  inv_sqrt3 <- div_at at_inv_sqrt3 1 (sqrt 3) ;;
  let vdq_max := voltage * inv_sqrt3 * modulation_limit p in
  let z2 := Rs * Rs + L * L * omega_e * omega_e in
  id_center <- div_at at_id_center (- omega_e * omega_e * L * lambda) z2 ;;
  iq_center <- div_at at_iq_center (- Rs * omega_e * lambda) z2 ;;
  iq_radius <- div_at at_iq_radius vdq_max (sqrt z2) ;;
  let b := power_limit iq_center iq_radius (hard_limits p) in
  cos_idq <- div_at at_cos_idq
               (vdq_max * vdq_max - z2 * i_phase_lim * i_phase_lim
                - lambda * lambda * omega_e * omega_e)
               (2 * Rmax (Rabs omega_e) 1 * lambda * i_phase_lim * sqrt z2) ;;
  let cos_idq := Saturate cos_idq (-1) 1 in
  theta_delta <- acos_at cos_idq ;;
  theta_ref <- (if Rgtb (Rabs omega_e) DBL_EPSILON
                then q <- div_at at_theta_ref Rs (omega_e * L) ;; ret (atan q)
                else ret 0) ;;
  let b := phase_current_limit i_phase_lim id_center
             (Rmin (theta_ref - theta_delta) (-0.5 * PI))
             (Rmax (theta_ref + theta_delta) (0.5 * PI)) b in
  ret {| lower_limit := 1.5 * IZR npp * lambda * iq_lower b;
         upper_limit := 1.5 * IZR npp * lambda * iq_upper b;
         lower_constraint := lower_tag b;
         upper_constraint := upper_tag b |}.

Definition CalcMotorControllerLoss
    (voltage peak_phase_current_sq : R) (p : MotorParams) : M R :=
  let conduction_loss :=
    IZR (Z.quot (-3) 2) * peak_phase_current_sq * rds_on p in
  six_over_pi <- div_at at_two_over_pi (3 * 2) PI ;;
  let variable_switching_loss_per_cycle :=
    - (six_over_pi * voltage * sqrt peak_phase_current_sq
       * specific_switching_loss p) in
  let fixed_switching_loss_per_cycle :=
    -3 * (fixed_loss_sq_coeff p * voltage + fixed_loss_lin_coeff p)
    * voltage in
  ret (conduction_loss
       + switching_frequency p
         * (variable_switching_loss_per_cycle
            + fixed_switching_loss_per_cycle)).

Definition CalcMotorPower
    (voltage torque rotor_vel : R) (p : MotorParams) : M R :=
  let voltage := if Rltb voltage 0 then 0 else voltage in
  let L := Lq p in
  let Rs := Rs p in
  let lambda := flux_linkage p in
  let npp := num_pole_pairs p in
  let omega_e := rotor_vel * IZR npp in
  inv_sqrt3 <- div_at at_inv_sqrt3 1 (sqrt 3) ;;
  let vdq_max := voltage * inv_sqrt3 * modulation_limit p in
  let z2 := Rs * Rs + L * L * omega_e * omega_e in
  iq <- div_at at_iq torque (1.5 * IZR npp * lambda) ;;
  id_center <- div_at at_id_center (- omega_e * omega_e * L * lambda) z2 ;;
  iq_center <- div_at at_iq_center (- Rs * omega_e * lambda) z2 ;;
  iq_radius <- div_at at_iq_radius vdq_max (sqrt z2) ;;
  let peak_phase_current_sq := iq * iq in
  let iq_height := iq - iq_center in
  let peak_phase_current_sq :=
    if Rgtb (Rabs iq_height) iq_radius then
      peak_phase_current_sq + id_center * id_center
    else
      let id := id_center
                + sqrt (iq_radius * iq_radius - iq_height * iq_height) in
      if Rltb id 0 then peak_phase_current_sq + id * id
      else peak_phase_current_sq in
  let mechanical_power := - torque * rotor_vel in
  let resistive_loss := IZR (Z.quot (-3) 2) * peak_phase_current_sq * Rs in
  let speed_loss :=
    - (omega_loss_coefficient_cubic p * rotor_vel * rotor_vel
       + omega_loss_coefficient_sq p * rotor_vel
       + omega_loss_coefficient_lin p)
    * rotor_vel in
  let hysteresis_loss :=
    -0.5 * hysteresis_loss_coefficient p * peak_phase_current_sq
    * rotor_vel * rotor_vel in
  controller_loss <-
    CalcMotorControllerLoss voltage peak_phase_current_sq p ;;
  ret (mechanical_power + resistive_loss + speed_loss + hysteresis_loss
       + controller_loss).

End Traced.

(** ** The same code in binary64

    The three functions with [double] read as IEEE 754 binary64 (Rocq's
    primitive floats: every operation rounds to nearest-even, as compiled
    C++ does without contraction or extended precision).
    [CalcMotorControllerLoss] and [CalcMotorPower] need only arithmetic
    and [sqrt] and can be run; [CalcTorqueLimits] takes the four functions
    of [<math.h>] that it calls as arguments.  This reading is used to
    evaluate concrete calls; the properties over all inputs are stated on
    the real-number reading above. *)
Module Binary64.

Local Open Scope bool_scope.
Local Open Scope float_scope.
#[local] Set Warnings "-inexact-float".

Record MotorParams : Set := mkMotorParams {
  Ld : float;
  Lq : float;
  Rs : float;
  flux_linkage : float;
  num_pole_pairs : Z;
  modulation_limit : float;
  phase_current_cmd_limit : float;
  iq_cmd_lower_limit : float;
  iq_cmd_upper_limit : float;
  omega_loss_coefficient_cubic : float;
  omega_loss_coefficient_sq : float;
  omega_loss_coefficient_lin : float;
  hysteresis_loss_coefficient : float;
  rds_on : float;
  specific_switching_loss : float;
  fixed_loss_sq_coeff : float;
  fixed_loss_lin_coeff : float;
  switching_frequency : float
}.

Record TorqueLimits : Set := mkTorqueLimits {
  lower_limit : float;
  upper_limit : float;
  lower_constraint : SimMotorLimit;
  upper_constraint : SimMotorLimit
}.

(** The conversion of an [int] operand to [double] (exact for the values
    an [int32_t] takes). *)
Definition double_of_int (z : Z) : float :=
  match z with
  | Z0 => 0
  | Zpos _ => of_uint63 (Uint63.of_Z z)
  | Zneg q => - of_uint63 (Uint63.of_Z (Zpos q))
  end.

(** [M_PI] and [DBL_EPSILON], as the headers define them. *)
Definition M_PI : float := 0x1.921fb54442d18p+1.
Definition DBL_EPSILON : float := 0x1p-52.

Definition fabs (x : float) : float := PrimFloat.abs x.

Definition sqrt (x : float) : float := PrimFloat.sqrt x.

Definition is_nan (x : float) : bool := negb (x =? x).

(** [fmin] and [fmax] of C99: a NaN argument yields the other one. *)
Definition fmin (x y : float) : float :=
  if is_nan x then y else if is_nan y then x else if x <? y then x else y.

Definition fmax (x y : float) : float :=
  if is_nan x then y else if is_nan y then x else if x <? y then y else x.

(** Modelled from the spec: [Saturate] of [common/c_math/util.h], as for
    the real-number reading. *)
Definition Saturate (x low high : float) : float :=
  if x <? low then low else if high <? x then high else x.

Definition CalcMotorControllerLoss
    (voltage peak_phase_current_sq : float) (params : MotorParams) : float :=
  let conduction_loss :=
    double_of_int (Z.quot (-3) 2) * peak_phase_current_sq * rds_on params in
  let variable_switching_loss_per_cycle :=
    - (3 * 2 / M_PI * voltage * sqrt peak_phase_current_sq
       * specific_switching_loss params) in
  let fixed_switching_loss_per_cycle :=
    -3 * (fixed_loss_sq_coeff params * voltage + fixed_loss_lin_coeff params)
    * voltage in
  conduction_loss
  + switching_frequency params
    * (variable_switching_loss_per_cycle + fixed_switching_loss_per_cycle).

Definition CalcMotorPower
    (voltage torque rotor_vel : float) (params : MotorParams) : float :=
  let voltage := if voltage <? 0 then 0 else voltage in
  let L := Lq params in
  let Rs := Rs params in
  let lambda := flux_linkage params in
  let npp := double_of_int (num_pole_pairs params) in
  let omega_e := rotor_vel * npp in
  let vdq_max := voltage * (1 / sqrt 3) * modulation_limit params in
  let z2 := Rs * Rs + L * L * omega_e * omega_e in
  let iq := torque / (1.5 * npp * lambda) in
  let id_center := - omega_e * omega_e * L * lambda / z2 in
  let iq_center := - Rs * omega_e * lambda / z2 in
  let iq_radius := vdq_max / sqrt z2 in
  let peak_phase_current_sq := iq * iq in
  let iq_height := iq - iq_center in
  let peak_phase_current_sq :=
    if iq_radius <? fabs iq_height then
      peak_phase_current_sq + id_center * id_center
    else
      let id := id_center
                + sqrt (iq_radius * iq_radius - iq_height * iq_height) in
      if id <? 0 then peak_phase_current_sq + id * id
      else peak_phase_current_sq in
  let mechanical_power := - torque * rotor_vel in
  let resistive_loss :=
    double_of_int (Z.quot (-3) 2) * peak_phase_current_sq * Rs in
  let speed_loss :=
    - (omega_loss_coefficient_cubic params * rotor_vel * rotor_vel
       + omega_loss_coefficient_sq params * rotor_vel
       + omega_loss_coefficient_lin params)
    * rotor_vel in
  let hysteresis_loss :=
    -0.5 * hysteresis_loss_coefficient params * peak_phase_current_sq
    * rotor_vel * rotor_vel in
  let controller_loss :=
    CalcMotorControllerLoss voltage peak_phase_current_sq params in
  mechanical_power + resistive_loss + speed_loss + hysteresis_loss
  + controller_loss.

Section Libm.

(** [acos], [atan], [sin] and [cos] of the C library. *)
Variables acos atan sin cos : float -> float.

Definition CalcTorqueLimits
    (voltage rotor_vel : float) (params : MotorParams) : TorqueLimits :=
  let voltage := if voltage <? 0 then 0 else voltage in
  let L := Lq params in
  let Rs := Rs params in
  let lambda := flux_linkage params in
  let i_phase_lim := phase_current_cmd_limit params in
  let npp := double_of_int (num_pole_pairs params) in
  let omega_e := rotor_vel * npp in
  let vdq_max := voltage * (1 / sqrt 3) * modulation_limit params in
  let z2 := Rs * Rs + L * L * omega_e * omega_e in
  let iq_cmd_lower_limit := iq_cmd_lower_limit params in
  let iq_cmd_upper_limit := iq_cmd_upper_limit params in
  let lower_constraint := kSimMotorLimitPhaseCurrent in
  let upper_constraint := kSimMotorLimitPhaseCurrent in
  let id_center := - omega_e * omega_e * L * lambda / z2 in
  let iq_center := - Rs * omega_e * lambda / z2 in
  let iq_radius := vdq_max / sqrt z2 in
  let '(lower_constraint, iq_cmd_lower_limit) :=
    if iq_cmd_lower_limit <? iq_center - iq_radius
    then (kSimMotorLimitPower, iq_center - iq_radius)
    else (lower_constraint, iq_cmd_lower_limit) in
  let '(upper_constraint, iq_cmd_upper_limit) :=
    if iq_center + iq_radius <? iq_cmd_upper_limit
    then (kSimMotorLimitPower, iq_center + iq_radius)
    else (upper_constraint, iq_cmd_upper_limit) in
  let cos_idq :=
    (vdq_max * vdq_max - z2 * i_phase_lim * i_phase_lim
     - lambda * lambda * omega_e * omega_e)
    / (2 * fmax (fabs omega_e) 1 * lambda * i_phase_lim * sqrt z2) in
  let cos_idq := Saturate cos_idq (-1) 1 in
  let theta_delta := acos cos_idq in
  let theta_ref :=
    if DBL_EPSILON <? fabs omega_e then atan (Rs / (omega_e * L)) else 0 in
  let theta := fmin (theta_ref - theta_delta) (-0.5 * M_PI) in
  let '(lower_constraint, iq_cmd_lower_limit) :=
    if (id_center <? i_phase_lim * cos theta)
       && (iq_cmd_lower_limit <? i_phase_lim * sin theta)
    then (kSimMotorLimitPhaseCurrent, i_phase_lim * sin theta)
    else (lower_constraint, iq_cmd_lower_limit) in
  let theta := fmax (theta_ref + theta_delta) (0.5 * M_PI) in
  let '(upper_constraint, iq_cmd_upper_limit) :=
    if (id_center <? i_phase_lim * cos theta)
       && (i_phase_lim * sin theta <? iq_cmd_upper_limit)
    then (kSimMotorLimitPhaseCurrent, i_phase_lim * sin theta)
    else (upper_constraint, iq_cmd_upper_limit) in
  {| lower_limit := 1.5 * npp * lambda * iq_cmd_lower_limit;
     upper_limit := 1.5 * npp * lambda * iq_cmd_upper_limit;
     lower_constraint := lower_constraint;
     upper_constraint := upper_constraint |}.

End Libm.

(** The example of the specification, as [spec_params] below. *)
Definition spec_params : MotorParams :=
  {| Ld := 0.001; Lq := 0.001; Rs := 0.1; flux_linkage := 0.1;
     num_pole_pairs := 10; modulation_limit := 1;
     phase_current_cmd_limit := 40;
     iq_cmd_lower_limit := -40; iq_cmd_upper_limit := 40;
     omega_loss_coefficient_cubic := 1; omega_loss_coefficient_sq := 1;
     omega_loss_coefficient_lin := 1; hysteresis_loss_coefficient := 1;
     rds_on := 1; specific_switching_loss := 1;
     fixed_loss_sq_coeff := 1; fixed_loss_lin_coeff := 1;
     switching_frequency := 1 |}.

(** The same machine with a current limit of 100 A inside hard command
    limits of -200 A and 200 A. *)
Definition wide_band_params : MotorParams :=
  {| Ld := 0.001; Lq := 0.001; Rs := 0.1; flux_linkage := 0.1;
     num_pole_pairs := 10; modulation_limit := 1;
     phase_current_cmd_limit := 100;
     iq_cmd_lower_limit := -200; iq_cmd_upper_limit := 200;
     omega_loss_coefficient_cubic := 1; omega_loss_coefficient_sq := 1;
     omega_loss_coefficient_lin := 1; hysteresis_loss_coefficient := 1;
     rds_on := 1; specific_switching_loss := 1;
     fixed_loss_sq_coeff := 1; fixed_loss_lin_coeff := 1;
     switching_frequency := 1 |}.

(** [spec_params] with a flux linkage of zero. *)
Definition zero_flux_params : MotorParams :=
  {| Ld := 0.001; Lq := 0.001; Rs := 0.1; flux_linkage := 0;
     num_pole_pairs := 10; modulation_limit := 1;
     phase_current_cmd_limit := 40;
     iq_cmd_lower_limit := -40; iq_cmd_upper_limit := 40;
     omega_loss_coefficient_cubic := 1; omega_loss_coefficient_sq := 1;
     omega_loss_coefficient_lin := 1; hysteresis_loss_coefficient := 1;
     rds_on := 1; specific_switching_loss := 1;
     fixed_loss_sq_coeff := 1; fixed_loss_lin_coeff := 1;
     switching_frequency := 1 |}.

(** [0.5 * M_PI], and the binary64 value nearest to its cosine (the
    constant is below pi / 2 by about 6.1e-17). *)
Definition half_M_PI : float := Eval vm_compute in (0.5 * M_PI).
Definition cos_half_M_PI : float := 0x1.1a62633145c07p-54.

End Binary64.

(** ** [CalcTorqueLimits] with the C library as a parameter

    The reading above takes [M_PI] for [PI] and the functions of
    [<math.h>] for the exact ones.  Here they are the fields of a record,
    and the lines 77-95 that call them are read over it; everything else
    is shared with the reading above.  [exact] is the library of that
    reading.  In [rounded] the cosine at [-0.5 * M_PI] and [0.5 * M_PI]
    is the positive number binary64 returns there
    ([Binary64.cos_half_M_PI], [4967757600021511 / 2^106], about
    6.1e-17) instead of 0. *)
Module WithLibm.

Record libm : Type := mklibm {
  M_PI : R;
  acos : R -> R;
  atan : R -> R;
  sin : R -> R;
  cos : R -> R
}.

Section Functions.

Variable lib : libm.

(** [double theta_delta = acos(cos_idq);] *)
Definition theta_delta (voltage rotor_vel : R) (p : MotorParams) : R :=
  acos lib (cos_idq voltage rotor_vel p).

(** [fabs(omega_e) > DBL_EPSILON ? atan(Rs / (omega_e * L)) : 0.0] *)
Definition theta_ref (rotor_vel : R) (p : MotorParams) : R :=
  if Rgtb (Rabs (omega_e rotor_vel p)) DBL_EPSILON
  then atan lib (Rs p / (omega_e rotor_vel p * Lq p))
  else 0.

(** [theta = fmin(theta_ref - theta_delta, -0.5 * M_PI);] *)
Definition theta_lower (voltage rotor_vel : R) (p : MotorParams) : R :=
  Rmin (theta_ref rotor_vel p - theta_delta voltage rotor_vel p)
       (-0.5 * M_PI lib).

(** [theta = fmax(theta_ref + theta_delta, 0.5 * M_PI);] *)
Definition theta_upper (voltage rotor_vel : R) (p : MotorParams) : R :=
  Rmax (theta_ref rotor_vel p + theta_delta voltage rotor_vel p)
       (0.5 * M_PI lib).

(** Lines 81-95. *)
Definition phase_current_limit
    (i_phase_lim id_center theta_lo theta_hi : R) (b : IqBand) : IqBand :=
  let theta := theta_lo in
  let b :=
    if Rltb id_center (i_phase_lim * cos lib theta)
       && Rgtb (i_phase_lim * sin lib theta) (iq_lower b) then
      {| iq_lower := i_phase_lim * sin lib theta; iq_upper := iq_upper b;
         lower_tag := kSimMotorLimitPhaseCurrent; upper_tag := upper_tag b |}
    else b in
  let theta := theta_hi in
  if Rltb id_center (i_phase_lim * cos lib theta)
     && Rltb (i_phase_lim * sin lib theta) (iq_upper b) then
    {| iq_lower := iq_lower b; iq_upper := i_phase_lim * sin lib theta;
       lower_tag := lower_tag b; upper_tag := kSimMotorLimitPhaseCurrent |}
  else b.

Definition apply_phase_current_limit
    (voltage rotor_vel : R) (p : MotorParams) (b : IqBand) : IqBand :=
  phase_current_limit (phase_current_cmd_limit p) (id_center rotor_vel p)
    (theta_lower voltage rotor_vel p) (theta_upper voltage rotor_vel p) b.

Definition iq_limits (voltage rotor_vel : R) (p : MotorParams) : IqBand :=
  apply_phase_current_limit voltage rotor_vel p
    (apply_power_limit voltage rotor_vel p (hard_limits p)).

Definition CalcTorqueLimits
    (voltage rotor_vel : R) (p : MotorParams) : TorqueLimits :=
  let voltage := clamp_voltage voltage in
  let b := iq_limits voltage rotor_vel p in
  {| lower_limit :=
       1.5 * IZR (num_pole_pairs p) * flux_linkage p * iq_lower b;
     upper_limit :=
       1.5 * IZR (num_pole_pairs p) * flux_linkage p * iq_upper b;
     lower_constraint := lower_tag b;
     upper_constraint := upper_tag b |}.

End Functions.

(** The library of the real-number reading. *)
Definition exact : libm :=
  {| M_PI := PI; acos := Ratan.acos; atan := Ratan.atan;
     sin := Rtrigo_def.sin; cos := Rtrigo_def.cos |}.

(** The exact library, but for the cosine of a quarter turn, which is
    the value of [Binary64.cos_half_M_PI]. *)
Definition rounded : libm :=
  {| M_PI := PI; acos := Ratan.acos; atan := Ratan.atan;
     sin := Rtrigo_def.sin;
     cos := fun x => if Req_EM_T (Rabs x) (PI / 2)
                     then 4967757600021511
                          / 81129638414606681695789005144064
                     else Rtrigo_def.cos x |}.


(** A library that is the exact one except, possibly, for the cosine of
    a quarter turn, which is not negative: the exact library and the
    rounded one are both of this kind. *)
Definition exact_but_at_quarter_turn (lib : libm) : Prop :=
  M_PI lib = PI /\
  (forall x, acos lib x = Ratan.acos x) /\
  (forall x, atan lib x = Ratan.atan x) /\
  (forall x, sin lib x = Rtrigo_def.sin x) /\
  (forall x, Rabs x <> PI / 2 -> cos lib x = Rtrigo_def.cos x) /\
  0 <= cos lib (PI / 2) /\ 0 <= cos lib (- (PI / 2)).

End WithLibm.

(** ** Physically valid parameter sets

    The hard command limits are ordered, the current limit, flux linkage,
    resistance, inductance and pole-pair count are positive and the
    modulation limit is not negative. *)
Definition physically_valid (p : MotorParams) : Prop :=
  iq_cmd_lower_limit p <= iq_cmd_upper_limit p /\
  0 < phase_current_cmd_limit p /\
  0 < flux_linkage p /\
  0 < Rs p /\
  0 < Lq p /\
  (0 < num_pole_pairs p)%Z /\
  0 <= modulation_limit p.

(** ** Admissible operating points

    The squared magnitude of the steady-state d-q voltage of the
    non-salient machine at the current [(id, iq)]:
    [vd = Rs * id - omega_e * L * iq],
    [vq = Rs * iq + omega_e * (L * id + lambda)].  The voltage circle of
    [CalcTorqueLimits] (centre [(id_center, iq_center)], radius
    [iq_radius]) is the set of currents at which it is at most
    [vdq_max * vdq_max]. *)
Definition steady_state_voltage_sq
    (id iq rotor_vel : R) (p : MotorParams) : R :=
  (Rs p * id - omega_e rotor_vel p * Lq p * iq)
  * (Rs p * id - omega_e rotor_vel p * Lq p * iq)
  + (Rs p * iq + omega_e rotor_vel p * (Lq p * id + flux_linkage p))
    * (Rs p * iq + omega_e rotor_vel p * (Lq p * id + flux_linkage p)).

(** Zero torque is admissible: some point [(id, 0)] lies within the phase
    current limit and within the voltage limit. *)
Definition zero_torque_admissible
    (voltage rotor_vel : R) (p : MotorParams) : Prop :=
  exists id,
    Rabs id <= phase_current_cmd_limit p /\
    steady_state_voltage_sq id 0 rotor_vel p
    <= vdq_max voltage p * vdq_max voltage p.

(** An operating point [(id, iq)] is feasible: within the phase current
    limit, within the voltage limit and within the hard command limits. *)
Definition feasible
    (id iq voltage rotor_vel : R) (p : MotorParams) : Prop :=
  id * id + iq * iq
  <= phase_current_cmd_limit p * phase_current_cmd_limit p /\
  steady_state_voltage_sq id iq rotor_vel p
  <= vdq_max voltage p * vdq_max voltage p /\
  iq_cmd_lower_limit p <= iq <= iq_cmd_upper_limit p.

(** ** Concrete parameter sets

    [spec_params] is the example of the specification ([Rs = 0.1],
    [Lq = 0.001], [lambda = 0.1], [npp = 10], [modulation_limit = 1]) with
    a 40 A current limit, hard command limits of -40 A and 40 A and unit
    loss coefficients. *)
Definition spec_params : MotorParams :=
  {| Ld := 0.001; Lq := 0.001; Rs := 0.1; flux_linkage := 0.1;
     num_pole_pairs := 10; modulation_limit := 1;
     phase_current_cmd_limit := 40;
     iq_cmd_lower_limit := -40; iq_cmd_upper_limit := 40;
     omega_loss_coefficient_cubic := 1; omega_loss_coefficient_sq := 1;
     omega_loss_coefficient_lin := 1; hysteresis_loss_coefficient := 1;
     rds_on := 1; specific_switching_loss := 1;
     fixed_loss_sq_coeff := 1; fixed_loss_lin_coeff := 1;
     switching_frequency := 1 |}.

(** [spec_params] with hard command limits of 10 A and 20 A. *)
Definition offset_band_params : MotorParams :=
  {| Ld := 0.001; Lq := 0.001; Rs := 0.1; flux_linkage := 0.1;
     num_pole_pairs := 10; modulation_limit := 1;
     phase_current_cmd_limit := 40;
     iq_cmd_lower_limit := 10; iq_cmd_upper_limit := 20;
     omega_loss_coefficient_cubic := 1; omega_loss_coefficient_sq := 1;
     omega_loss_coefficient_lin := 1; hysteresis_loss_coefficient := 1;
     rds_on := 1; specific_switching_loss := 1;
     fixed_loss_sq_coeff := 1; fixed_loss_lin_coeff := 1;
     switching_frequency := 1 |}.

(** [spec_params] with a stator resistance of zero. *)
Definition zero_resistance_params : MotorParams :=
  {| Ld := 0.001; Lq := 0.001; Rs := 0; flux_linkage := 0.1;
     num_pole_pairs := 10; modulation_limit := 1;
     phase_current_cmd_limit := 40;
     iq_cmd_lower_limit := -40; iq_cmd_upper_limit := 40;
     omega_loss_coefficient_cubic := 1; omega_loss_coefficient_sq := 1;
     omega_loss_coefficient_lin := 1; hysteresis_loss_coefficient := 1;
     rds_on := 1; specific_switching_loss := 1;
     fixed_loss_sq_coeff := 1; fixed_loss_lin_coeff := 1;
     switching_frequency := 1 |}.

(** [spec_params] with a current limit of 100 A inside hard command limits
    of -200 A and 200 A. *)
Definition wide_band_params : MotorParams :=
  {| Ld := 0.001; Lq := 0.001; Rs := 0.1; flux_linkage := 0.1;
     num_pole_pairs := 10; modulation_limit := 1;
     phase_current_cmd_limit := 100;
     iq_cmd_lower_limit := -200; iq_cmd_upper_limit := 200;
     omega_loss_coefficient_cubic := 1; omega_loss_coefficient_sq := 1;
     omega_loss_coefficient_lin := 1; hysteresis_loss_coefficient := 1;
     rds_on := 1; specific_switching_loss := 1;
     fixed_loss_sq_coeff := 1; fixed_loss_lin_coeff := 1;
     switching_frequency := 1 |}.

(** A machine turning slowly backwards: [omega_e = -0.5] rad/s, below the
    1 rad/s at which [fmax (fabs (omega_e), 1.0)] takes effect. *)
Definition low_speed_params : MotorParams :=
  {| Ld := 0.6; Lq := 0.6; Rs := 0.4; flux_linkage := 0.4;
     num_pole_pairs := 1; modulation_limit := 1;
     phase_current_cmd_limit := 10;
     iq_cmd_lower_limit := -100; iq_cmd_upper_limit := 100;
     omega_loss_coefficient_cubic := 1; omega_loss_coefficient_sq := 1;
     omega_loss_coefficient_lin := 1; hysteresis_loss_coefficient := 1;
     rds_on := 1; specific_switching_loss := 1;
     fixed_loss_sq_coeff := 1; fixed_loss_lin_coeff := 1;
     switching_frequency := 1 |}.

(** The machine of [low_speed_params] with a current limit of 0.3 A and
    hard command limits of -1 A and -0.28 A: a generator that is never
    commanded to motor. *)
Definition low_speed_offset_params : MotorParams :=
  {| Ld := 0.6; Lq := 0.6; Rs := 0.4; flux_linkage := 0.4;
     num_pole_pairs := 1; modulation_limit := 1;
     phase_current_cmd_limit := 0.3;
     iq_cmd_lower_limit := -1; iq_cmd_upper_limit := -0.28;
     omega_loss_coefficient_cubic := 1; omega_loss_coefficient_sq := 1;
     omega_loss_coefficient_lin := 1; hysteresis_loss_coefficient := 1;
     rds_on := 1; specific_switching_loss := 1;
     fixed_loss_sq_coeff := 1; fixed_loss_lin_coeff := 1;
     switching_frequency := 1 |}.

(** * Properties *)

(** ** The traced functions compute the values of the plain ones *)

Lemma Traced_CalcMotorControllerLoss_value voltage ppcs p :
  fst (Traced.CalcMotorControllerLoss voltage ppcs p)
  = CalcMotorControllerLoss voltage ppcs p.
Proof. reflexivity. Qed.

Lemma Traced_CalcMotorPower_value voltage torque rotor_vel p :
  fst (Traced.CalcMotorPower voltage torque rotor_vel p)
  = CalcMotorPower voltage torque rotor_vel p.
Proof. reflexivity. Qed.

Lemma Traced_CalcTorqueLimits_value voltage rotor_vel p :
  fst (Traced.CalcTorqueLimits voltage rotor_vel p)
  = CalcTorqueLimits voltage rotor_vel p.
Proof.
  unfold Traced.CalcTorqueLimits, CalcTorqueLimits, iq_limits,
    apply_phase_current_limit, apply_power_limit, theta_lower, theta_upper,
    theta_ref, theta_delta, cos_idq, cos_idq_raw.
  fold (omega_e rotor_vel p).
  destruct (Rgtb (Rabs (omega_e rotor_vel p)) DBL_EPSILON); reflexivity.
Qed.

(** ** Comparisons and elementary facts *)

Lemma Rltb_true x y : x < y -> Rltb x y = true.
Proof. intros H. unfold Rltb. destruct (Rlt_dec x y); [reflexivity | lra]. Qed.

Lemma Rltb_false x y : y <= x -> Rltb x y = false.
Proof. intros H. unfold Rltb. destruct (Rlt_dec x y); [lra | reflexivity]. Qed.

Lemma Rltb_lt x y : Rltb x y = true -> x < y.
Proof. unfold Rltb. destruct (Rlt_dec x y); [trivial | discriminate]. Qed.

Lemma Rltb_ge x y : Rltb x y = false -> y <= x.
Proof. unfold Rltb. destruct (Rlt_dec x y); [discriminate | lra]. Qed.

(** Case analysis on the outcome of a comparison of the code. *)
Ltac cmp_cases x y :=
  let H := fresh "Hcmp" in
  destruct (Rltb x y) eqn:H;
  [apply Rltb_lt in H | apply Rltb_ge in H].

Lemma int_quot_m3_2 : IZR (Z.quot (-3) 2) = -1.
Proof. reflexivity. Qed.

Lemma clamp_voltage_nonneg v : 0 <= clamp_voltage v.
Proof. unfold clamp_voltage. cmp_cases v 0; lra. Qed.

Lemma clamp_voltage_neg v : v < 0 -> clamp_voltage v = 0.
Proof. intros H. unfold clamp_voltage. now rewrite Rltb_true. Qed.

Lemma clamp_voltage_pos v : 0 <= v -> clamp_voltage v = v.
Proof. intros H. unfold clamp_voltage. now rewrite Rltb_false. Qed.


Lemma sqrt3_pos : 0 < sqrt 3.
Proof. apply sqrt_lt_R0. lra. Qed.

Lemma z2_nonneg w p : 0 <= z2 w p.
Proof. unfold z2. nra. Qed.

Lemma spec_params_non_salient : non_salient spec_params.
Proof.
  unfold non_salient, DBL_EPSILON, spec_params.
  cbn [Ld Lq].
  replace (0.001 - 0.001) with 0 by lra. rewrite Rabs_R0.
  left. apply Rinv_0_lt_compat. lra.
Qed.

(** Reading the fields of a record that is written out. *)
Ltac fields :=
  cbn [Ld Lq Rs flux_linkage num_pole_pairs modulation_limit
       phase_current_cmd_limit iq_cmd_lower_limit iq_cmd_upper_limit
       omega_loss_coefficient_cubic omega_loss_coefficient_sq
       omega_loss_coefficient_lin hysteresis_loss_coefficient rds_on
       specific_switching_loss fixed_loss_sq_coeff fixed_loss_lin_coeff
       switching_frequency
       lower_limit upper_limit lower_constraint upper_constraint
       iq_lower iq_upper lower_tag upper_tag].

(** ** The peak-to-RMS factor (C1) *)

Lemma resistive_loss_eq x p : resistive_loss x p = - x * Rs p.
Proof. unfold resistive_loss. rewrite int_quot_m3_2. lra. Qed.

Lemma conduction_loss_eq x p : conduction_loss x p = - x * rds_on p.
Proof. unfold conduction_loss. rewrite int_quot_m3_2. lra. Qed.

Lemma omega_e_0 p : omega_e 0 p = 0.
Proof. unfold omega_e. lra. Qed.

Lemma id_center_0 p : id_center 0 p = 0.
Proof. unfold id_center. rewrite omega_e_0. unfold Rdiv. lra. Qed.

Lemma iq_center_0 p : iq_center 0 p = 0.
Proof. unfold iq_center. rewrite omega_e_0. unfold Rdiv. lra. Qed.

Lemma vdq_max_0 p : vdq_max 0 p = 0.
Proof. unfold vdq_max. lra. Qed.

Lemma iq_radius_0 w p : iq_radius 0 w p = 0.
Proof. unfold iq_radius. rewrite vdq_max_0. unfold Rdiv. lra. Qed.

Lemma CalcMotorControllerLoss_0V x p :
  CalcMotorControllerLoss 0 x p = - x * rds_on p.
Proof.
  unfold CalcMotorControllerLoss, variable_switching_loss_per_cycle,
    fixed_switching_loss_per_cycle.
  rewrite conduction_loss_eq. lra.
Qed.

(** C1, as the code has it.  The factor applied to the
    squared peak phase current is the integer quotient [-3 / 2 = -1], not
    -1.5: [resistive_loss] is [-1 * peak_phase_current_sq * Rs] and
    [conduction_loss] is [-1 * peak_phase_current_sq * rds_on] for every
    input.  With the parameters [spec_params]
    ([Rs = 0.1], [rds_on = 1]): [CalcMotorControllerLoss (0, 2)] returns
    -2 where the factor -1.5 gives -3, and [CalcMotorPower (0, 1.5, 0)],
    whose squared peak phase current is 1, returns -1.1 where the factor
    -1.5 gives -1.65. *)
Theorem C1_factor_is_integer_quotient :
  (forall x p, resistive_loss x p = -1 * x * Rs p) /\
  (forall x p, conduction_loss x p = -1 * x * rds_on p) /\
  CalcMotorControllerLoss 0 2 spec_params = -2 /\
  CalcMotorControllerLoss 0 2 spec_params <> -1.5 * 2 * rds_on spec_params /\
  peak_phase_current_sq 0 1.5 0 spec_params = 1 /\
  CalcMotorPower 0 1.5 0 spec_params = -1.1 /\
  CalcMotorPower 0 1.5 0 spec_params
  <> -1.5 * 1 * Rs spec_params + -1.5 * 1 * rds_on spec_params.
Proof.
  assert (Hc : CalcMotorControllerLoss 0 2 spec_params = -2).
  { rewrite CalcMotorControllerLoss_0V. unfold spec_params; fields. lra. }
  assert (Hq : peak_phase_current_sq 0 1.5 0 spec_params = 1).
  { unfold peak_phase_current_sq.
    rewrite iq_center_0, id_center_0, iq_radius_0.
    assert (Hi : iq_of_torque 1.5 spec_params = 1).
    { unfold iq_of_torque, spec_params; fields. lra. }
    rewrite Hi. replace (1 - 0) with 1 by lra. rewrite Rabs_R1.
    unfold Rgtb. rewrite Rltb_true by lra. lra. }
  assert (Hp : CalcMotorPower 0 1.5 0 spec_params = -1.1).
  { unfold CalcMotorPower. rewrite clamp_voltage_pos by lra.
    cbv zeta. rewrite Hq, CalcMotorControllerLoss_0V, resistive_loss_eq.
    unfold mechanical_power, speed_loss, hysteresis_loss, spec_params.
    fields. lra. }
  split; [| split; [| split; [| split; [| split; [| split]]]]].
  - intros x p. rewrite resistive_loss_eq. lra.
  - intros x p. rewrite conduction_loss_eq. lra.
  - exact Hc.
  - rewrite Hc. unfold spec_params; fields. lra.
  - exact Hq.
  - exact Hp.
  - rewrite Hp. unfold spec_params; fields. lra.
Qed.

(** ** Zero torque at standstill (C4) *)

Lemma iq_of_torque_0 p : iq_of_torque 0 p = 0.
Proof. unfold iq_of_torque, Rdiv. lra. Qed.

Lemma peak_phase_current_sq_standstill voltage p :
  peak_phase_current_sq voltage 0 0 p = 0.
Proof.
  unfold peak_phase_current_sq.
  rewrite iq_of_torque_0, iq_center_0, id_center_0.
  cbv zeta. replace (0 - 0) with 0 by lra. unfold Rgtb.
  cmp_cases (iq_radius voltage 0 p) (Rabs 0); [lra |].
  match goal with |- context [Rltb ?a 0] => cmp_cases a 0 end; [| lra].
  match type of Hcmp0 with 0 + sqrt ?a < 0 =>
    pose proof (sqrt_pos a) end.
  lra.
Qed.

(** C4, counterexample.  With a flux linkage of zero the quotient
    [torque / (1.5 * npp * lambda)] of line 134 is [0.0 / 0.0]: in
    binary64 [CalcMotorPower (48, 0, 0)] is NaN, where the fixed
    switching loss the claim names is -7056. *)
Lemma C4_counterexample :
  Binary64.is_nan
    (Binary64.CalcMotorPower 48 0 0 Binary64.zero_flux_params) = true /\
  (Binary64.switching_frequency Binary64.zero_flux_params
   * (-3 * (Binary64.fixed_loss_sq_coeff Binary64.zero_flux_params * 48
            + Binary64.fixed_loss_lin_coeff Binary64.zero_flux_params)
      * 48)
   = -7056)%float.
Proof. split; vm_compute; reflexivity. Qed.

(** C4, as amended.  For every voltage and every parameter set whose
    pole-pair count and flux linkage are not zero, so that the divisor of
    line 134 is not zero, [CalcMotorPower (voltage, 0, 0)] has a zero
    squared peak phase current, zero mechanical, resistive, speed,
    hysteresis, conduction and variable-switching terms, and returns
    [switching_frequency] times the fixed switching loss per cycle of
    [CalcMotorControllerLoss], taken at the voltage the function passes
    on (negative voltages clamped to 0). *)
Theorem C4_power_at_zero_torque_and_speed voltage p :
  num_pole_pairs p <> 0%Z -> flux_linkage p <> 0 ->
  let v := clamp_voltage voltage in
  peak_phase_current_sq v 0 0 p = 0 /\
  mechanical_power 0 0 = 0 /\
  resistive_loss (peak_phase_current_sq v 0 0 p) p = 0 /\
  speed_loss 0 p = 0 /\
  hysteresis_loss (peak_phase_current_sq v 0 0 p) 0 p = 0 /\
  conduction_loss (peak_phase_current_sq v 0 0 p) p = 0 /\
  variable_switching_loss_per_cycle v (peak_phase_current_sq v 0 0 p) p = 0 /\
  CalcMotorPower voltage 0 0 p
  = switching_frequency p * fixed_switching_loss_per_cycle v p.
Proof.
  intros _ _ v. unfold CalcMotorPower. fold v. cbv zeta.
  rewrite (peak_phase_current_sq_standstill v p).
  rewrite resistive_loss_eq, conduction_loss_eq.
  unfold CalcMotorControllerLoss. rewrite conduction_loss_eq.
  unfold mechanical_power, speed_loss, hysteresis_loss,
    variable_switching_loss_per_cycle.
  rewrite sqrt_0.
  split; [| split; [| split; [| split; [| split; [| split; [| split]]]]]];
    lra.
Qed.

Lemma C4_power_at_zero_torque_and_speed_witness :
  CalcMotorPower 48 0 0 spec_params
  = switching_frequency spec_params
    * fixed_switching_loss_per_cycle (clamp_voltage 48) spec_params.
Proof.
  apply (C4_power_at_zero_torque_and_speed 48 spec_params).
  - discriminate.
  - unfold spec_params; fields. lra.
Defined.

(** ** Negative voltage is clamped (C5) *)

(** C5.  For every negative voltage, every torque, rotor speed and
    non-salient parameter set, [CalcTorqueLimits] and [CalcMotorPower]
    return what they return at voltage 0. *)
Theorem C5_negative_voltage_as_zero v torque rotor_vel p :
  non_salient p ->
  v < 0 ->
  CalcTorqueLimits v rotor_vel p = CalcTorqueLimits 0 rotor_vel p /\
  CalcMotorPower v torque rotor_vel p = CalcMotorPower 0 torque rotor_vel p.
Proof.
  intros _ Hv. unfold CalcTorqueLimits, CalcMotorPower.
  rewrite (clamp_voltage_neg v Hv), (clamp_voltage_pos 0) by lra.
  split; reflexivity.
Qed.

Lemma C5_negative_voltage_as_zero_witness :
  CalcTorqueLimits (-48) 25 spec_params = CalcTorqueLimits 0 25 spec_params /\
  CalcMotorPower (-48) 3 25 spec_params = CalcMotorPower 0 3 25 spec_params.
Proof.
  apply (C5_negative_voltage_as_zero (-48) 3 25 spec_params).
  - exact spec_params_non_salient.
  - lra.
Defined.

(** ** Monotonicity of the controller loss (C7) *)

Lemma six_over_PI_pos : 0 < 3 * 2 / PI.
Proof. apply Rdiv_lt_0_compat; [lra | exact PI_RGT_0]. Qed.

Lemma CalcMotorControllerLoss_decr_current p v x1 x2 :
  0 <= rds_on p -> 0 <= specific_switching_loss p ->
  0 <= switching_frequency p ->
  0 <= v -> 0 <= x1 <= x2 ->
  CalcMotorControllerLoss v x2 p <= CalcMotorControllerLoss v x1 p.
Proof.
  intros Hr Hs Hf Hv [Hx1 Hx12].
  unfold CalcMotorControllerLoss, variable_switching_loss_per_cycle.
  rewrite !conduction_loss_eq.
  pose proof six_over_PI_pos as Hk.
  pose proof (sqrt_le_1_alt x1 x2 Hx12) as Hq.
  pose proof (sqrt_pos x1) as Hq1.
  set (k := 3 * 2 / PI) in *.
  set (s1 := sqrt x1) in *. set (s2 := sqrt x2) in *. clearbody k s1 s2.
  assert (H1 : 0 <= (x2 - x1) * rds_on p) by (apply Rmult_le_pos; lra).
  assert (H2 : 0 <= k * v * specific_switching_loss p).
  { apply Rmult_le_pos; [apply Rmult_le_pos; lra | lra]. }
  assert (H3 : 0 <= switching_frequency p
                    * ((k * v * specific_switching_loss p) * (s2 - s1))).
  { apply Rmult_le_pos; [lra | apply Rmult_le_pos; lra]. }
  lra.
Qed.

Lemma CalcMotorControllerLoss_decr_voltage p x v1 v2 :
  0 <= specific_switching_loss p -> 0 <= switching_frequency p ->
  0 <= fixed_loss_sq_coeff p -> 0 <= fixed_loss_lin_coeff p ->
  0 <= x -> 0 <= v1 <= v2 ->
  CalcMotorControllerLoss v2 x p <= CalcMotorControllerLoss v1 x p.
Proof.
  intros Hs Hf Ha Hb Hx [Hv1 Hv12].
  unfold CalcMotorControllerLoss, variable_switching_loss_per_cycle,
    fixed_switching_loss_per_cycle.
  pose proof six_over_PI_pos as Hk.
  pose proof (sqrt_pos x) as Hq.
  set (k := 3 * 2 / PI) in *. set (s := sqrt x) in *. clearbody k s.
  assert (H1 : 0 <= k * s * specific_switching_loss p * (v2 - v1)).
  { repeat apply Rmult_le_pos; lra. }
  assert (H2 : 0 <= fixed_loss_sq_coeff p * (v2 * v2 - v1 * v1)).
  { apply Rmult_le_pos; [lra | nra]. }
  assert (H3 : 0 <= fixed_loss_lin_coeff p * (v2 - v1)).
  { apply Rmult_le_pos; lra. }
  apply Rplus_le_compat_l.
  apply Rmult_le_compat_l; [exact Hf | lra].
Qed.

(** C7.  For a parameter set with non-negative [rds_on],
    [specific_switching_loss], [switching_frequency] and fixed-loss
    coefficients, [CalcMotorControllerLoss] does not increase when
    [peak_phase_current_sq >= 0] increases at a fixed voltage [>= 0], nor
    when [voltage >= 0] increases at a fixed [peak_phase_current_sq >= 0]. *)
Theorem C7_controller_loss_monotone p :
  0 <= rds_on p -> 0 <= specific_switching_loss p ->
  0 <= switching_frequency p ->
  0 <= fixed_loss_sq_coeff p -> 0 <= fixed_loss_lin_coeff p ->
  (forall v x1 x2, 0 <= v -> 0 <= x1 <= x2 ->
     CalcMotorControllerLoss v x2 p <= CalcMotorControllerLoss v x1 p) /\
  (forall x v1 v2, 0 <= x -> 0 <= v1 <= v2 ->
     CalcMotorControllerLoss v2 x p <= CalcMotorControllerLoss v1 x p).
Proof.
  intros Hr Hs Hf Ha Hb. split.
  - intros v x1 x2 Hv Hx.
    now apply CalcMotorControllerLoss_decr_current.
  - intros x v1 v2 Hx Hv.
    now apply CalcMotorControllerLoss_decr_voltage.
Qed.

Lemma C7_controller_loss_monotone_witness :
  CalcMotorControllerLoss 600 2500 spec_params
  <= CalcMotorControllerLoss 600 900 spec_params /\
  CalcMotorControllerLoss 800 900 spec_params
  <= CalcMotorControllerLoss 600 900 spec_params.
Proof.
  assert (H01 : 0 <= 1) by lra.
  destruct (C7_controller_loss_monotone spec_params H01 H01 H01 H01 H01)
    as [Hx Hv].
  split; [apply Hx | apply Hv]; lra.
Defined.

(** ** No clamp in the controller loss (C10) *)

(** C10.  [CalcMotorControllerLoss] uses the voltage as given: there are
    a negative voltage, a positive [peak_phase_current_sq] and a parameter
    set (here -0.5, 1 and [spec_params]) at which its result differs from
    the one at voltage 0, both switching-loss terms are positive, and so is
    the returned loss. *)
Theorem C10_controller_loss_not_clamped :
  exists voltage x p,
    voltage < 0 /\ 0 < x /\
    CalcMotorControllerLoss voltage x p <> CalcMotorControllerLoss 0 x p /\
    0 < variable_switching_loss_per_cycle voltage x p /\
    0 < fixed_switching_loss_per_cycle voltage p /\
    0 < CalcMotorControllerLoss voltage x p.
Proof.
  exists (-0.5), 1, spec_params.
  pose proof six_over_PI_pos as Hk. pose proof PI_4 as H4.
  pose proof PI_RGT_0 as H0.
  assert (Hv : variable_switching_loss_per_cycle (-0.5) 1 spec_params
               = 3 / PI).
  { unfold variable_switching_loss_per_cycle, spec_params; fields.
    rewrite sqrt_1. unfold Rdiv. lra. }
  assert (Hf : fixed_switching_loss_per_cycle (-0.5) spec_params = 0.75).
  { unfold fixed_switching_loss_per_cycle, spec_params; fields. lra. }
  assert (H3 : 3 / 4 <= 3 / PI).
  { unfold Rdiv. apply Rmult_le_compat_l; [lra |].
    apply Rinv_le_contravar; lra. }
  assert (Hc : CalcMotorControllerLoss (-0.5) 1 spec_params
               = -1 + (3 / PI + 0.75)).
  { unfold CalcMotorControllerLoss. rewrite Hv, Hf, conduction_loss_eq.
    unfold spec_params; fields. lra. }
  rewrite Hc, Hv, Hf, CalcMotorControllerLoss_0V.
  unfold spec_params; fields.
  split; [| split; [| split; [| split; [| split]]]]; lra.
Qed.

(** ** Partial operations of [CalcTorqueLimits] and [CalcMotorPower] (C8, C9) *)

Lemma Saturate_bounds x low high :
  low <= high -> low <= Saturate x low high <= high.
Proof.
  intros H. unfold Saturate, Rgtb.
  cmp_cases x low; [lra |]. cmp_cases high x; lra.
Qed.

Lemma cos_idq_bounds v w p : -1 <= cos_idq v w p <= 1.
Proof. unfold cos_idq. apply Saturate_bounds. lra. Qed.

Lemma DBL_EPSILON_pos : 0 < DBL_EPSILON.
Proof. unfold DBL_EPSILON. apply Rinv_0_lt_compat. lra. Qed.

(** The events of a call of [CalcTorqueLimits], in program order. *)
Lemma Traced_CalcTorqueLimits_events voltage rotor_vel p :
  snd (Traced.CalcTorqueLimits voltage rotor_vel p)
  = [ Traced.Div Traced.at_inv_sqrt3 (sqrt 3);
      Traced.Div Traced.at_id_center (z2 rotor_vel p);
      Traced.Div Traced.at_iq_center (z2 rotor_vel p);
      Traced.Div Traced.at_iq_radius (sqrt (z2 rotor_vel p));
      Traced.Div Traced.at_cos_idq
        (2 * Rmax (Rabs (omega_e rotor_vel p)) 1 * flux_linkage p
         * phase_current_cmd_limit p * sqrt (z2 rotor_vel p));
      Traced.Acos (cos_idq (clamp_voltage voltage) rotor_vel p) ]
    ++ (if Rgtb (Rabs (omega_e rotor_vel p)) DBL_EPSILON
        then [Traced.Div Traced.at_theta_ref (omega_e rotor_vel p * Lq p)]
        else []).
Proof.
  unfold Traced.CalcTorqueLimits.
  fold (omega_e rotor_vel p).
  destruct (Rgtb (Rabs (omega_e rotor_vel p)) DBL_EPSILON); reflexivity.
Qed.

(** The events of a call of [CalcMotorPower], in program order. *)
Lemma Traced_CalcMotorPower_events voltage torque rotor_vel p :
  snd (Traced.CalcMotorPower voltage torque rotor_vel p)
  = [ Traced.Div Traced.at_inv_sqrt3 (sqrt 3);
      Traced.Div Traced.at_iq
        (1.5 * IZR (num_pole_pairs p) * flux_linkage p);
      Traced.Div Traced.at_id_center (z2 rotor_vel p);
      Traced.Div Traced.at_iq_center (z2 rotor_vel p);
      Traced.Div Traced.at_iq_radius (sqrt (z2 rotor_vel p));
      Traced.Div Traced.at_two_over_pi PI ].
Proof. reflexivity. Qed.

(** C8.  In every call of [CalcTorqueLimits], whatever the arguments:
    each argument handed to [acos] lies in [[-1, 1]] (it is the saturated
    [cos_idq]); the quotient [Rs / (omega_e * L)] of the reference angle is
    evaluated only when [fabs (omega_e) > DBL_EPSILON], hence never with
    [omega_e = 0]; and when [fabs (omega_e) <= DBL_EPSILON] the reference
    angle is 0. *)
Theorem C8_acos_argument_and_reference_angle voltage rotor_vel p :
  let events := snd (Traced.CalcTorqueLimits voltage rotor_vel p) in
  (forall x, In (Traced.Acos x) events -> -1 <= x <= 1) /\
  In (Traced.Acos (cos_idq (clamp_voltage voltage) rotor_vel p)) events /\
  (forall d, In (Traced.Div Traced.at_theta_ref d) events ->
     DBL_EPSILON < Rabs (omega_e rotor_vel p) /\ omega_e rotor_vel p <> 0 /\
     d = omega_e rotor_vel p * Lq p) /\
  (Rabs (omega_e rotor_vel p) <= DBL_EPSILON ->
     theta_ref rotor_vel p = 0 /\
     forall d, ~ In (Traced.Div Traced.at_theta_ref d) events).
Proof.
  intros events. subst events.
  rewrite Traced_CalcTorqueLimits_events.
  pose proof DBL_EPSILON_pos as He.
  split; [| split; [| split]].
  - intros x Hin. apply in_app_or in Hin. destruct Hin as [Hin | Hin].
    + simpl in Hin.
      repeat (destruct Hin as [Hin | Hin]; [try discriminate |]);
        try contradiction.
      injection Hin as <-. apply cos_idq_bounds.
    + destruct (Rgtb _ _); simpl in Hin;
        repeat (destruct Hin as [Hin | Hin]; [try discriminate |]);
        contradiction.
  - apply in_or_app. left. simpl. tauto.
  - intros d Hin. apply in_app_or in Hin. destruct Hin as [Hin | Hin].
    + simpl in Hin.
      repeat (destruct Hin as [Hin | Hin]; [try discriminate |]);
        contradiction.
    + unfold Rgtb in Hin.
      cmp_cases DBL_EPSILON (Rabs (omega_e rotor_vel p)).
      * simpl in Hin. destruct Hin as [Hin | []]. injection Hin as <-.
        split; [exact Hcmp | split; [| reflexivity]].
        intros H0. rewrite H0, Rabs_R0 in Hcmp. lra.
      * contradiction.
  - intros Hle. unfold theta_ref, Rgtb. rewrite Rltb_false by exact Hle.
    split; [reflexivity |].
    intros d Hin. apply in_app_or in Hin. destruct Hin as [Hin | Hin].
    + simpl in Hin.
      repeat (destruct Hin as [Hin | Hin]; [try discriminate |]);
        contradiction.
    + contradiction.
Qed.

Lemma z2_zero w p : Rs p = 0 -> omega_e w p = 0 -> z2 w p = 0.
Proof. intros H1 H2. unfold z2. rewrite H1, H2. lra. Qed.

(** C9.  When [Rs = 0] and the electrical speed [rotor_vel * npp] is 0
    (in particular when [rotor_vel = 0]), [z2] is 0 and both
    [CalcTorqueLimits] and [CalcMotorPower] evaluate the divisions that
    define [id_center], [iq_center] and [iq_radius] with a zero divisor;
    so if no division of either function has a zero divisor, then
    [Rs <> 0] or [rotor_vel * npp <> 0]. *)
Theorem C9_zero_impedance_divides_by_zero voltage torque rotor_vel p :
  let limits_events := snd (Traced.CalcTorqueLimits voltage rotor_vel p) in
  let power_events :=
    snd (Traced.CalcMotorPower voltage torque rotor_vel p) in
  (Rs p = 0 -> rotor_vel * IZR (num_pole_pairs p) = 0 ->
   z2 rotor_vel p = 0 /\
   In (Traced.Div Traced.at_id_center 0) limits_events /\
   In (Traced.Div Traced.at_iq_center 0) limits_events /\
   In (Traced.Div Traced.at_iq_radius 0) limits_events /\
   In (Traced.Div Traced.at_id_center 0) power_events /\
   In (Traced.Div Traced.at_iq_center 0) power_events /\
   In (Traced.Div Traced.at_iq_radius 0) power_events) /\
  ((forall s d, In (Traced.Div s d) limits_events -> d <> 0) ->
   Rs p <> 0 \/ rotor_vel * IZR (num_pole_pairs p) <> 0) /\
  ((forall s d, In (Traced.Div s d) power_events -> d <> 0) ->
   Rs p <> 0 \/ rotor_vel * IZR (num_pole_pairs p) <> 0).
Proof.
  intros limits_events power_events.
  assert (Hz : Rs p = 0 -> rotor_vel * IZR (num_pole_pairs p) = 0 ->
               In (Traced.Div Traced.at_id_center 0) limits_events /\
               In (Traced.Div Traced.at_id_center 0) power_events /\
               z2 rotor_vel p = 0).
  { intros H1 H2. subst limits_events power_events.
    rewrite Traced_CalcTorqueLimits_events, Traced_CalcMotorPower_events.
    rewrite (z2_zero rotor_vel p H1 H2).
    split; [| split; [| reflexivity]].
    - apply in_or_app. left. simpl. tauto.
    - simpl. tauto. }
  split; [| split].
  - intros H1 H2. subst limits_events power_events.
    rewrite Traced_CalcTorqueLimits_events, Traced_CalcMotorPower_events.
    rewrite (z2_zero rotor_vel p H1 H2), sqrt_0.
    split; [reflexivity |].
    repeat split; try (apply in_or_app; left); simpl; tauto.
  - intros Hall.
    destruct (Req_dec (Rs p) 0) as [H1 | H1]; [| now left].
    destruct (Req_dec (rotor_vel * IZR (num_pole_pairs p)) 0) as [H2 | H2];
      [| now right].
    destruct (Hz H1 H2) as [Hin _].
    exfalso. exact (Hall _ _ Hin eq_refl).
  - intros Hall.
    destruct (Req_dec (Rs p) 0) as [H1 | H1]; [| now left].
    destruct (Req_dec (rotor_vel * IZR (num_pole_pairs p)) 0) as [H2 | H2];
      [| now right].
    destruct (Hz H1 H2) as [_ [Hin _]].
    exfalso. exact (Hall _ _ Hin eq_refl).
Qed.

Lemma C9_zero_impedance_witness :
  z2 0 zero_resistance_params = 0 /\
  In (Traced.Div Traced.at_id_center 0)
     (snd (Traced.CalcTorqueLimits 48 0 zero_resistance_params)) /\
  In (Traced.Div Traced.at_iq_center 0)
     (snd (Traced.CalcTorqueLimits 48 0 zero_resistance_params)) /\
  In (Traced.Div Traced.at_iq_radius 0)
     (snd (Traced.CalcTorqueLimits 48 0 zero_resistance_params)) /\
  In (Traced.Div Traced.at_id_center 0)
     (snd (Traced.CalcMotorPower 48 3 0 zero_resistance_params)) /\
  In (Traced.Div Traced.at_iq_center 0)
     (snd (Traced.CalcMotorPower 48 3 0 zero_resistance_params)) /\
  In (Traced.Div Traced.at_iq_radius 0)
     (snd (Traced.CalcMotorPower 48 3 0 zero_resistance_params)).
Proof.
  apply (proj1 (C9_zero_impedance_divides_by_zero
                  48 3 0 zero_resistance_params)).
  - reflexivity.
  - apply Rmult_0_l.
Defined.

(** ** The two steps on the band *)

Lemma power_limit_lower c r b :
  iq_lower (power_limit c r b) = Rmax (iq_lower b) (c - r).
Proof.
  unfold power_limit, Rgtb.
  cmp_cases (iq_lower b) (c - r);
    match goal with |- context [Rltb ?x ?y] => cmp_cases x y end;
    cbn [iq_lower]; unfold Rmax; destruct (Rle_dec _ _); lra.
Qed.

Lemma power_limit_upper c r b :
  iq_upper (power_limit c r b) = Rmin (iq_upper b) (c + r).
Proof.
  unfold power_limit, Rgtb.
  cmp_cases (iq_lower b) (c - r);
    match goal with |- context [Rltb ?x ?y] => cmp_cases x y end;
    cbn [iq_upper] in *; unfold Rmin; destruct (Rle_dec _ _); lra.
Qed.

(** The lower tag after the power step says whether the circle binds. *)
Lemma power_limit_lower_tag c r b :
  lower_tag (power_limit c r b)
  = if Rltb (iq_lower b) (c - r) then kSimMotorLimitPower else lower_tag b.
Proof.
  unfold power_limit, Rgtb.
  cmp_cases (iq_lower b) (c - r);
    match goal with |- context [Rltb ?x ?y] => cmp_cases x y end;
    reflexivity.
Qed.

Lemma power_limit_upper_tag c r b :
  upper_tag (power_limit c r b)
  = if Rgtb (iq_upper b) (c + r) then kSimMotorLimitPower else upper_tag b.
Proof.
  unfold power_limit, Rgtb.
  cmp_cases (iq_lower b) (c - r); cbn [iq_upper];
    cmp_cases (c + r) (iq_upper b); reflexivity.
Qed.

(** The phase current step on the lower bound. *)
Lemma phase_current_limit_lower i a tl th b :
  iq_lower (phase_current_limit i a tl th b)
  = if Rltb a (i * cos tl) && Rgtb (i * sin tl) (iq_lower b)
    then i * sin tl else iq_lower b.
Proof.
  unfold phase_current_limit.
  destruct (Rltb a (i * cos tl) && Rgtb (i * sin tl) (iq_lower b));
    match goal with |- context [if ?c then _ else _] => destruct c end;
    reflexivity.
Qed.

Lemma phase_current_limit_upper i a tl th b :
  iq_upper (phase_current_limit i a tl th b)
  = if Rltb a (i * cos th) && Rltb (i * sin th) (iq_upper b)
    then i * sin th else iq_upper b.
Proof.
  unfold phase_current_limit.
  destruct (Rltb a (i * cos tl) && Rgtb (i * sin tl) (iq_lower b));
    cbn [iq_upper];
    destruct (Rltb a (i * cos th) && Rltb (i * sin th) (iq_upper b));
    reflexivity.
Qed.

Lemma phase_current_limit_lower_tag i a tl th b :
  lower_tag (phase_current_limit i a tl th b)
  = if Rltb a (i * cos tl) && Rgtb (i * sin tl) (iq_lower b)
    then kSimMotorLimitPhaseCurrent else lower_tag b.
Proof.
  unfold phase_current_limit.
  destruct (Rltb a (i * cos tl) && Rgtb (i * sin tl) (iq_lower b));
    match goal with |- context [if ?c then _ else _] => destruct c end;
    reflexivity.
Qed.

Lemma phase_current_limit_upper_tag i a tl th b :
  upper_tag (phase_current_limit i a tl th b)
  = if Rltb a (i * cos th) && Rltb (i * sin th) (iq_upper b)
    then kSimMotorLimitPhaseCurrent else upper_tag b.
Proof.
  unfold phase_current_limit.
  destruct (Rltb a (i * cos tl) && Rgtb (i * sin tl) (iq_lower b));
    cbn [iq_upper upper_tag];
    destruct (Rltb a (i * cos th) && Rltb (i * sin th) (iq_upper b));
    reflexivity.
Qed.

(** The phase current step never lowers the lower bound and never raises
    the upper bound. *)
Lemma phase_current_limit_lower_ge i a tl th b :
  iq_lower b <= iq_lower (phase_current_limit i a tl th b).
Proof.
  rewrite phase_current_limit_lower.
  destruct (Rltb a (i * cos tl)); cbn [andb]; [| lra].
  unfold Rgtb. cmp_cases (iq_lower b) (i * sin tl); lra.
Qed.

Lemma phase_current_limit_upper_le i a tl th b :
  iq_upper (phase_current_limit i a tl th b) <= iq_upper b.
Proof.
  rewrite phase_current_limit_upper.
  destruct (Rltb a (i * cos th)); cbn [andb]; [| lra].
  cmp_cases (i * sin th) (iq_upper b); lra.
Qed.

(** The band after the power step, in the arguments of the function. *)
Lemma iq_limits_lower_ge v w p :
  Rmax (iq_cmd_lower_limit p) (iq_center w p - iq_radius v w p)
  <= iq_lower (iq_limits v w p).
Proof.
  unfold iq_limits, apply_phase_current_limit, apply_power_limit.
  eapply Rle_trans; [| apply phase_current_limit_lower_ge].
  rewrite power_limit_lower. cbn [hard_limits iq_lower]. lra.
Qed.

Lemma iq_limits_upper_le v w p :
  iq_upper (iq_limits v w p)
  <= Rmin (iq_cmd_upper_limit p) (iq_center w p + iq_radius v w p).
Proof.
  unfold iq_limits, apply_phase_current_limit, apply_power_limit.
  eapply Rle_trans; [apply phase_current_limit_upper_le |].
  rewrite power_limit_upper. cbn [hard_limits iq_upper]. lra.
Qed.

(** ** Ordering of the returned limits (C3) *)

Lemma spec_params_valid : physically_valid spec_params.
Proof.
  unfold physically_valid, spec_params; fields.
  repeat (split; [lra || reflexivity |]). lra.
Qed.

Lemma spec_params_at_10 :
  omega_e 10 spec_params = 100 /\ z2 10 spec_params = 0.02 /\
  iq_center 10 spec_params = -50 /\ id_center 10 spec_params = -50.
Proof.
  assert (Hw : omega_e 10 spec_params = 100).
  { unfold omega_e, spec_params; fields. lra. }
  assert (Hz : z2 10 spec_params = 0.02).
  { unfold z2. rewrite Hw. unfold spec_params; fields. lra. }
  split; [exact Hw | split; [exact Hz | split]].
  - unfold iq_center. rewrite Hw, Hz. unfold spec_params; fields. lra.
  - unfold id_center. rewrite Hw, Hz. unfold spec_params; fields. lra.
Qed.

(** C3, counterexample.  [spec_params] is physically valid and
    non-salient; at voltage 0 and a rotor speed of 10 rad/s
    ([omega_e = 100], [iq_center = -50], [iq_radius = 0]) the power step
    lowers the upper bound to -50 A while the lower bound stays at or above
    the hard limit of -40 A: the function returns
    [upper_limit <= -75 < -60 <= lower_limit]. *)
Lemma C3_counterexample :
  physically_valid spec_params /\ non_salient spec_params /\ 0 <= 0 /\
  upper_limit (CalcTorqueLimits 0 10 spec_params) <= -75 /\
  -60 <= lower_limit (CalcTorqueLimits 0 10 spec_params) /\
  ~ (lower_limit (CalcTorqueLimits 0 10 spec_params)
     <= upper_limit (CalcTorqueLimits 0 10 spec_params)).
Proof.
  destruct spec_params_at_10 as [Hw [Hz [Hc Ha]]].
  pose proof (iq_limits_lower_ge 0 10 spec_params) as Hlo.
  pose proof (iq_limits_upper_le 0 10 spec_params) as Hhi.
  rewrite Hc, iq_radius_0 in Hlo, Hhi.
  assert (Hlo' : -40 <= iq_lower (iq_limits 0 10 spec_params)).
  { eapply Rle_trans; [| exact Hlo].
    unfold spec_params; fields. apply Rmax_l. }
  assert (Hhi' : iq_upper (iq_limits 0 10 spec_params) <= -50).
  { eapply Rle_trans; [exact Hhi |].
    replace (-50 + 0) with (-50) by lra. apply Rmin_r. }
  assert (Hu : upper_limit (CalcTorqueLimits 0 10 spec_params) <= -75).
  { unfold CalcTorqueLimits. rewrite clamp_voltage_pos by lra.
    cbv zeta. cbn [upper_limit]. unfold spec_params at 1 2; fields. lra. }
  assert (Hl : -60 <= lower_limit (CalcTorqueLimits 0 10 spec_params)).
  { unfold CalcTorqueLimits. rewrite clamp_voltage_pos by lra.
    cbv zeta. cbn [lower_limit]. unfold spec_params at 1 2; fields. lra. }
  split; [exact spec_params_valid |].
  split; [exact spec_params_non_salient |].
  split; [lra |]. split; [exact Hu |]. split; [exact Hl |]. lra.
Qed.

(** *** Trigonometry of the reference angle *)

Lemma sqrt_sum_sqr_quot A B :
  B <> 0 -> sqrt (A * A + B * B) = sqrt (1 + (A / B)²) * Rabs B.
Proof.
  intros HB.
  assert (HB2 : 0 < B * B) by nra.
  rewrite <- (sqrt_Rsqr_abs B), <- sqrt_mult.
  - f_equal. unfold Rsqr. field. exact HB.
  - unfold Rsqr. nra.
  - apply Rle_0_sqr.
Qed.

Lemma sqrt_one_plus_sqr_pos x : 0 < sqrt (1 + x²).
Proof. apply sqrt_lt_R0. unfold Rsqr. nra. Qed.

Lemma cos_atan_quot A B :
  B <> 0 -> cos (atan (A / B)) * sqrt (A * A + B * B) = Rabs B.
Proof.
  intros HB. rewrite cos_atan, (sqrt_sum_sqr_quot A B HB).
  pose proof (sqrt_one_plus_sqr_pos (A / B)) as Hs.
  field. lra.
Qed.

Lemma sin_atan_quot A B :
  B <> 0 -> sin (atan (A / B)) * sqrt (A * A + B * B) * B = A * Rabs B.
Proof.
  intros HB. rewrite sin_atan, (sqrt_sum_sqr_quot A B HB).
  pose proof (sqrt_one_plus_sqr_pos (A / B)) as Hs.
  field. split; lra.
Qed.

Lemma atan_nonneg x : 0 <= x -> 0 <= atan x.
Proof.
  intros [H | <-]; [| rewrite atan_0; lra].
  rewrite <- atan_0. left. now apply atan_increasing.
Qed.

Lemma atan_nonpos x : x <= 0 -> atan x <= 0.
Proof.
  intros [H | ->]; [| rewrite atan_0; lra].
  rewrite <- atan_0. left. now apply atan_increasing.
Qed.

Lemma sin_nonpos_neg_half_turn x : - PI <= x -> x <= 0 -> sin x <= 0.
Proof.
  intros H1 H2. rewrite <- (Ropp_involutive x), sin_neg.
  pose proof (sin_ge_0 (- x)). lra.
Qed.

Lemma cos_nonpos_lower x : - PI <= x -> x <= - (PI / 2) -> cos x <= 0.
Proof.
  intros H1 H2. rewrite <- (Ropp_involutive x), cos_neg.
  apply cos_le_0; lra.
Qed.

Lemma cos_nonpos_upper x : PI / 2 <= x -> x <= PI -> cos x <= 0.
Proof. intros H1 H2. pose proof PI_RGT_0. apply cos_le_0; lra. Qed.

Lemma theta_delta_bound v w p : 0 <= theta_delta v w p <= PI.
Proof. unfold theta_delta. apply acos_bound. Qed.

Lemma cos_theta_delta v w p : cos (theta_delta v w p) = cos_idq v w p.
Proof. unfold theta_delta. apply cos_acos, cos_idq_bounds. Qed.

Lemma sin_theta_delta_nonneg v w p : 0 <= sin (theta_delta v w p).
Proof.
  destruct (theta_delta_bound v w p). now apply sin_ge_0.
Qed.

Lemma theta_ref_bound w p : - (PI / 2) < theta_ref w p < PI / 2.
Proof.
  unfold theta_ref. destruct (Rgtb _ _).
  - pose proof (atan_bound (Rs p / (omega_e w p * Lq p))). lra.
  - pose proof PI_RGT_0. lra.
Qed.

Lemma Saturate_neg_ge x : Saturate x (-1) 1 < 0 -> x <= Saturate x (-1) 1.
Proof.
  unfold Saturate, Rgtb. cmp_cases x (-1); [lra |].
  cmp_cases 1 x; lra.
Qed.

(** The algebraic core: while the guard on [id_center] holds, the
    intersection angle cannot lie beyond the d-axis when some point
    [(x, 0)] of the d-axis is inside both circles.  [u] and [w] stand for
    the cosine and the absolute sine of the reference angle, [q] for
    [- cos_idq], [S] for [sin (theta_delta)], [d] for the distance of the
    centre of the voltage circle from the origin and [i] for the current
    limit. *)
Lemma guard_excludes_far_side u w q S d i x :
  0 < u -> u * u + w * w = 1 -> 0 < q -> 0 <= S -> q * q + S * S = 1 ->
  0 < d -> 0 < i -> - i <= x <= i ->
  x * x + 2 * u * d * x <= i * i - 2 * q * d * i ->
  i * (u * q + w * S) < u * d ->
  u * S < w * q ->
  False.
Proof.
  intros Hu Huw Hq HS HqS Hd Hi Hx Hzt Hg Hs.
  assert (HuS : 0 <= u * S) by (apply Rmult_le_pos; lra).
  assert (Hw : 0 < w) by nra.
  assert (Hqq : q * q = 1 - S * S) by lra.
  assert (Huu : u * u = 1 - w * w) by lra.
  assert (Hq1 : q <= 1) by nra.
  assert (H1 : 0 < (w * q - u * S) * (w * q + u * S)).
  { apply Rmult_lt_0_compat; lra. }
  assert (H2 : S * S < w * w).
  { replace ((w * q - u * S) * (w * q + u * S))
      with (w * w * (q * q) - u * u * (S * S)) in H1 by ring.
    rewrite Hqq, Huu in H1. lra. }
  assert (HwS : S < w) by nra.
  assert (Hqu : u < q).
  { assert (H3 : u * u < q * q) by lra. nra. }
  set (k := 1 - u * q - w * S).
  assert (Hk0 : 0 <= k).
  { unfold k.
    assert (0 <= (u - q) * (u - q) + (w - S) * (w - S)) by nra. nra. }
  assert (HA0 : (1 + u) * S <= w * (1 + q)) by lra.
  assert (HA1 : (1 + u) * (1 - q) <= w * S).
  { apply Rmult_le_reg_r with (1 + q); [lra |].
    assert (H3 : (1 + u) * S * S <= w * (1 + q) * S)
      by (apply Rmult_le_compat_r; lra).
    replace ((1 + u) * (1 - q) * (1 + q))
      with ((1 + u) * (1 - q * q)) by ring.
    rewrite Hqq. lra. }
  assert (HA : k <= q - u) by (unfold k; lra).
  assert (HB : u <= 1 - k).
  { unfold k. assert (0 <= u * (1 - q)) by (apply Rmult_le_pos; lra).
    lra. }
  assert (Hk1 : k <= 1).
  { unfold k. assert (0 <= w * S) by (apply Rmult_le_pos; lra).
    assert (0 <= u * q) by (apply Rmult_le_pos; lra). lra. }
  assert (Hgk : i * (1 - k) < u * d) by (unfold k; lra).
  clearbody k.
  set (t := i + x).
  assert (Ht : 0 <= t) by (unfold t; lra).
  assert (Hq2 : t * t + 2 * t * (u * d - i) + 2 * d * i * (q - u) <= 0).
  { unfold t. lra. }
  clearbody t.
  assert (Hq3 : t * t - 2 * t * i * k + 2 * d * i * (q - u) <= 0).
  { assert (0 <= t * (u * d - i + i * k)) by (apply Rmult_le_pos; lra).
    lra. }
  assert (Hq4 : 2 * d * i * (q - u) <= i * i * k * k).
  { assert (0 <= (t - i * k) * (t - i * k)) by apply Rle_0_sqr. lra. }
  assert (Hq5 : 2 * d * (q - u) <= i * k * k).
  { apply Rmult_le_reg_r with i; [lra |]. lra. }
  assert (Hq6 : 2 * d * k <= i * k * k).
  { assert (0 <= 2 * d * ((q - u) - k)) by (apply Rmult_le_pos; lra).
    lra. }
  assert (Hdi : i < d).
  { assert (H3 : i * u <= i * (1 - k)) by (apply Rmult_le_compat_l; lra).
    apply Rmult_lt_reg_l with u; [lra |]. lra. }
  destruct (Req_dec k 0) as [Hk | Hk].
  - rewrite Hk in Hq5.
    assert (0 < 2 * d * (q - u)) by (apply Rmult_lt_0_compat; lra). lra.
  - assert (Hkp : 0 < k) by lra.
    assert (H3 : 2 * d <= i * k).
    { apply Rmult_le_reg_r with k; [lra |]. lra. }
    assert (H4 : i * k <= i * 1) by (apply Rmult_le_compat_l; lra).
    lra.
Qed.

(** The voltage limit as the circle of [CalcTorqueLimits]: the squared
    steady-state voltage is [z2] times the squared distance of
    [(id, iq)] from [(id_center, iq_center)], and [iq_radius] squared is
    [vdq_max] squared over [z2]. *)
Lemma voltage_circle id iq v w p :
  0 < Rs p ->
  steady_state_voltage_sq id iq w p
  = z2 w p * ((id - id_center w p) * (id - id_center w p)
              + (iq - iq_center w p) * (iq - iq_center w p)) /\
  z2 w p * (iq_radius v w p * iq_radius v w p)
  = vdq_max v p * vdq_max v p.
Proof.
  intros HRs.
  assert (Hz : 0 < z2 w p) by (unfold z2; nra).
  assert (Hs : 0 < sqrt (z2 w p)) by (apply sqrt_lt_R0; exact Hz).
  assert (Hss : sqrt (z2 w p) * sqrt (z2 w p) = z2 w p)
    by (apply sqrt_sqrt; lra).
  split.
  - unfold steady_state_voltage_sq, id_center, iq_center.
    pose proof Hz as Hz'. unfold z2 in Hz'.
    set (z := z2 w p) in *.
    transitivity
      (z * id * id
       + 2 * (omega_e w p * omega_e w p * Lq p * flux_linkage p) * id
       + z * iq * iq
       + 2 * (Rs p * omega_e w p * flux_linkage p) * iq
       + flux_linkage p * flux_linkage p * omega_e w p * omega_e w p).
    { unfold z, z2. ring. }
    transitivity
      (z * id * id
       + 2 * (omega_e w p * omega_e w p * Lq p * flux_linkage p) * id
       + z * iq * iq
       + 2 * (Rs p * omega_e w p * flux_linkage p) * iq
       + flux_linkage p * flux_linkage p * omega_e w p * omega_e w p
         * (Rs p * Rs p
            + Lq p * Lq p * omega_e w p * omega_e w p) / z).
    { unfold z at 5. unfold z2. field. lra. }
    field. lra.
  - unfold iq_radius. rewrite <- Hss at 1. field. lra.
Qed.

(** *** The band when zero torque is admissible *)

Section ZeroTorqueAdmissible.

Variables (v w : R) (p : MotorParams) (id0 : R).
Hypothesis HRs : 0 < Rs p.
Hypothesis HL : 0 < Lq p.
Hypothesis Hlam : 0 < flux_linkage p.
Hypothesis Hi : 0 < phase_current_cmd_limit p.
Hypothesis HV : 0 <= vdq_max v p.
(** The d-axis current [id0] is within the current limit, and the point
    [(id0, 0)] within the voltage limit. *)
Hypothesis Hid : Rabs id0 <= phase_current_cmd_limit p.
Hypothesis Hzt : steady_state_voltage_sq id0 0 w p
                 <= vdq_max v p * vdq_max v p.

Lemma z2_pos : 0 < z2 w p.
Proof using HRs. unfold z2. nra. Qed.

Lemma sqrt_z2_pos : 0 < sqrt (z2 w p).
Proof using HRs. apply sqrt_lt_R0, z2_pos. Qed.

Lemma sqrt_z2_sqr : sqrt (z2 w p) * sqrt (z2 w p) = z2 w p.
Proof using HRs. apply sqrt_sqrt. left. apply z2_pos. Qed.

Lemma Rabs_sqr_eq x : Rabs x * Rabs x = x * x.
Proof. unfold Rabs. destruct (Rcase_abs x); lra. Qed.

(** The voltage at [(id0, 0)], expanded. *)
Lemma voltage_at_id0 :
  steady_state_voltage_sq id0 0 w p
  = z2 w p * id0 * id0
    + 2 * (omega_e w p * omega_e w p * Lq p * flux_linkage p) * id0
    + flux_linkage p * flux_linkage p * omega_e w p * omega_e w p.
Proof. unfold steady_state_voltage_sq, z2. ring. Qed.

(** Zero quadrature current is inside the voltage band. *)
Lemma iq_center_within_radius :
  iq_center w p - iq_radius v w p <= 0 <= iq_center w p + iq_radius v w p.
Proof using HRs HV Hzt.
  pose proof sqrt_z2_pos as Hs. pose proof sqrt_z2_sqr as Hss.
  pose proof z2_pos as Hz. pose proof Hzt as Hzt'.
  set (s := sqrt (z2 w p)) in *.
  assert (Hc : iq_center w p * (s * s)
               = - Rs p * omega_e w p * flux_linkage p).
  { unfold iq_center. rewrite Hss. field. lra. }
  assert (Hr : iq_radius v w p * s = vdq_max v p).
  { unfold iq_radius. fold s. field. lra. }
  assert (Hsplit :
    z2 w p * steady_state_voltage_sq id0 0 w p
    = (z2 w p * id0
       + omega_e w p * omega_e w p * Lq p * flux_linkage p)
      * (z2 w p * id0
         + omega_e w p * omega_e w p * Lq p * flux_linkage p)
      + iq_center w p * (s * s) * (iq_center w p * (s * s))).
  { rewrite Hc. unfold steady_state_voltage_sq, z2. ring. }
  assert (Hcs : iq_center w p * s * (iq_center w p * s)
                <= iq_radius v w p * s * (iq_radius v w p * s)).
  { rewrite Hr. apply Rmult_le_reg_l with (z2 w p); [exact Hz |].
    apply Rle_trans with (z2 w p * steady_state_voltage_sq id0 0 w p);
      [| apply Rmult_le_compat_l; lra].
    rewrite Hsplit, <- Hss.
    match goal with |- _ <= ?a * ?a + _ =>
      pose proof (Rle_0_sqr a) as Hsq; unfold Rsqr in Hsq end.
    lra. }
  assert (Hr0 : 0 <= iq_radius v w p * s) by (rewrite Hr; exact HV).
  assert (Hr1 : 0 <= iq_radius v w p).
  { apply Rmult_le_reg_r with s; lra. }
  assert (Habs : - (iq_radius v w p * s) <= iq_center w p * s
                 <= iq_radius v w p * s) by (split; nra).
  split.
  - apply Rmult_le_reg_r with s; [exact Hs |]. lra.
  - apply Rmult_le_reg_r with s; [exact Hs |]. lra.
Qed.

(** What a negative [cos_idq] says about the voltage limit. *)
Lemma cos_idq_neg_bound :
  cos_idq v w p < 0 ->
  vdq_max v p * vdq_max v p
  <= z2 w p * phase_current_cmd_limit p * phase_current_cmd_limit p
     + flux_linkage p * flux_linkage p * omega_e w p * omega_e w p
     + 2 * cos_idq v w p * (Rabs (omega_e w p) * flux_linkage p)
       * phase_current_cmd_limit p * sqrt (z2 w p).
Proof using HRs Hlam Hi.
  intros HX.
  pose proof sqrt_z2_pos as Hs.
  pose proof (Saturate_neg_ge _ HX) as Hraw. fold (cos_idq v w p) in Hraw.
  pose proof (Rabs_pos (omega_e w p)) as Ha.
  set (X := cos_idq v w p) in *.
  set (s := sqrt (z2 w p)) in *.
  set (i := phase_current_cmd_limit p) in *.
  set (lam := flux_linkage p) in *.
  set (m := Rmax (Rabs (omega_e w p)) 1).
  assert (Hm2 : Rabs (omega_e w p) <= m) by apply Rmax_l.
  assert (Hm1 : 1 <= m) by apply Rmax_r.
  assert (HD : 0 < 2 * m * lam * i * s).
  { repeat apply Rmult_lt_0_compat; lra. }
  assert (HN : vdq_max v p * vdq_max v p - z2 w p * i * i
               - lam * lam * omega_e w p * omega_e w p
               <= X * (2 * m * lam * i * s)).
  { apply Rmult_le_compat_r with (r := 2 * m * lam * i * s) in Hraw;
      [| lra].
    unfold cos_idq_raw in Hraw. fold s i lam m in Hraw.
    replace ((vdq_max v p * vdq_max v p - z2 w p * i * i
              - lam * lam * omega_e w p * omega_e w p)
             / (2 * m * lam * i * s) * (2 * m * lam * i * s))
      with (vdq_max v p * vdq_max v p - z2 w p * i * i
            - lam * lam * omega_e w p * omega_e w p) in Hraw
      by (field; lra).
    exact Hraw. }
  assert (Hlis : 0 <= lam * i * s).
  { repeat apply Rmult_le_pos; lra. }
  assert (Hmono : X * (2 * m * lam * i * s)
                  <= X * (2 * Rabs (omega_e w p) * lam * i * s)).
  { assert (H0 : 0 <= - X * (2 * (lam * i * s))
                      * (m - Rabs (omega_e w p))).
    { apply Rmult_le_pos; [apply Rmult_le_pos |]; lra. }
    lra. }
  lra.
Qed.

(** [id_center] scaled by [z2]. *)
Lemma id_center_z2 :
  id_center w p * z2 w p
  = - (omega_e w p * omega_e w p * Lq p * flux_linkage p).
Proof using HRs.
  pose proof z2_pos as Hz. unfold id_center. field. lra.
Qed.

(** The reference angle is the arctangent whenever it is not zero. *)
Lemma theta_ref_cases :
  theta_ref w p = 0 \/
  (omega_e w p <> 0 /\
   theta_ref w p = atan (Rs p / (omega_e w p * Lq p))).
Proof.
  unfold theta_ref, Rgtb.
  cmp_cases DBL_EPSILON (Rabs (omega_e w p)); [right | now left].
  split; [| reflexivity].
  intros H0. rewrite H0, Rabs_R0 in Hcmp.
  pose proof DBL_EPSILON_pos. lra.
Qed.

Lemma trig_theta_ref :
  omega_e w p <> 0 ->
  cos (atan (Rs p / (omega_e w p * Lq p))) * sqrt (z2 w p)
  = Rabs (omega_e w p) * Lq p /\
  sin (atan (Rs p / (omega_e w p * Lq p))) * sqrt (z2 w p) * omega_e w p
  = Rs p * Rabs (omega_e w p).
Proof using HL.
  intros Hom.
  assert (HB : omega_e w p * Lq p <> 0)
    by (apply Rmult_integral_contrapositive; lra).
  assert (Hz : z2 w p = Rs p * Rs p
                        + omega_e w p * Lq p * (omega_e w p * Lq p)).
  { unfold z2. ring. }
  pose proof (cos_atan_quot (Rs p) _ HB) as Hc.
  pose proof (sin_atan_quot (Rs p) _ HB) as Hs.
  rewrite <- Hz in Hc, Hs.
  rewrite Rabs_mult, (Rabs_pos_eq (Lq p)) in Hc, Hs by lra.
  split; [exact Hc |].
  apply Rmult_eq_reg_r with (Lq p); [| lra].
  transitivity (Rs p * (Rabs (omega_e w p) * Lq p)); [| ring].
  rewrite <- Hs. ring.
Qed.

(** The guard and a candidate angle on the far side of the d-axis
    exclude each other.  [cr] is the cosine of the reference angle, [wr]
    its sine in absolute value and [S] the sine of [theta_delta]. *)
Lemma far_side_contradiction cr wr S :
  omega_e w p <> 0 ->
  cr * sqrt (z2 w p) = Rabs (omega_e w p) * Lq p ->
  wr * sqrt (z2 w p) = Rs p ->
  0 <= S ->
  cos_idq v w p * cos_idq v w p + S * S = 1 ->
  (* the sine of the candidate angle has the wrong sign *)
  0 < - wr * cos_idq v w p - cr * S ->
  (* the guard [id_center < i_phase_lim * cos theta] *)
  id_center w p
  < phase_current_cmd_limit p * (cr * cos_idq v w p - wr * S) ->
  False.
Proof using HRs HL Hlam Hi Hid Hzt.
  intros Hom Hc Hw HS Hunit Hsin Hg.
  pose proof sqrt_z2_pos as Hs. pose proof sqrt_z2_sqr as Hss.
  pose proof id_center_z2 as Ha. rewrite <- Hss in Ha.
  pose proof voltage_at_id0 as Hv0. rewrite <- Hss in Hv0.
  pose proof Hzt as Hzt'. rewrite Hv0 in Hzt'.
  assert (Habs : 0 < Rabs (omega_e w p)) by (apply Rabs_pos_lt; exact Hom).
  pose proof (Rabs_sqr_eq (omega_e w p)) as Hsq.
  assert (Hid' : - phase_current_cmd_limit p <= id0
                 <= phase_current_cmd_limit p).
  { revert Hid. unfold Rabs. destruct (Rcase_abs id0); lra. }
  set (s := sqrt (z2 w p)) in *.
  set (d := Rabs (omega_e w p) * flux_linkage p / s).
  assert (Hd : d * s = Rabs (omega_e w p) * flux_linkage p).
  { unfold d. field. lra. }
  assert (Hd0 : 0 < d).
  { unfold d. apply Rdiv_lt_0_compat; [apply Rmult_lt_0_compat |]; lra. }
  assert (Hcr : 0 < cr).
  { apply Rmult_lt_reg_r with s; [exact Hs |]. rewrite Rmult_0_l, Hc.
    apply Rmult_lt_0_compat; lra. }
  assert (Hwr : 0 < wr).
  { apply Rmult_lt_reg_r with s; [exact Hs |]. rewrite Rmult_0_l, Hw.
    exact HRs. }
  assert (Hunit_r : cr * cr + wr * wr = 1).
  { apply Rmult_eq_reg_r with (s * s); [| nra].
    transitivity (cr * s * (cr * s) + wr * s * (wr * s)); [ring |].
    rewrite Hc, Hw, Rmult_1_l, Hss.
    transitivity (Rabs (omega_e w p) * Rabs (omega_e w p)
                  * (Lq p * Lq p) + Rs p * Rs p); [ring |].
    rewrite Hsq. unfold z2. ring. }
  assert (Hcd : cr * d * (s * s)
                = omega_e w p * omega_e w p * Lq p * flux_linkage p).
  { transitivity (cr * s * (d * s)); [ring |].
    rewrite Hc, Hd.
    transitivity (Rabs (omega_e w p) * Rabs (omega_e w p)
                  * Lq p * flux_linkage p); [ring |].
    rewrite Hsq. ring. }
  assert (Hacd : id_center w p = - (cr * d)).
  { apply Rmult_eq_reg_r with (s * s); [| nra].
    rewrite Ha, <- Hcd. ring. }
  assert (HX : cos_idq v w p < 0).
  { assert (0 <= cr * S) by (apply Rmult_le_pos; lra). nra. }
  pose proof (cos_idq_neg_bound HX) as HK. fold s in HK.
  rewrite <- Hss in HK. fold s in HK. rewrite <- Hd in HK.
  rewrite <- Hcd in Hzt'.
  set (X := cos_idq v w p) in *.
  set (i := phase_current_cmd_limit p) in *.
  assert (Hline : (id0 * id0 + 2 * cr * d * id0) * (s * s)
                  <= (i * i - 2 * - X * d * i) * (s * s)) by lra.
  apply Rmult_le_reg_r in Hline; [| nra].
  apply (guard_excludes_far_side cr wr (- X) S d i id0);
    solve [assumption | lra].
Qed.

(** When the guard of the lower phase current limit holds, the candidate
    angle lies in the lower half plane. *)
Lemma lower_candidate_nonpos :
  id_center w p < phase_current_cmd_limit p * cos (theta_lower v w p) ->
  sin (theta_lower v w p) <= 0.
Proof using HRs HL Hlam Hi Hid Hzt.
  intros Hg.
  destruct (theta_delta_bound v w p) as [Hd0 Hd1].
  pose proof PI_RGT_0 as Hpi.
  unfold theta_lower, Rmin in *.
  destruct (Rle_dec (theta_ref w p - theta_delta v w p) (-0.5 * PI))
    as [Hle | Hgt].
  2:{ replace (-0.5 * PI) with (- (PI / 2)) by lra.
      rewrite sin_neg, sin_PI2. lra. }
  destruct (Rle_dec (- PI) (theta_ref w p - theta_delta v w p))
    as [Hin | Hout].
  { apply sin_nonpos_neg_half_turn; lra. }
  apply Rnot_le_lt in Hout.
  destruct theta_ref_cases as [H0 | [Hom Hat]]; [lra |].
  destruct (Rle_dec (sin (theta_ref w p - theta_delta v w p)) 0)
    as [Hdone | Hpos]; [exact Hdone | exfalso].
  apply Rnot_le_lt in Hpos.
  assert (Hneg : omega_e w p < 0).
  { destruct (Rlt_dec (omega_e w p) 0) as [Hlt | Hge]; [exact Hlt |].
    exfalso.
    assert (0 <= atan (Rs p / (omega_e w p * Lq p))).
    { apply atan_nonneg. left. apply Rdiv_lt_0_compat; nra. }
    lra. }
  destruct (trig_theta_ref Hom) as [Hc Hs].
  pose proof sqrt_z2_pos as Hsp.
  rewrite Hat in Hpos, Hg.
  rewrite sin_minus, cos_theta_delta in Hpos.
  rewrite cos_minus, cos_theta_delta in Hg.
  set (cr := cos (atan (Rs p / (omega_e w p * Lq p)))) in *.
  set (sr := sin (atan (Rs p / (omega_e w p * Lq p)))) in *.
  set (S := sin (theta_delta v w p)) in *.
  assert (Hsr : - sr * sqrt (z2 w p) = Rs p).
  { apply Rmult_eq_reg_r with (omega_e w p); [| exact Hom].
    transitivity (- (sr * sqrt (z2 w p) * omega_e w p)); [ring |].
    rewrite Hs, (Rabs_left _ Hneg). ring. }
  apply (far_side_contradiction cr (- sr) S Hom Hc Hsr).
  - apply sin_theta_delta_nonneg.
  - pose proof (sin2_cos2 (theta_delta v w p)) as H1.
    unfold Rsqr in H1. rewrite cos_theta_delta in H1. fold S in H1. lra.
  - lra.
  - lra.
Qed.

(** When the guard of the upper phase current limit holds, the candidate
    angle lies in the upper half plane. *)
Lemma upper_candidate_nonneg :
  id_center w p < phase_current_cmd_limit p * cos (theta_upper v w p) ->
  0 <= sin (theta_upper v w p).
Proof using HRs HL Hlam Hi Hid Hzt.
  intros Hg.
  destruct (theta_delta_bound v w p) as [Hd0 Hd1].
  pose proof PI_RGT_0 as Hpi.
  unfold theta_upper, Rmax in *.
  destruct (Rle_dec (theta_ref w p + theta_delta v w p) (0.5 * PI))
    as [Hle | Hgt].
  { replace (0.5 * PI) with (PI / 2) by lra. rewrite sin_PI2. lra. }
  apply Rnot_le_lt in Hgt.
  destruct (Rle_dec (theta_ref w p + theta_delta v w p) PI)
    as [Hin | Hout].
  { apply sin_ge_0; lra. }
  apply Rnot_le_lt in Hout.
  destruct theta_ref_cases as [H0 | [Hom Hat]]; [lra |].
  destruct (Rle_dec 0 (sin (theta_ref w p + theta_delta v w p)))
    as [Hdone | Hneg]; [exact Hdone | exfalso].
  apply Rnot_le_lt in Hneg.
  assert (Hpos : 0 < omega_e w p).
  { destruct (Rlt_dec 0 (omega_e w p)) as [Hlt | Hge]; [exact Hlt |].
    exfalso.
    assert (atan (Rs p / (omega_e w p * Lq p)) <= 0).
    { apply atan_nonpos. left.
      assert (Hq : 0 < Rs p / (- omega_e w p * Lq p))
        by (apply Rdiv_lt_0_compat; nra).
      replace (Rs p / (omega_e w p * Lq p))
        with (- (Rs p / (- omega_e w p * Lq p))) by (field; lra).
      lra. }
    lra. }
  destruct (trig_theta_ref Hom) as [Hc Hs].
  pose proof sqrt_z2_pos as Hsp.
  rewrite Hat in Hneg, Hg.
  rewrite sin_plus, cos_theta_delta in Hneg.
  rewrite cos_plus, cos_theta_delta in Hg.
  set (cr := cos (atan (Rs p / (omega_e w p * Lq p)))) in *.
  set (sr := sin (atan (Rs p / (omega_e w p * Lq p)))) in *.
  set (S := sin (theta_delta v w p)) in *.
  assert (Hsr : sr * sqrt (z2 w p) = Rs p).
  { apply Rmult_eq_reg_r with (omega_e w p); [| exact Hom].
    rewrite Hs, (Rabs_pos_eq _ (Rlt_le _ _ Hpos)). ring. }
  apply (far_side_contradiction cr sr S Hom Hc Hsr).
  - apply sin_theta_delta_nonneg.
  - pose proof (sin2_cos2 (theta_delta v w p)) as H1.
    unfold Rsqr in H1. rewrite cos_theta_delta in H1. fold S in H1. lra.
  - lra.
  - lra.
Qed.

Lemma iq_limits_lower_nonpos :
  iq_cmd_lower_limit p <= 0 -> iq_lower (iq_limits v w p) <= 0.
Proof using HRs HL Hlam Hi HV Hid Hzt.
  intros Hlo.
  unfold iq_limits, apply_phase_current_limit, apply_power_limit.
  rewrite phase_current_limit_lower.
  destruct iq_center_within_radius as [Hb _].
  cmp_cases (id_center w p)
            (phase_current_cmd_limit p * cos (theta_lower v w p));
    cbn [andb].
  - destruct (Rgtb _ _).
    + pose proof (lower_candidate_nonpos Hcmp). nra.
    + rewrite power_limit_lower. cbn [hard_limits iq_lower].
      apply Rmax_lub; lra.
  - rewrite power_limit_lower. cbn [hard_limits iq_lower].
    apply Rmax_lub; lra.
Qed.

Lemma iq_limits_upper_nonneg :
  0 <= iq_cmd_upper_limit p -> 0 <= iq_upper (iq_limits v w p).
Proof using HRs HL Hlam Hi HV Hid Hzt.
  intros Hhi.
  unfold iq_limits, apply_phase_current_limit, apply_power_limit.
  rewrite phase_current_limit_upper.
  destruct iq_center_within_radius as [_ Hb].
  cmp_cases (id_center w p)
            (phase_current_cmd_limit p * cos (theta_upper v w p));
    cbn [andb].
  - destruct (Rltb _ _).
    + pose proof (upper_candidate_nonneg Hcmp). nra.
    + rewrite power_limit_upper. cbn [hard_limits iq_upper].
      apply Rmin_glb; lra.
  - rewrite power_limit_upper. cbn [hard_limits iq_upper].
    apply Rmin_glb; lra.
Qed.

End ZeroTorqueAdmissible.

Lemma torque_factor_nonneg p :
  (0 < num_pole_pairs p)%Z -> 0 < flux_linkage p ->
  0 < 1.5 * IZR (num_pole_pairs p) * flux_linkage p.
Proof.
  intros Hn Hl. apply IZR_lt in Hn.
  apply Rmult_lt_0_compat; [apply Rmult_lt_0_compat |]; lra.
Qed.

Lemma sqrt3_lt_2 : sqrt 3 < 2.
Proof.
  pose proof sqrt3_pos as H0.
  assert (H3 : sqrt 3 * sqrt 3 = 3) by (apply sqrt_sqrt; lra).
  nra.
Qed.

Lemma inv_sqrt3_bounds : 1 / 2 < 1 / sqrt 3 /\ 1 / sqrt 3 < 1.
Proof.
  pose proof sqrt3_pos as H0. pose proof sqrt3_lt_2 as H2.
  assert (H3 : sqrt 3 * sqrt 3 = 3) by (apply sqrt_sqrt; lra).
  assert (H1 : 1 < sqrt 3) by nra.
  assert (Hinv : / sqrt 3 * sqrt 3 = 1) by (apply Rinv_l; lra).
  assert (Hpos : 0 < / sqrt 3) by (apply Rinv_0_lt_compat; exact H0).
  unfold Rdiv. rewrite !Rmult_1_l.
  set (t := / sqrt 3) in *. set (r := sqrt 3) in *. clearbody t r.
  split; nra.
Qed.

Lemma inv_sqrt3_sqr : 1 / sqrt 3 * (1 / sqrt 3) = 1 / 3.
Proof.
  pose proof sqrt3_pos as H0.
  assert (H3 : sqrt 3 * sqrt 3 = 3) by (apply sqrt_sqrt; lra).
  apply Rmult_eq_reg_r with (sqrt 3 * sqrt 3); [| nra].
  rewrite H3 at 2.
  transitivity (1 / sqrt 3 * sqrt 3 * (1 / sqrt 3 * sqrt 3)); [ring |].
  unfold Rdiv. rewrite Rmult_1_l, Rinv_l by lra. lra.
Qed.

Lemma vdq_max_nonneg v p :
  0 <= modulation_limit p -> 0 <= v -> 0 <= vdq_max v p.
Proof.
  intros Hm Hv. unfold vdq_max. destruct inv_sqrt3_bounds as [Hb _].
  apply Rmult_le_pos; [apply Rmult_le_pos |]; lra.
Qed.

(** ** Monotonicity in the voltage (C6) *)

Lemma vdq_max_mono v1 v2 p :
  0 <= modulation_limit p -> v1 <= v2 -> vdq_max v1 p <= vdq_max v2 p.
Proof.
  intros Hm Hv. unfold vdq_max.
  destruct inv_sqrt3_bounds as [Hb _].
  apply Rmult_le_compat_r; [exact Hm |].
  apply Rmult_le_compat_r; lra.
Qed.

Lemma iq_radius_mono v1 v2 w p :
  0 <= modulation_limit p -> v1 <= v2 ->
  iq_radius v1 w p <= iq_radius v2 w p.
Proof.
  intros Hm Hv. unfold iq_radius, Rdiv.
  apply Rmult_le_compat_r; [| now apply vdq_max_mono].
  pose proof (sqrt_pos (z2 w p)) as [Hs | <-].
  - left. now apply Rinv_0_lt_compat.
  - rewrite Rinv_0. lra.
Qed.

(** A lower bound tagged power-limited is the bottom of the voltage band;
    an upper bound tagged power-limited is its top. *)
Lemma iq_limits_lower_power v w p :
  lower_tag (iq_limits v w p) = kSimMotorLimitPower ->
  iq_lower (iq_limits v w p) = iq_center w p - iq_radius v w p.
Proof.
  unfold iq_limits, apply_phase_current_limit, apply_power_limit.
  rewrite phase_current_limit_lower_tag, phase_current_limit_lower.
  destruct (Rltb _ _ && Rgtb _ _); [discriminate |].
  rewrite power_limit_lower_tag, power_limit_lower.
  cbn [hard_limits iq_lower lower_tag].
  cmp_cases (iq_cmd_lower_limit p) (iq_center w p - iq_radius v w p);
    [| discriminate].
  intros _. apply Rmax_right. lra.
Qed.

Lemma iq_limits_upper_power v w p :
  upper_tag (iq_limits v w p) = kSimMotorLimitPower ->
  iq_upper (iq_limits v w p) = iq_center w p + iq_radius v w p.
Proof.
  unfold iq_limits, apply_phase_current_limit, apply_power_limit.
  rewrite phase_current_limit_upper_tag, phase_current_limit_upper.
  destruct (Rltb _ _ && Rltb _ _); [discriminate |].
  rewrite power_limit_upper_tag, power_limit_upper.
  cbn [hard_limits iq_upper upper_tag]. unfold Rgtb.
  cmp_cases (iq_center w p + iq_radius v w p) (iq_cmd_upper_limit p);
    [| discriminate].
  intros _. apply Rmin_right. lra.
Qed.

(** *** Angles and their sines and cosines *)









(** *** The phase current step as the voltage rises *)


Section VoltageMonotone.

Variables (w : R) (p : MotorParams).
Hypothesis HRs : 0 < Rs p.
Hypothesis HL : 0 < Lq p.
Hypothesis Hlam : 0 < flux_linkage p.
Hypothesis Hi : 0 < phase_current_cmd_limit p.









End VoltageMonotone.

Section ExactSpeed.

Variables (w : R) (p : MotorParams).
Hypothesis HRs : 0 < Rs p.
Hypothesis HL : 0 < Lq p.
Hypothesis Hlam : 0 < flux_linkage p.
Hypothesis Hi : 0 < phase_current_cmd_limit p.
Hypothesis Hmod : 0 <= modulation_limit p.
(** [fmax (fabs (omega_e), 1.0)] is [fabs (omega_e)]. *)
Hypothesis Hom : 1 <= Rabs (omega_e w p).





(** While [cos_idq] is not saturated at 1 the point of the current circle
    at the angle [theta_delta] from the reference is not inside the
    voltage circle. *)
Lemma crossing_outside_voltage_circle v :
  cos_idq v w p < 1 ->
  iq_radius v w p * iq_radius v w p
  <= phase_current_cmd_limit p * phase_current_cmd_limit p
     + Rabs (omega_e w p) * flux_linkage p / sqrt (z2 w p)
       * (Rabs (omega_e w p) * flux_linkage p / sqrt (z2 w p))
     + 2 * phase_current_cmd_limit p
       * (Rabs (omega_e w p) * flux_linkage p / sqrt (z2 w p))
       * cos_idq v w p.
Proof using HRs Hlam Hi Hom.
  intros HX.
  pose proof (sqrt_z2_pos w p HRs) as Hsp.
  pose proof (sqrt_z2_sqr w p HRs) as Hss.
  pose proof (Rabs_sqr_eq (omega_e w p)) as Hsq.
  assert (Hraw : cos_idq_raw v w p <= cos_idq v w p).
  { revert HX. unfold cos_idq, Saturate, Rgtb.
    cmp_cases (cos_idq_raw v w p) (-1); [lra |].
    cmp_cases 1 (cos_idq_raw v w p); lra. }
  unfold cos_idq_raw in Hraw. rewrite (Rmax_left _ _ Hom) in Hraw.
  rewrite <- Hss in Hraw at 1.
  unfold iq_radius.
  set (X := cos_idq v w p) in *. set (s := sqrt (z2 w p)) in *.
  set (i := phase_current_cmd_limit p) in *.
  set (lam := flux_linkage p) in *. set (V := vdq_max v p) in *.
  set (m := Rabs (omega_e w p)) in *.
  assert (HD : 0 < 2 * m * lam * i * s).
  { repeat apply Rmult_lt_0_compat; lra. }
  apply Rmult_le_compat_r with (r := 2 * m * lam * i * s) in Hraw; [| lra].
  replace ((V * V - s * s * i * i - lam * lam * omega_e w p * omega_e w p)
           / (2 * m * lam * i * s) * (2 * m * lam * i * s))
    with (V * V - s * s * i * i - lam * lam * (omega_e w p * omega_e w p))
    in Hraw by (field; lra).
  rewrite <- Hsq in Hraw. fold m in Hraw.
  apply Rmult_le_reg_r with (s * s); [nra |].
  replace (V / s * (V / s) * (s * s)) with (V * V) by (field; lra).
  replace ((i * i + m * lam / s * (m * lam / s) + 2 * i * (m * lam / s) * X)
           * (s * s))
    with (s * s * i * i + lam * lam * (m * m) + X * (2 * m * lam * i * s))
    by (field; lra).
  lra.
Qed.

Lemma cos_lt_1_pos x : 0 < x -> x <= PI -> cos x < 1.
Proof.
  intros H0 H1. rewrite <- cos_0. pose proof PI_RGT_0.
  apply cos_decreasing_1; lra.
Qed.






End ExactSpeed.



Lemma Rabs_m05 : Rabs (-0.5) = 0.5.
Proof. unfold Rabs. destruct (Rcase_abs (-0.5)); lra. Qed.

Lemma low_speed_quantities :
  omega_e (-0.5) low_speed_params = -0.5 /\
  z2 (-0.5) low_speed_params = 0.25 /\
  sqrt (z2 (-0.5) low_speed_params) = 0.5 /\
  id_center (-0.5) low_speed_params = -0.24 /\
  iq_center (-0.5) low_speed_params = 0.32.
Proof.
  assert (Hw : omega_e (-0.5) low_speed_params = -0.5).
  { unfold omega_e, low_speed_params; fields. lra. }
  assert (Hz : z2 (-0.5) low_speed_params = 0.25).
  { unfold z2. rewrite Hw. unfold low_speed_params; fields. lra. }
  split; [exact Hw | split; [exact Hz | split; [| split]]].
  - rewrite Hz. apply sqrt_lem_1; lra.
  - unfold id_center. rewrite Hw, Hz. unfold low_speed_params; fields. lra.
  - unfold iq_center. rewrite Hw, Hz. unfold low_speed_params; fields. lra.
Qed.

Lemma low_speed_iq_radius v :
  iq_radius v (-0.5) low_speed_params = 2 * v * (1 / sqrt 3).
Proof.
  destruct low_speed_quantities as (_ & _ & Hs & _).
  unfold iq_radius. rewrite Hs.
  unfold vdq_max, low_speed_params; fields. lra.
Qed.

Lemma inv_sqrt3_gt : 0.5734 < 1 / sqrt 3.
Proof.
  pose proof inv_sqrt3_sqr as Hq. destruct inv_sqrt3_bounds as [Hb _].
  set (t := 1 / sqrt 3) in *. clearbody t. nra.
Qed.

Lemma low_speed_cos_idq_raw v :
  cos_idq_raw v (-0.5) low_speed_params = (v * v / 3 - 25.04) / 4.
Proof.
  destruct low_speed_quantities as (Hw & Hz & Hs & _).
  unfold cos_idq_raw. rewrite Hs, Hz, Hw, Rabs_m05.
  assert (Hm : Rmax 0.5 1 = 1) by (apply Rmax_right; lra).
  rewrite Hm.
  assert (Hv : vdq_max v low_speed_params * vdq_max v low_speed_params
               = v * v / 3).
  { unfold vdq_max, low_speed_params; fields.
    transitivity (v * v * (1 / sqrt 3 * (1 / sqrt 3))); [ring |].
    rewrite inv_sqrt3_sqr. lra. }
  rewrite Hv. unfold low_speed_params; fields. lra.
Qed.

(** The reference angle at this speed: cosine 0.6, sine -0.8. *)
Lemma low_speed_theta_ref :
  theta_ref (-0.5) low_speed_params < 0 /\
  cos (theta_ref (-0.5) low_speed_params) = 0.6 /\
  sin (theta_ref (-0.5) low_speed_params) = -0.8.
Proof.
  destruct low_speed_quantities as (Hw & Hz & Hs & _).
  assert (HL : 0 < Lq low_speed_params)
    by (unfold low_speed_params; fields; lra).
  assert (Hom : omega_e (-0.5) low_speed_params <> 0) by (rewrite Hw; lra).
  destruct (trig_theta_ref (-0.5) low_speed_params HL Hom) as [Hc Hsn].
  rewrite Hs, Hw, Rabs_m05 in Hc, Hsn.
  assert (Hr : theta_ref (-0.5) low_speed_params
               = atan (Rs low_speed_params
                       / (omega_e (-0.5) low_speed_params
                          * Lq low_speed_params))).
  { unfold theta_ref, Rgtb. rewrite Rltb_true; [reflexivity |].
    rewrite Hw, Rabs_m05. unfold DBL_EPSILON.
    apply Rmult_lt_reg_r with 4503599627370496; [lra |].
    rewrite Rinv_l; lra. }
  rewrite Hr, Hw. unfold low_speed_params in *; fields.
  cbn [Rs Lq] in Hc, Hsn.
  split; [| split; lra].
  assert (Hneg : 0.4 / (-0.5 * 0.6) < 0) by lra.
  rewrite <- atan_0. now apply atan_increasing.
Qed.

Lemma sin_cos_m_half_PI : sin (-0.5 * PI) = -1 /\ cos (-0.5 * PI) = 0.
Proof.
  replace (-0.5 * PI) with (- (PI / 2)) by lra.
  rewrite sin_neg, cos_neg, sin_PI2, cos_PI2. lra.
Qed.

(** At 9 V the lower bound is the bottom of the voltage band, below the
    current limit of -10 A, and tagged power-limited. *)
Lemma low_speed_lower_at_9 :
  lower_tag (iq_limits 9 (-0.5) low_speed_params) = kSimMotorLimitPower /\
  iq_lower (iq_limits 9 (-0.5) low_speed_params) = 0.32 - 18 * (1 / sqrt 3).
Proof.
  destruct low_speed_quantities as (Hw & Hz & Hs & Ha & Hc).
  destruct low_speed_theta_ref as (Hr0 & Hrc & Hrs).
  destruct inv_sqrt3_bounds as [Ht1 Ht2].
  pose proof PI_RGT_0 as Hpi.
  assert (HX : cos_idq 9 (-0.5) low_speed_params = 0.49).
  { unfold cos_idq. rewrite low_speed_cos_idq_raw.
    replace ((9 * 9 / 3 - 25.04) / 4) with 0.49 by lra.
    unfold Saturate, Rgtb.
    rewrite (Rltb_false 0.49 (-1)), (Rltb_false 1 0.49) by lra.
    reflexivity. }
  pose proof (cos_theta_delta 9 (-0.5) low_speed_params) as Hcd.
  rewrite HX in Hcd.
  pose proof (sin_theta_delta_nonneg 9 (-0.5) low_speed_params) as HS0.
  pose proof (sin2_cos2 (theta_delta 9 (-0.5) low_speed_params)) as Hu.
  unfold Rsqr in Hu. rewrite Hcd in Hu.
  destruct (theta_delta_bound 9 (-0.5) low_speed_params) as [Hd0 Hd1].
  set (delta := theta_delta 9 (-0.5) low_speed_params) in *.
  set (tr := theta_ref (-0.5) low_speed_params) in *.
  assert (HS : 0.8 <= sin delta) by nra.
  assert (Hcos : cos (tr - delta) <= -0.346).
  { rewrite cos_minus, Hrc, Hrs, Hcd. lra. }
  assert (Hth : theta_lower 9 (-0.5) low_speed_params = tr - delta).
  { unfold theta_lower. fold tr delta. apply Rmin_left.
    destruct (Rle_dec (tr - delta) (-0.5 * PI)) as [Hle | Hgt];
      [exact Hle | exfalso].
    assert (0 < cos (tr - delta)) by (apply cos_gt_0; lra).
    lra. }
  unfold iq_limits, apply_phase_current_limit, apply_power_limit.
  rewrite phase_current_limit_lower_tag, phase_current_limit_lower.
  rewrite Hth, Ha.
  rewrite (Rltb_false (-0.24)).
  2:{ unfold low_speed_params; fields. lra. }
  cbn [andb].
  rewrite power_limit_lower_tag, power_limit_lower.
  rewrite Hc, low_speed_iq_radius.
  cbn [hard_limits iq_lower lower_tag]. unfold low_speed_params; fields.
  rewrite Rltb_true by lra.
  split; [reflexivity |].
  rewrite Rmax_right by lra. lra.
Qed.



(** The condition on the hard command band in the second part of the
    amended C3 cannot be dropped: with hard command limits of 10 A and
    20 A, at standstill and 0 V, zero current is within both circles and
    the band returned is empty. *)
Lemma offset_band_not_ordered :
  physically_valid offset_band_params /\
  zero_torque_admissible (clamp_voltage 0) 0 offset_band_params /\
  upper_limit (CalcTorqueLimits 0 0 offset_band_params)
  < lower_limit (CalcTorqueLimits 0 0 offset_band_params).
Proof.
  split; [| split].
  - unfold physically_valid, offset_band_params; fields.
    repeat (split; [lra || reflexivity |]). lra.
  - exists 0. split.
    + rewrite Rabs_R0. unfold offset_band_params; fields. lra.
    + unfold steady_state_voltage_sq.
      rewrite omega_e_0, clamp_voltage_pos, vdq_max_0; lra.
  - pose proof (iq_limits_lower_ge 0 0 offset_band_params) as Hlo.
    pose proof (iq_limits_upper_le 0 0 offset_band_params) as Hhi.
    rewrite iq_center_0, iq_radius_0 in Hlo, Hhi.
    assert (Hlo' : 10 <= iq_lower (iq_limits 0 0 offset_band_params)).
    { eapply Rle_trans; [| exact Hlo].
      unfold offset_band_params; fields. apply Rmax_l. }
    assert (Hhi' : iq_upper (iq_limits 0 0 offset_band_params) <= 0).
    { eapply Rle_trans; [exact Hhi |].
      replace (0 + 0) with 0 by lra. apply Rmin_r. }
    unfold CalcTorqueLimits. rewrite clamp_voltage_pos by lra.
    cbv zeta. cbn [upper_limit lower_limit].
    unfold offset_band_params at 1 2 4 5; fields. lra.
Qed.

(** ** The phase current step at standstill (C2)

    At [rotor_vel = 0] the reference angle is 0 and [id_center] is 0, so
    both candidate angles lie in the left half plane, where the cosine is
    not positive: over the reals neither guard
    [id_center < i_phase_lim * cos (theta)] holds and the step leaves the
    band of the power step unchanged ([standstill_guards_exact],
    [standstill_exact_example]).  This is a property of exact arithmetic
    only.  In binary64, when [theta] is clamped to [-0.5 * M_PI] or
    [0.5 * M_PI], [cos (theta)] evaluates to about 6.1e-17, which is
    positive, so the guard holds and the bound becomes the current limit
    ([standstill_binary64_example]): what the function returns at
    standstill is decided by that rounding.  C2 is therefore stated, in
    the part that follows the binary64 calls, for a library that rounds
    there as the program's does. *)
Lemma standstill_guards_exact voltage p :
  0 < phase_current_cmd_limit p ->
  Rltb (id_center 0 p)
       (phase_current_cmd_limit p * cos (theta_lower voltage 0 p)) = false /\
  Rltb (id_center 0 p)
       (phase_current_cmd_limit p * cos (theta_upper voltage 0 p)) = false.
Proof.
  intros Hi.
  destruct (theta_delta_bound voltage 0 p) as [Hd0 Hd1].
  pose proof PI_RGT_0 as Hpi.
  assert (Hr : theta_ref 0 p = 0).
  { unfold theta_ref, Rgtb. rewrite omega_e_0, Rabs_R0.
    rewrite Rltb_false; [reflexivity |].
    left. exact DBL_EPSILON_pos. }
  rewrite id_center_0.
  split; apply Rltb_false.
  - assert (Hc : cos (theta_lower voltage 0 p) <= 0).
    { unfold theta_lower. rewrite Hr. apply cos_nonpos_lower.
      - apply Rmin_glb; lra.
      - eapply Rle_trans; [apply Rmin_r | lra]. }
    nra.
  - assert (Hc : cos (theta_upper voltage 0 p) <= 0).
    { unfold theta_upper. rewrite Hr. apply cos_nonpos_upper.
      - eapply Rle_trans; [| apply Rmax_r]. lra.
      - apply Rmax_lub; lra. }
    nra.
Qed.

(** Over the reals: 100 V at standstill, a current limit of 100 A inside
    hard limits of -200 A and 200 A.  The voltage band is wider than the
    hard band and no guard holds: the limits are those of the hard band,
    -300 and 300 Nm. *)
Lemma standstill_exact_example :
  CalcTorqueLimits 100 0 wide_band_params
  = {| lower_limit := 1.5 * 10 * 0.1 * -200;
       upper_limit := 1.5 * 10 * 0.1 * 200;
       lower_constraint := kSimMotorLimitPhaseCurrent;
       upper_constraint := kSimMotorLimitPhaseCurrent |}.
Proof.
  assert (Hi : 0 < phase_current_cmd_limit wide_band_params)
    by (unfold wide_band_params; fields; lra).
  destruct (standstill_guards_exact 100 wide_band_params Hi) as [Hg1 Hg2].
  destruct inv_sqrt3_bounds as [Ht _].
  assert (Hr : iq_radius 100 0 wide_band_params = 1000 * (1 / sqrt 3)).
  { unfold iq_radius, z2. rewrite omega_e_0.
    unfold vdq_max, wide_band_params; fields.
    replace (0.1 * 0.1 + 0.001 * 0.001 * 0 * 0) with (0.1 * 0.1) by lra.
    rewrite sqrt_square by lra. lra. }
  assert (Hb : iq_limits 100 0 wide_band_params
               = hard_limits wide_band_params).
  { unfold iq_limits, apply_phase_current_limit, apply_power_limit.
    unfold phase_current_limit. rewrite Hg1, Hg2. cbn [andb].
    unfold power_limit, Rgtb. rewrite iq_center_0, Hr.
    cbn [hard_limits iq_lower iq_upper]. unfold wide_band_params; fields.
    rewrite (Rltb_false (-200)) by lra.
    cbn [hard_limits iq_upper]; fields.
    rewrite (Rltb_false (0 + 1000 * (1 / sqrt 3))) by lra. reflexivity. }
  unfold CalcTorqueLimits. rewrite clamp_voltage_pos by lra.
  cbv zeta. rewrite Hb. reflexivity.
Qed.

(** In binary64, the same call: [cos_idq] saturates at 1, so
    [theta_delta = acos (1)] and the candidate angles are [-0.5 * M_PI]
    and [0.5 * M_PI].  With the values a correctly rounding C library
    returns there, both guards hold and the limits are those of the
    current limit, -150 and 150 Nm. *)
Lemma standstill_binary64_example (acos atan sin cos : float -> float) :
  acos 1%float = 0%float ->
  cos (- Binary64.half_M_PI)%float = Binary64.cos_half_M_PI ->
  sin (- Binary64.half_M_PI)%float = (-1)%float ->
  cos Binary64.half_M_PI = Binary64.cos_half_M_PI ->
  sin Binary64.half_M_PI = 1%float ->
  Binary64.CalcTorqueLimits acos atan sin cos 100 0 Binary64.wide_band_params
  = {| Binary64.lower_limit := -150;
       Binary64.upper_limit := 150;
       Binary64.lower_constraint := kSimMotorLimitPhaseCurrent;
       Binary64.upper_constraint := kSimMotorLimitPhaseCurrent |}.
Proof.
  intros Ha Hc1 Hs1 Hc2 Hs2.
  vm_compute. rewrite Ha. vm_compute.
  change (-0x1.921fb54442d18p+0)%float with (- Binary64.half_M_PI)%float.
  change (0x1.921fb54442d18p+0)%float with Binary64.half_M_PI.
  rewrite Hc1, Hs1, Hc2, Hs2. vm_compute. reflexivity.
Qed.

(** ** Concrete calls in binary64 (C1, C10)

    The calls of C1 and C10 evaluated in binary64 agree with their values
    over the reals: the integer factor gives -2 and -1.1 (the nearest
    [double]), and the controller loss at -0.5 V is positive. *)
Lemma binary64_concrete_calls :
  Binary64.CalcMotorControllerLoss 0 2 Binary64.spec_params = (-2)%float /\
  Binary64.CalcMotorPower 0 1.5 0 Binary64.spec_params
  = (-0x1.199999999999ap+0)%float /\
  PrimFloat.ltb 0
    (Binary64.CalcMotorControllerLoss (-0.5) 1 Binary64.spec_params) = true /\
  Binary64.CalcMotorControllerLoss 0 1 Binary64.spec_params = (-1)%float.
Proof. repeat split; vm_compute; reflexivity. Qed.


(** * The C library as a parameter (C2, C3, C6) *)

Lemma WithLibm_exact_value voltage rotor_vel p :
  WithLibm.CalcTorqueLimits WithLibm.exact voltage rotor_vel p
  = CalcTorqueLimits voltage rotor_vel p.
Proof. reflexivity. Qed.

Lemma WithLibm_exact_iq_limits v w p :
  WithLibm.iq_limits WithLibm.exact v w p = iq_limits v w p.
Proof. reflexivity. Qed.

Lemma exact_is_exact_but_at_quarter_turn :
  WithLibm.exact_but_at_quarter_turn WithLibm.exact.
Proof.
  unfold WithLibm.exact_but_at_quarter_turn, WithLibm.exact. cbn.
  repeat split; try reflexivity.
  - rewrite cos_PI2. lra.
  - rewrite cos_neg, cos_PI2. lra.
Qed.

Lemma rounded_cos_quarter x :
  Rabs x = PI / 2 ->
  WithLibm.cos WithLibm.rounded x
  = 4967757600021511 / 81129638414606681695789005144064.
Proof.
  intros H. cbn. destruct (Req_EM_T (Rabs x) (PI / 2)); [reflexivity | easy].
Qed.

Lemma rounded_is_exact_but_at_quarter_turn :
  WithLibm.exact_but_at_quarter_turn WithLibm.rounded.
Proof.
  pose proof PI_RGT_0 as Hpi.
  assert (He : 0 < 4967757600021511 / 81129638414606681695789005144064)
    by lra.
  unfold WithLibm.exact_but_at_quarter_turn.
  repeat split; try reflexivity.
  - intros x Hx. cbn.
    destruct (Req_EM_T (Rabs x) (PI / 2)); [easy | reflexivity].
  - rewrite rounded_cos_quarter; [lra | apply Rabs_pos_eq; lra].
  - rewrite rounded_cos_quarter; [lra |].
    rewrite Rabs_Ropp. apply Rabs_pos_eq; lra.
Qed.


(** ** The phase current step over any library *)

Section AnyLibrary.

Variable lib : WithLibm.libm.

Lemma WithLibm_phase_current_limit_lower i a tl th b :
  iq_lower (WithLibm.phase_current_limit lib i a tl th b)
  = if Rltb a (i * WithLibm.cos lib tl)
       && Rgtb (i * WithLibm.sin lib tl) (iq_lower b)
    then i * WithLibm.sin lib tl else iq_lower b.
Proof.
  unfold WithLibm.phase_current_limit.
  destruct (Rltb a (i * WithLibm.cos lib tl)
            && Rgtb (i * WithLibm.sin lib tl) (iq_lower b));
    match goal with |- context [if ?c then _ else _] => destruct c end;
    reflexivity.
Qed.

Lemma WithLibm_phase_current_limit_upper i a tl th b :
  iq_upper (WithLibm.phase_current_limit lib i a tl th b)
  = if Rltb a (i * WithLibm.cos lib th)
       && Rltb (i * WithLibm.sin lib th) (iq_upper b)
    then i * WithLibm.sin lib th else iq_upper b.
Proof.
  unfold WithLibm.phase_current_limit.
  destruct (Rltb a (i * WithLibm.cos lib tl)
            && Rgtb (i * WithLibm.sin lib tl) (iq_lower b));
    cbn [iq_upper];
    destruct (Rltb a (i * WithLibm.cos lib th)
              && Rltb (i * WithLibm.sin lib th) (iq_upper b));
    reflexivity.
Qed.



(** Whatever the library returns, the step never lowers the lower bound
    and never raises the upper one. *)
Lemma WithLibm_iq_limits_lower_ge v w p :
  Rmax (iq_cmd_lower_limit p) (iq_center w p - iq_radius v w p)
  <= iq_lower (WithLibm.iq_limits lib v w p).
Proof.
  unfold WithLibm.iq_limits, WithLibm.apply_phase_current_limit,
    apply_power_limit.
  rewrite WithLibm_phase_current_limit_lower, power_limit_lower.
  cbn [hard_limits iq_lower].
  destruct (Rltb _ _); cbn [andb]; [| lra].
  unfold Rgtb.
  match goal with |- context [Rltb ?x ?y] => cmp_cases x y end; lra.
Qed.

Lemma WithLibm_iq_limits_upper_le v w p :
  iq_upper (WithLibm.iq_limits lib v w p)
  <= Rmin (iq_cmd_upper_limit p) (iq_center w p + iq_radius v w p).
Proof.
  unfold WithLibm.iq_limits, WithLibm.apply_phase_current_limit,
    apply_power_limit.
  rewrite WithLibm_phase_current_limit_upper, power_limit_upper.
  cbn [hard_limits iq_upper].
  destruct (Rltb _ _); cbn [andb]; [| lra].
  match goal with |- context [Rltb ?x ?y] => cmp_cases x y end; lra.
Qed.



End AnyLibrary.

(** ** Libraries that are exact away from the quarter turn *)

Section NearlyExact.

Variable lib : WithLibm.libm.
Hypothesis Hlib : WithLibm.exact_but_at_quarter_turn lib.

Lemma nearly_exact_theta v w p :
  WithLibm.theta_lower lib v w p = theta_lower v w p /\
  WithLibm.theta_upper lib v w p = theta_upper v w p.
Proof using Hlib.
  destruct Hlib as (Hpi & Hacos & Hatan & _).
  unfold WithLibm.theta_lower, WithLibm.theta_upper, WithLibm.theta_ref,
    WithLibm.theta_delta.
  rewrite Hpi, Hacos, Hatan. split; reflexivity.
Qed.

(** The guard on [id_center] is the one of the exact library as soon as
    [id_center] is negative, which it is whenever the machine turns. *)
Lemma nearly_exact_guard i a theta :
  0 <= i -> a < 0 ->
  Rltb a (i * WithLibm.cos lib theta) = Rltb a (i * cos theta).
Proof using Hlib.
  intros Hi Ha.
  destruct Hlib as (_ & _ & _ & _ & Hcos & Hq1 & Hq2).
  destruct (Req_dec (Rabs theta) (PI / 2)) as [Hq | Hq];
    [| now rewrite Hcos].
  assert (Hc : cos theta = 0 /\ 0 <= WithLibm.cos lib theta).
  { revert Hq. unfold Rabs. destruct (Rcase_abs theta); intros Hq.
    - replace theta with (- (PI / 2)) by lra.
      rewrite cos_neg, cos_PI2. split; [reflexivity | exact Hq2].
    - rewrite Hq, cos_PI2. split; [reflexivity | exact Hq1]. }
  destruct Hc as [Hc0 Hc1]. rewrite Hc0, Rmult_0_r.
  assert (0 <= i * WithLibm.cos lib theta) by (apply Rmult_le_pos; lra).
  rewrite !Rltb_true by lra. reflexivity.
Qed.

Lemma nearly_exact_iq_limits v w p :
  0 <= phase_current_cmd_limit p -> id_center w p < 0 ->
  WithLibm.iq_limits lib v w p = iq_limits v w p.
Proof using Hlib.
  intros Hi Ha.
  destruct (nearly_exact_theta v w p) as [Hl Hu].
  pose proof Hlib as (_ & _ & _ & Hsin & _).
  unfold WithLibm.iq_limits, iq_limits, WithLibm.apply_phase_current_limit,
    apply_phase_current_limit.
  rewrite Hl, Hu.
  unfold WithLibm.phase_current_limit, phase_current_limit. cbv zeta.
  rewrite !Hsin, !(nearly_exact_guard _ _ _ Hi Ha). reflexivity.
Qed.

End NearlyExact.

(** ** Standstill *)

Section Standstill.

Variable p : MotorParams.
Hypothesis HRs : 0 < Rs p.
Hypothesis Hlam : 0 < flux_linkage p.
Hypothesis Hi : 0 < phase_current_cmd_limit p.

Lemma standstill_sqrt_z2 : sqrt (z2 0 p) = Rs p.
Proof using HRs.
  unfold z2. rewrite omega_e_0.
  replace (Rs p * Rs p + Lq p * Lq p * 0 * 0) with (Rs p * Rs p) by ring.
  apply sqrt_square. lra.
Qed.

Lemma standstill_iq_radius v : iq_radius v 0 p = vdq_max v p / Rs p.
Proof using HRs. unfold iq_radius. now rewrite standstill_sqrt_z2. Qed.

Lemma standstill_cos_idq_raw v :
  cos_idq_raw v 0 p
  = Rs p * (iq_radius v 0 p * iq_radius v 0 p
            - phase_current_cmd_limit p * phase_current_cmd_limit p)
    / (2 * flux_linkage p * phase_current_cmd_limit p).
Proof using HRs Hlam Hi.
  unfold cos_idq_raw. rewrite standstill_iq_radius, standstill_sqrt_z2.
  unfold z2. rewrite omega_e_0, Rabs_R0, (Rmax_right 0 1) by lra.
  field. repeat split; lra.
Qed.

(** The voltage circle reaches the current limit exactly when [cos_idq]
    is not negative. *)
Lemma standstill_cos_idq_reach v :
  phase_current_cmd_limit p <= iq_radius v 0 p -> 0 <= cos_idq v 0 p <= 1.
Proof using HRs Hlam Hi.
  intros Hr. split; [| apply cos_idq_bounds].
  assert (Hraw : 0 <= cos_idq_raw v 0 p).
  { rewrite standstill_cos_idq_raw.
    apply Rmult_le_pos.
    - apply Rmult_le_pos; [lra | nra].
    - left. apply Rinv_0_lt_compat.
      apply Rmult_lt_0_compat; [apply Rmult_lt_0_compat |]; lra. }
  unfold cos_idq, Saturate, Rgtb.
  rewrite Rltb_false by lra.
  cmp_cases 1 (cos_idq_raw v 0 p); lra.
Qed.

Lemma standstill_cos_idq_short v :
  0 <= iq_radius v 0 p -> iq_radius v 0 p < phase_current_cmd_limit p ->
  cos_idq v 0 p < 0.
Proof using HRs Hlam Hi.
  intros Hr0 Hr.
  assert (Hraw : cos_idq_raw v 0 p < 0).
  { rewrite standstill_cos_idq_raw.
    assert (Hinv : 0 < / (2 * flux_linkage p * phase_current_cmd_limit p)).
    { apply Rinv_0_lt_compat.
      apply Rmult_lt_0_compat; [apply Rmult_lt_0_compat |]; lra. }
    assert (Hn : Rs p * (iq_radius v 0 p * iq_radius v 0 p
                         - phase_current_cmd_limit p
                           * phase_current_cmd_limit p) < 0).
    { assert (0 < (phase_current_cmd_limit p - iq_radius v 0 p)
                  * (phase_current_cmd_limit p + iq_radius v 0 p))
        by (apply Rmult_lt_0_compat; lra).
      nra. }
    unfold Rdiv. nra. }
  unfold cos_idq, Saturate, Rgtb.
  cmp_cases (cos_idq_raw v 0 p) (-1); [lra |].
  rewrite Rltb_false by lra. exact Hraw.
Qed.



End Standstill.




Lemma acos_le_PI2 x : 0 <= x -> x <= 1 -> acos x <= PI / 2.
Proof.
  intros H0 H1. pose proof (acos_bound x) as [Ha0 Ha1].
  destruct (Rle_dec (acos x) (PI / 2)) as [H | H]; [exact H | exfalso].
  apply Rnot_le_lt in H.
  assert (Hc : cos (acos x) < 0) by (apply cos_lt_0; lra).
  rewrite cos_acos in Hc by lra. lra.
Qed.

Lemma acos_gt_PI2 x : -1 <= x -> x < 0 -> PI / 2 < acos x.
Proof.
  intros H0 H1. pose proof (acos_bound x) as [Ha0 Ha1].
  destruct (Rlt_dec (PI / 2) (acos x)) as [H | H]; [exact H | exfalso].
  apply Rnot_lt_le in H.
  assert (Hc : 0 <= cos (acos x)) by (apply cos_ge_0; lra).
  rewrite cos_acos in Hc by lra. lra.
Qed.

(** ** Standstill with a library exact away from the quarter turn *)

Section StandstillNearlyExact.

Variables (lib : WithLibm.libm) (p : MotorParams).
Hypothesis Hlib : WithLibm.exact_but_at_quarter_turn lib.
Hypothesis HRs : 0 < Rs p.
Hypothesis Hlam : 0 < flux_linkage p.
Hypothesis Hi : 0 < phase_current_cmd_limit p.

(** The candidates and guards at standstill: a voltage circle short of
    the current limit leaves the guards false; one that reaches it clamps
    the angles to the quarter turn. *)
Lemma standstill_short_guards v :
  0 <= iq_radius v 0 p -> iq_radius v 0 p < phase_current_cmd_limit p ->
  Rltb (id_center 0 p)
       (phase_current_cmd_limit p
        * WithLibm.cos lib (WithLibm.theta_lower lib v 0 p)) = false /\
  Rltb (id_center 0 p)
       (phase_current_cmd_limit p
        * WithLibm.cos lib (WithLibm.theta_upper lib v 0 p)) = false.
Proof using Hlib HRs Hlam Hi.
  intros Hr0 Hr.
  pose proof (standstill_cos_idq_short p HRs Hlam Hi v Hr0 Hr) as HX.
  pose proof (cos_idq_bounds v 0 p) as [HX1 _].
  pose proof (acos_gt_PI2 _ HX1 HX) as Hd.
  pose proof (acos_bound (cos_idq v 0 p)) as [_ Hd1].
  pose proof PI_RGT_0 as Hpi.
  destruct (nearly_exact_theta lib Hlib v 0 p) as [Hl Hu].
  destruct Hlib as (_ & _ & _ & _ & Hcos & _).
  assert (Hr' : theta_ref 0 p = 0).
  { unfold theta_ref, Rgtb. rewrite omega_e_0, Rabs_R0.
    rewrite Rltb_false; [reflexivity |]. left. exact DBL_EPSILON_pos. }
  rewrite Hl, Hu, id_center_0.
  unfold theta_lower, theta_upper, theta_delta. rewrite Hr'.
  rewrite Rmin_left, Rmax_left by lra.
  rewrite !Hcos.
  - replace (0 - acos (cos_idq v 0 p)) with (- acos (cos_idq v 0 p))
      by ring.
    rewrite Rplus_0_l, cos_neg, cos_acos by (apply cos_idq_bounds).
    split; apply Rltb_false; nra.
  - rewrite Rplus_0_l, Rabs_pos_eq; lra.
  - replace (0 - acos (cos_idq v 0 p)) with (- acos (cos_idq v 0 p))
      by ring.
    rewrite Rabs_Ropp, Rabs_pos_eq; lra.
Qed.

Lemma standstill_reach_angles v :
  phase_current_cmd_limit p <= iq_radius v 0 p ->
  WithLibm.theta_lower lib v 0 p = - (PI / 2) /\
  WithLibm.theta_upper lib v 0 p = PI / 2.
Proof using Hlib HRs Hlam Hi.
  intros Hr.
  pose proof (standstill_cos_idq_reach p HRs Hlam Hi v Hr) as [HX0 HX1].
  pose proof (acos_le_PI2 _ HX0 HX1) as Hd.
  pose proof (acos_bound (cos_idq v 0 p)) as [Hd0 _].
  destruct (nearly_exact_theta lib Hlib v 0 p) as [-> ->].
  assert (Hr' : theta_ref 0 p = 0).
  { unfold theta_ref, Rgtb. rewrite omega_e_0, Rabs_R0.
    rewrite Rltb_false; [reflexivity |]. left. exact DBL_EPSILON_pos. }
  unfold theta_lower, theta_upper, theta_delta. rewrite Hr'.
  rewrite Rmin_right, Rmax_right by lra. split; lra.
Qed.

(** The lower bound at standstill is the one of the power step or the
    current limit, the upper bound likewise. *)
Lemma standstill_lower_cases v :
  0 <= iq_radius v 0 p ->
  let L1 := Rmax (iq_cmd_lower_limit p) (iq_center 0 p - iq_radius v 0 p) in
  iq_lower (WithLibm.iq_limits lib v 0 p) = L1 \/
  (iq_lower (WithLibm.iq_limits lib v 0 p) = - phase_current_cmd_limit p /\
   phase_current_cmd_limit p <= iq_radius v 0 p /\
   0 < WithLibm.cos lib (- (PI / 2))).
Proof using Hlib HRs Hlam Hi.
  intros Hr0 L1.
  unfold WithLibm.iq_limits, WithLibm.apply_phase_current_limit,
    apply_power_limit.
  rewrite WithLibm_phase_current_limit_lower, power_limit_lower.
  cbn [hard_limits iq_lower]. fold L1.
  destruct (Rle_dec (phase_current_cmd_limit p) (iq_radius v 0 p))
    as [Hreach | Hshort].
  - destruct (standstill_reach_angles v Hreach) as [-> _].
    pose proof Hlib as (_ & _ & _ & Hsin & _).
    rewrite Hsin, sin_neg, sin_PI2, id_center_0.
    cmp_cases 0 (phase_current_cmd_limit p
                 * WithLibm.cos lib (- (PI / 2))); cbn [andb];
      [| now left].
    destruct (Rgtb _ _); [right | now left].
    split; [ring | split; [exact Hreach | nra]].
  - apply Rnot_le_lt in Hshort.
    destruct (standstill_short_guards v Hr0 Hshort) as [-> _].
    now left.
Qed.

Lemma standstill_upper_cases v :
  0 <= iq_radius v 0 p ->
  let U1 := Rmin (iq_cmd_upper_limit p) (iq_center 0 p + iq_radius v 0 p) in
  iq_upper (WithLibm.iq_limits lib v 0 p) = U1 \/
  (iq_upper (WithLibm.iq_limits lib v 0 p) = phase_current_cmd_limit p /\
   phase_current_cmd_limit p <= iq_radius v 0 p /\
   0 < WithLibm.cos lib (PI / 2)).
Proof using Hlib HRs Hlam Hi.
  intros Hr0 U1.
  unfold WithLibm.iq_limits, WithLibm.apply_phase_current_limit,
    apply_power_limit.
  rewrite WithLibm_phase_current_limit_upper, power_limit_upper.
  cbn [hard_limits iq_upper]. fold U1.
  destruct (Rle_dec (phase_current_cmd_limit p) (iq_radius v 0 p))
    as [Hreach | Hshort].
  - destruct (standstill_reach_angles v Hreach) as [_ ->].
    pose proof Hlib as (_ & _ & _ & Hsin & _).
    rewrite Hsin, sin_PI2, id_center_0.
    cmp_cases 0 (phase_current_cmd_limit p * WithLibm.cos lib (PI / 2));
      cbn [andb]; [| now left].
    destruct (Rltb _ _); [right | now left].
    split; [ring | split; [exact Hreach | nra]].
  - apply Rnot_le_lt in Hshort.
    destruct (standstill_short_guards v Hr0 Hshort) as [_ ->].
    now left.
Qed.



End StandstillNearlyExact.

Lemma omega_e_zero_rotor_vel w p :
  (0 < num_pole_pairs p)%Z -> omega_e w p = 0 -> w = 0.
Proof.
  intros Hn H0. apply IZR_lt in Hn. unfold omega_e in H0.
  apply Rmult_integral in H0. destruct H0; lra.
Qed.

Lemma id_center_neg_turning w p :
  0 < Rs p -> 0 < Lq p -> 0 < flux_linkage p -> omega_e w p <> 0 ->
  id_center w p < 0.
Proof.
  intros HRs HL Hlam Hw.
  pose proof (z2_pos w p HRs) as Hz.
  unfold id_center.
  assert (0 < omega_e w p * omega_e w p * Lq p * flux_linkage p).
  { assert (0 < omega_e w p * omega_e w p)
      by (destruct (Rlt_dec (omega_e w p) 0); nra).
    apply Rmult_lt_0_compat; [apply Rmult_lt_0_compat |]; lra. }
  assert (H0 : - omega_e w p * omega_e w p * Lq p * flux_linkage p < 0)
    by lra.
  unfold Rdiv. pose proof (Rinv_0_lt_compat _ Hz). nra.
Qed.



(** ** Feasible points and the phase current step *)

(** A point [(px, py)] of the current circle, on or outside the voltage
    circle (centre [(a, c)], squared radius [rr]), to the right of the
    centre and not to the right of the origin, on the side of the line
    through origin and centre that [0 <= a * py - c * px] names: no point
    of both discs lies below it. *)
Lemma crossing_is_lowest a c i rr px py x y :
  px * px + py * py = i * i ->
  rr <= (px - a) * (px - a) + (py - c) * (py - c) ->
  x * x + y * y <= i * i ->
  (x - a) * (x - a) + (y - c) * (y - c) <= rr ->
  a < px -> px <= 0 ->
  0 <= a * py - c * px ->
  py <= y.
Proof.
  intros HP Hout HI HV Ha Hp HD.
  assert (Hid : 2 * (a * py - c * px) * (y - py)
                = (px - a) * (px * px + py * py - x * x - y * y)
                  + - px * ((px - a) * (px - a) + (py - c) * (py - c)
                            - (x - a) * (x - a) - (y - c) * (y - c))
                  + - a * ((x - px) * (x - px) + (y - py) * (y - py)))
    by ring.
  assert (T1 : 0 <= (px - a) * (px * px + py * py - x * x - y * y))
    by (apply Rmult_le_pos; lra).
  assert (T2 : 0 <= - px * ((px - a) * (px - a) + (py - c) * (py - c)
                            - (x - a) * (x - a) - (y - c) * (y - c)))
    by (apply Rmult_le_pos; lra).
  assert (Hsq : 0 <= (x - px) * (x - px) /\ 0 <= (y - py) * (y - py))
    by (split; apply Rle_0_sqr).
  assert (T3 : 0 <= - a * ((x - px) * (x - px) + (y - py) * (y - py)))
    by (apply Rmult_le_pos; lra).
  destruct HD as [HD | HD].
  - assert (0 <= (a * py - c * px) * (y - py)) by lra.
    destruct (Rle_dec py y) as [H1 | H1]; [exact H1 | exfalso].
    apply Rnot_le_lt in H1.
    assert (0 < (a * py - c * px) * (py - y))
      by (apply Rmult_lt_0_compat; lra).
    lra.
  - rewrite <- HD in Hid.
    assert (H0 : - a * ((x - px) * (x - px) + (y - py) * (y - py)) = 0)
      by lra.
    apply Rmult_integral in H0. destruct H0 as [H0 | H0]; [lra |].
    assert (Hy : (y - py) * (y - py) = 0) by lra.
    apply Rmult_integral in Hy. destruct Hy; lra.
Qed.

Lemma cos_nonpos_three_quarters x :
  - (3 * (PI / 2)) <= x -> x <= - (PI / 2) -> cos x <= 0.
Proof.
  intros H1 H2. rewrite <- (Ropp_involutive x), cos_neg.
  apply cos_le_0; lra.
Qed.

Section Turning.

Variables (w : R) (p : MotorParams).
Hypothesis HRs : 0 < Rs p.
Hypothesis HL : 0 < Lq p.
Hypothesis Hlam : 0 < flux_linkage p.
Hypothesis Hi : 0 < phase_current_cmd_limit p.
(** The reference angle is the arctangent of line 79. *)
Hypothesis Heps : DBL_EPSILON < Rabs (omega_e w p).

Lemma turning_omega_e : omega_e w p <> 0.
Proof using Heps.
  intros H. rewrite H, Rabs_R0 in Heps. pose proof DBL_EPSILON_pos. lra.
Qed.

Lemma turning_theta_ref :
  theta_ref w p = atan (Rs p / (omega_e w p * Lq p)).
Proof using Heps.
  unfold theta_ref, Rgtb. now rewrite Rltb_true.
Qed.

Lemma turning_distance_pos :
  0 < Rabs (omega_e w p) * flux_linkage p / sqrt (z2 w p).
Proof using HRs Hlam Heps.
  pose proof (sqrt_z2_pos w p HRs). pose proof DBL_EPSILON_pos.
  apply Rdiv_lt_0_compat; [apply Rmult_lt_0_compat |]; lra.
Qed.

Lemma turning_centre_polar :
  id_center w p
  = - (Rabs (omega_e w p) * flux_linkage p / sqrt (z2 w p))
    * cos (theta_ref w p) /\
  iq_center w p
  = - (Rabs (omega_e w p) * flux_linkage p / sqrt (z2 w p))
    * sin (theta_ref w p).
Proof using HRs HL Heps.
  pose proof turning_omega_e as Hne.
  destruct (trig_theta_ref w p HL Hne) as [Hc Hs].
  rewrite <- turning_theta_ref in Hc, Hs.
  pose proof (sqrt_z2_pos w p HRs) as Hsp.
  pose proof (sqrt_z2_sqr w p HRs) as Hss.
  pose proof (Rabs_sqr_eq (omega_e w p)) as Hsq.
  set (s := sqrt (z2 w p)) in *.
  split.
  - unfold id_center. rewrite <- Hss.
    apply Rmult_eq_reg_r with (s * s); [| nra].
    transitivity (- (omega_e w p * omega_e w p) * Lq p * flux_linkage p);
      [field; lra |].
    rewrite <- Hsq.
    transitivity (- (Rabs (omega_e w p) * flux_linkage p)
                  * (cos (theta_ref w p) * s)); [rewrite Hc; ring |].
    field. lra.
  - unfold iq_center. rewrite <- Hss.
    apply Rmult_eq_reg_r with (s * s * omega_e w p);
      [| apply Rmult_integral_contrapositive; split; [nra | exact Hne]].
    transitivity (- Rs p * flux_linkage p * (omega_e w p * omega_e w p));
      [field; lra |].
    rewrite <- Hsq.
    transitivity (- (Rabs (omega_e w p) * flux_linkage p)
                  * (sin (theta_ref w p) * s * omega_e w p));
      [rewrite Hs; ring |].
    field. lra.
Qed.

(** Where [fmax (fabs (omega_e), 1.0)] has no effect, or [cos_idq] is
    not positive, the point of the current circle at the angle
    [theta_delta] from the reference is on or outside the voltage
    circle. *)
Lemma turning_crossing_outside v :
  (1 <= Rabs (omega_e w p) /\ cos_idq v w p < 1) \/ cos_idq v w p <= 0 ->
  iq_radius v w p * iq_radius v w p
  <= phase_current_cmd_limit p * phase_current_cmd_limit p
     + Rabs (omega_e w p) * flux_linkage p / sqrt (z2 w p)
       * (Rabs (omega_e w p) * flux_linkage p / sqrt (z2 w p))
     + 2 * phase_current_cmd_limit p
       * (Rabs (omega_e w p) * flux_linkage p / sqrt (z2 w p))
       * cos_idq v w p.
Proof using HRs Hlam Hi.
  intros [[Hom HX] | HX].
  { now apply crossing_outside_voltage_circle. }
  pose proof (sqrt_z2_pos w p HRs) as Hsp.
  pose proof (sqrt_z2_sqr w p HRs) as Hss.
  pose proof (Rabs_sqr_eq (omega_e w p)) as Hsq.
  assert (HK : vdq_max v p * vdq_max v p
               <= z2 w p * phase_current_cmd_limit p
                  * phase_current_cmd_limit p
                  + flux_linkage p * flux_linkage p
                    * omega_e w p * omega_e w p
                  + 2 * cos_idq v w p
                    * (Rabs (omega_e w p) * flux_linkage p)
                    * phase_current_cmd_limit p * sqrt (z2 w p)).
  { destruct HX as [HX | HX].
    - now apply cos_idq_neg_bound.
    - rewrite HX.
      assert (Hraw : cos_idq_raw v w p = 0).
      { revert HX. unfold cos_idq, Saturate, Rgtb.
        cmp_cases (cos_idq_raw v w p) (-1); [lra |].
        cmp_cases 1 (cos_idq_raw v w p); lra. }
      unfold cos_idq_raw in Hraw.
      assert (Hm : 1 <= Rmax (Rabs (omega_e w p)) 1) by apply Rmax_r.
      assert (HD : 0 < 2 * Rmax (Rabs (omega_e w p)) 1 * flux_linkage p
                       * phase_current_cmd_limit p * sqrt (z2 w p)).
      { repeat apply Rmult_lt_0_compat; lra. }
      apply Rmult_eq_compat_r
        with (r := 2 * Rmax (Rabs (omega_e w p)) 1 * flux_linkage p
                   * phase_current_cmd_limit p * sqrt (z2 w p)) in Hraw.
      rewrite Rmult_0_l in Hraw. unfold Rdiv in Hraw.
      rewrite Rmult_assoc, Rinv_l, Rmult_1_r in Hraw by lra.
      lra. }
  unfold iq_radius. rewrite <- Hss in HK at 1.
  set (X := cos_idq v w p) in *. set (s := sqrt (z2 w p)) in *.
  set (i := phase_current_cmd_limit p) in *.
  set (lam := flux_linkage p) in *. set (V := vdq_max v p) in *.
  set (m := Rabs (omega_e w p)) in *.
  replace (lam * lam * omega_e w p * omega_e w p)
    with (lam * lam * (omega_e w p * omega_e w p)) in HK by ring.
  rewrite <- Hsq in HK. fold m in HK.
  apply Rmult_le_reg_r with (s * s); [nra |].
  replace (V / s * (V / s) * (s * s)) with (V * V) by (field; lra).
  replace ((i * i + m * lam / s * (m * lam / s) + 2 * i * (m * lam / s) * X)
           * (s * s))
    with (s * s * i * i + lam * lam * (m * m) + 2 * X * (m * lam) * i * s)
    by (field; lra).
  exact HK.
Qed.

(** A point within the voltage limit is within the voltage circle. *)
Lemma within_voltage_circle v x y :
  0 <= vdq_max v p ->
  steady_state_voltage_sq x y w p <= vdq_max v p * vdq_max v p ->
  (x - id_center w p) * (x - id_center w p)
  + (y - iq_center w p) * (y - iq_center w p)
  <= iq_radius v w p * iq_radius v w p.
Proof using HRs.
  intros HV Hle.
  destruct (voltage_circle x y v w p HRs) as [H1 H2].
  pose proof (z2_pos w p HRs) as Hz.
  rewrite H1, <- H2 in Hle.
  apply Rmult_le_reg_l with (z2 w p); [exact Hz | exact Hle].
Qed.

Section FeasiblePoint.

Variables (v x y : R).
Hypothesis HV : 0 <= vdq_max v p.
Hypothesis Hcur :
  x * x + y * y <= phase_current_cmd_limit p * phase_current_cmd_limit p.
Hypothesis Hvolt :
  steady_state_voltage_sq x y w p <= vdq_max v p * vdq_max v p.
Hypothesis Hout :
  (1 <= Rabs (omega_e w p) /\ cos_idq v w p < 1) \/ cos_idq v w p <= 0
  \/ cos_idq v w p = 1.

Lemma feasible_iq_within_current : - phase_current_cmd_limit p <= y
                                   <= phase_current_cmd_limit p.
Proof using Hi Hcur.
  assert (0 <= x * x) by apply Rle_0_sqr. split; nra.
Qed.

(** Under its guard the lower candidate is not above a feasible point. *)
Lemma lower_candidate_le_feasible :
  id_center w p < phase_current_cmd_limit p * cos (theta_lower v w p) ->
  phase_current_cmd_limit p * sin (theta_lower v w p) <= y.
Proof using HRs HL Hlam Hi Heps HV Hcur Hvolt Hout.
  intros Hg.
  pose proof PI_RGT_0 as Hpi.
  pose proof (theta_ref_bound w p) as Htr.
  pose proof (theta_delta_bound v w p) as Hd.
  pose proof feasible_iq_within_current as Hy.
  unfold theta_lower, Rmin in *.
  destruct (Rle_dec (theta_ref w p - theta_delta v w p) (-0.5 * PI))
    as [Hle | Hgt].
  2:{ replace (-0.5 * PI) with (- (PI / 2)) by lra.
      rewrite sin_neg, sin_PI2. lra. }
  assert (HX : cos_idq v w p < 1).
  { rewrite <- cos_theta_delta. apply cos_lt_1_pos; lra. }
  assert (Hout' : (1 <= Rabs (omega_e w p) /\ cos_idq v w p < 1)
                  \/ cos_idq v w p <= 0).
  { destruct Hout as [H | [H | H]]; [now left | now right | lra]. }
  pose proof (turning_crossing_outside v Hout') as Hrr.
  destruct turning_centre_polar as [Hac Hcc].
  pose proof turning_distance_pos as Hd0.
  pose proof (within_voltage_circle v x y HV Hvolt) as Hin.
  set (d := Rabs (omega_e w p) * flux_linkage p / sqrt (z2 w p)) in *.
  set (i := phase_current_cmd_limit p) in *.
  set (tr := theta_ref w p) in *. set (dl := theta_delta v w p) in *.
  rewrite <- cos_theta_delta in Hrr. fold dl in Hrr.
  assert (Hsd : 0 <= sin dl) by (apply sin_ge_0; lra).
  pose proof (sin2_cos2 tr) as Htr1. unfold Rsqr in Htr1.
  pose proof (sin2_cos2 dl) as Hdl1. unfold Rsqr in Hdl1.
  apply (crossing_is_lowest (id_center w p) (iq_center w p) i
           (iq_radius v w p * iq_radius v w p)
           (i * cos (tr - dl)) (i * sin (tr - dl)) x y).
  - pose proof (sin2_cos2 (tr - dl)) as H. unfold Rsqr in H.
    transitivity (i * i * (sin (tr - dl) * sin (tr - dl)
                           + cos (tr - dl) * cos (tr - dl))); [ring |].
    rewrite H. ring.
  - eapply Rle_trans; [exact Hrr |]. right.
    rewrite Hac, Hcc, cos_minus, sin_minus.
    transitivity
      (i * i * ((cos tr * cos tr + sin tr * sin tr)
                * (cos dl * cos dl + sin dl * sin dl))
       + d * d * (sin tr * sin tr + cos tr * cos tr)
       + 2 * i * d * cos dl * (sin tr * sin tr + cos tr * cos tr));
      [| ring].
    rewrite Htr1.
    replace (cos tr * cos tr + sin tr * sin tr) with 1 by lra.
    replace (cos dl * cos dl + sin dl * sin dl) with 1 by lra.
    ring.
  - exact Hcur.
  - exact Hin.
  - exact Hg.
  - assert (cos (tr - dl) <= 0)
      by (apply cos_nonpos_three_quarters; lra).
    nra.
  - rewrite Hac, Hcc, cos_minus, sin_minus.
    replace (- d * cos tr * (i * (sin tr * cos dl - cos tr * sin dl))
             - - d * sin tr * (i * (cos tr * cos dl + sin tr * sin dl)))
      with (d * i * sin dl * (sin tr * sin tr + cos tr * cos tr)) by ring.
    rewrite Htr1, Rmult_1_r.
    apply Rmult_le_pos; [apply Rmult_le_pos |]; lra.
Qed.

(** Under its guard the upper candidate is not below a feasible point. *)
Lemma upper_candidate_ge_feasible :
  id_center w p < phase_current_cmd_limit p * cos (theta_upper v w p) ->
  y <= phase_current_cmd_limit p * sin (theta_upper v w p).
Proof using HRs HL Hlam Hi Heps HV Hcur Hvolt Hout.
  intros Hg.
  pose proof PI_RGT_0 as Hpi.
  pose proof (theta_ref_bound w p) as Htr.
  pose proof (theta_delta_bound v w p) as Hd.
  pose proof feasible_iq_within_current as Hy.
  unfold theta_upper, Rmax in *.
  destruct (Rle_dec (theta_ref w p + theta_delta v w p) (0.5 * PI))
    as [Hle | Hgt].
  { replace (0.5 * PI) with (PI / 2) by lra. rewrite sin_PI2. lra. }
  apply Rnot_le_lt in Hgt.
  assert (HX : cos_idq v w p < 1).
  { rewrite <- cos_theta_delta. apply cos_lt_1_pos; lra. }
  assert (Hout' : (1 <= Rabs (omega_e w p) /\ cos_idq v w p < 1)
                  \/ cos_idq v w p <= 0).
  { destruct Hout as [H | [H | H]]; [now left | now right | lra]. }
  pose proof (turning_crossing_outside v Hout') as Hrr.
  destruct turning_centre_polar as [Hac Hcc].
  pose proof turning_distance_pos as Hd0.
  pose proof (within_voltage_circle v x y HV Hvolt) as Hin.
  set (d := Rabs (omega_e w p) * flux_linkage p / sqrt (z2 w p)) in *.
  set (i := phase_current_cmd_limit p) in *.
  set (tr := theta_ref w p) in *. set (dl := theta_delta v w p) in *.
  rewrite <- cos_theta_delta in Hrr. fold dl in Hrr.
  assert (Hsd : 0 <= sin dl) by (apply sin_ge_0; lra).
  pose proof (sin2_cos2 tr) as Htr1. unfold Rsqr in Htr1.
  pose proof (sin2_cos2 dl) as Hdl1. unfold Rsqr in Hdl1.
  apply Ropp_le_cancel.
  apply (crossing_is_lowest (id_center w p) (- iq_center w p) i
           (iq_radius v w p * iq_radius v w p)
           (i * cos (tr + dl)) (- (i * sin (tr + dl))) x (- y)).
  - pose proof (sin2_cos2 (tr + dl)) as H. unfold Rsqr in H.
    transitivity (i * i * (sin (tr + dl) * sin (tr + dl)
                           + cos (tr + dl) * cos (tr + dl))); [ring |].
    rewrite H. ring.
  - eapply Rle_trans; [exact Hrr |]. right.
    rewrite Hac, Hcc, cos_plus, sin_plus.
    transitivity
      (i * i * ((cos tr * cos tr + sin tr * sin tr)
                * (cos dl * cos dl + sin dl * sin dl))
       + d * d * (sin tr * sin tr + cos tr * cos tr)
       + 2 * i * d * cos dl * (sin tr * sin tr + cos tr * cos tr));
      [| ring].
    rewrite Htr1.
    replace (cos tr * cos tr + sin tr * sin tr) with 1 by lra.
    replace (cos dl * cos dl + sin dl * sin dl) with 1 by lra.
    ring.
  - replace (- y * - y) with (y * y) by ring. exact Hcur.
  - replace ((- y - - iq_center w p) * (- y - - iq_center w p))
      with ((y - iq_center w p) * (y - iq_center w p)) by ring.
    exact Hin.
  - exact Hg.
  - assert (cos (tr + dl) <= 0).
    { apply cos_le_0; lra. }
    nra.
  - rewrite Hac, Hcc, cos_plus, sin_plus.
    replace (- d * cos tr * - (i * (sin tr * cos dl + cos tr * sin dl))
             - - (- d * sin tr) * (i * (cos tr * cos dl - sin tr * sin dl)))
      with (d * i * sin dl * (sin tr * sin tr + cos tr * cos tr)) by ring.
    rewrite Htr1, Rmult_1_r.
    apply Rmult_le_pos; [apply Rmult_le_pos |]; lra.
Qed.

(** The band in quadrature current contains the feasible point. *)
Lemma feasible_within_iq_limits :
  iq_cmd_lower_limit p <= y <= iq_cmd_upper_limit p ->
  iq_lower (iq_limits v w p) <= y <= iq_upper (iq_limits v w p).
Proof using HRs HL Hlam Hi Heps HV Hcur Hvolt Hout.
  intros [Hlo Hhi].
  pose proof (within_voltage_circle v x y HV Hvolt) as Hin.
  assert (Hr0 : 0 <= iq_radius v w p).
  { unfold iq_radius. pose proof (sqrt_z2_pos w p HRs).
    apply Rmult_le_pos; [exact HV |]. left. now apply Rinv_0_lt_compat. }
  assert (Hyc : iq_center w p - iq_radius v w p <= y
                <= iq_center w p + iq_radius v w p).
  { assert (0 <= (x - id_center w p) * (x - id_center w p))
      by apply Rle_0_sqr.
    split; nra. }
  unfold iq_limits, apply_phase_current_limit, apply_power_limit.
  rewrite phase_current_limit_lower, phase_current_limit_upper,
    power_limit_lower, power_limit_upper.
  cbn [hard_limits iq_lower iq_upper].
  split.
  - cmp_cases (id_center w p)
              (phase_current_cmd_limit p * cos (theta_lower v w p));
      cbn [andb].
    + destruct (Rgtb _ _);
        [now apply lower_candidate_le_feasible | apply Rmax_lub; lra].
    + apply Rmax_lub; lra.
  - cmp_cases (id_center w p)
              (phase_current_cmd_limit p * cos (theta_upper v w p));
      cbn [andb].
    + destruct (Rltb _ _);
        [now apply upper_candidate_ge_feasible | apply Rmin_glb; lra].
    + apply Rmin_glb; lra.
Qed.

End FeasiblePoint.

End Turning.

(** ** Feasible points at standstill *)

Lemma standstill_feasible_within lib p v x y :
  WithLibm.exact_but_at_quarter_turn lib ->
  0 < Rs p -> 0 < flux_linkage p -> 0 < phase_current_cmd_limit p ->
  0 <= vdq_max v p ->
  feasible x y v 0 p ->
  iq_lower (WithLibm.iq_limits lib v 0 p) <= y
  <= iq_upper (WithLibm.iq_limits lib v 0 p).
Proof.
  intros Hlib HRs Hlam Hi HV (Hcur & Hvolt & Hlo & Hhi).
  pose proof (within_voltage_circle 0 p HRs v x y HV Hvolt) as Hin.
  assert (Hr0 : 0 <= iq_radius v 0 p).
  { unfold iq_radius. pose proof (sqrt_z2_pos 0 p HRs).
    apply Rmult_le_pos; [exact HV |]. left. now apply Rinv_0_lt_compat. }
  assert (Hyc : iq_center 0 p - iq_radius v 0 p <= y
                <= iq_center 0 p + iq_radius v 0 p).
  { assert (0 <= (x - id_center 0 p) * (x - id_center 0 p))
      by apply Rle_0_sqr.
    split; nra. }
  assert (Hyi : - phase_current_cmd_limit p <= y
                <= phase_current_cmd_limit p).
  { assert (0 <= x * x) by apply Rle_0_sqr. split; nra. }
  split.
  - destruct (standstill_lower_cases lib p Hlib HRs Hlam Hi v Hr0)
      as [-> | (-> & _)]; [apply Rmax_lub |]; lra.
  - destruct (standstill_upper_cases lib p Hlib HRs Hlam Hi v Hr0)
      as [-> | (-> & _)]; [apply Rmin_glb |]; lra.
Qed.

(** ** Ordering *)

(** With a positive [cos_idq] the voltage limit exceeds the back-EMF, so
    zero current is within the voltage limit. *)
Lemma cos_idq_pos_zero_current v w p :
  0 < Rs p -> 0 < flux_linkage p -> 0 < phase_current_cmd_limit p ->
  0 < cos_idq v w p ->
  steady_state_voltage_sq 0 0 w p <= vdq_max v p * vdq_max v p.
Proof.
  intros HRs Hlam Hi HX.
  pose proof (sqrt_z2_pos w p HRs) as Hs.
  pose proof (z2_pos w p HRs) as Hz.
  assert (Hraw : 0 < cos_idq_raw v w p).
  { revert HX. unfold cos_idq, Saturate, Rgtb.
    cmp_cases (cos_idq_raw v w p) (-1); [lra |].
    cmp_cases 1 (cos_idq_raw v w p); lra. }
  unfold cos_idq_raw in Hraw.
  assert (Hm : 1 <= Rmax (Rabs (omega_e w p)) 1) by apply Rmax_r.
  assert (HD : 0 < 2 * Rmax (Rabs (omega_e w p)) 1 * flux_linkage p
                   * phase_current_cmd_limit p * sqrt (z2 w p)).
  { repeat apply Rmult_lt_0_compat; lra. }
  apply Rmult_lt_compat_r
    with (r := 2 * Rmax (Rabs (omega_e w p)) 1 * flux_linkage p
               * phase_current_cmd_limit p * sqrt (z2 w p)) in Hraw;
    [| exact HD].
  rewrite Rmult_0_l in Hraw. unfold Rdiv in Hraw.
  rewrite Rmult_assoc, Rinv_l, Rmult_1_r in Hraw by lra.
  assert (0 <= z2 w p * phase_current_cmd_limit p
               * phase_current_cmd_limit p).
  { apply Rmult_le_pos; [apply Rmult_le_pos |]; lra. }
  unfold steady_state_voltage_sq.
  replace ((Rs p * 0 - omega_e w p * Lq p * 0)
           * (Rs p * 0 - omega_e w p * Lq p * 0)
           + (Rs p * 0 + omega_e w p * (Lq p * 0 + flux_linkage p))
             * (Rs p * 0 + omega_e w p * (Lq p * 0 + flux_linkage p)))
    with (flux_linkage p * flux_linkage p * omega_e w p * omega_e w p)
    by ring.
  lra.
Qed.

(** The band of a turning machine, in the cases the theorem below
    names. *)
Lemma turning_limits_ordered v w p :
  physically_valid p ->
  0 <= v ->
  DBL_EPSILON < Rabs (omega_e w p) ->
  (exists id iq, feasible id iq v w p) ->
  1 <= Rabs (omega_e w p)
  \/ iq_cmd_lower_limit p <= 0 <= iq_cmd_upper_limit p
  \/ cos_idq v w p <= 0 \/ cos_idq v w p = 1 ->
  iq_lower (iq_limits v w p) <= iq_upper (iq_limits v w p).
Proof.
  intros (_ & Hi & Hlam & HRs & HL & Hn & Hm) Hv Heps
         (x & y & Hcur & Hvolt & Hband) Hcase.
  pose proof (vdq_max_nonneg v p Hm Hv) as HV.
  pose proof (cos_idq_bounds v w p) as [_ HX1].
  assert (Hsound :
    (1 <= Rabs (omega_e w p) /\ cos_idq v w p < 1)
    \/ cos_idq v w p <= 0 \/ cos_idq v w p = 1 ->
    iq_lower (iq_limits v w p) <= iq_upper (iq_limits v w p)).
  { intros Hout.
    destruct (feasible_within_iq_limits w p HRs HL Hlam Hi Heps
                v x y HV Hcur Hvolt Hout Hband). lra. }
  destruct Hcase as [Hfast | [Hzero | Hcos]].
  - apply Hsound.
    destruct (Rlt_dec (cos_idq v w p) 1); [left; now split |].
    right; right. lra.
  - destruct (Rle_dec (cos_idq v w p) 0) as [Hneg | Hpos].
    + apply Hsound. right; now left.
    + apply Rnot_le_lt in Hpos.
      pose proof (cos_idq_pos_zero_current v w p HRs Hlam Hi Hpos) as Hzt.
      assert (Hid : Rabs 0 <= phase_current_cmd_limit p)
        by (rewrite Rabs_R0; lra).
      pose proof (iq_limits_lower_nonpos v w p 0 HRs HL Hlam Hi HV Hid Hzt
                    (proj1 Hzero)).
      pose proof (iq_limits_upper_nonneg v w p 0 HRs HL Hlam Hi HV Hid Hzt
                    (proj2 Hzero)).
      lra.
  - apply Hsound. now right.
Qed.

(** C3, as amended.  For a physically valid, non-salient parameter set,
    a library that is exact away from the quarter turn, any voltage
    (clamped at 0) and any rotor speed:
    - if some operating point is feasible, the limits are ordered at
      standstill, wherever [fabs (omega_e) >= 1], and for
      [fabs (omega_e) > DBL_EPSILON] when the hard command band contains
      zero or [cos_idq] is saturated at 1 or not positive;
    - if the hard command band contains zero and zero torque is
      admissible, the limits are on either side of zero, at any speed. *)
Theorem C3_limits_ordered_when_feasible lib voltage rotor_vel p :
  physically_valid p -> non_salient p ->
  WithLibm.exact_but_at_quarter_turn lib ->
  let v := clamp_voltage voltage in
  let limits := WithLibm.CalcTorqueLimits lib voltage rotor_vel p in
  ((exists id iq, feasible id iq v rotor_vel p) ->
   omega_e rotor_vel p = 0
   \/ 1 <= Rabs (omega_e rotor_vel p)
   \/ (DBL_EPSILON < Rabs (omega_e rotor_vel p) /\
       (iq_cmd_lower_limit p <= 0 <= iq_cmd_upper_limit p
        \/ cos_idq v rotor_vel p <= 0 \/ cos_idq v rotor_vel p = 1)) ->
   lower_limit limits <= upper_limit limits) /\
  (iq_cmd_lower_limit p <= 0 <= iq_cmd_upper_limit p ->
   zero_torque_admissible v rotor_vel p ->
   lower_limit limits <= 0 <= upper_limit limits).
Proof.
  intros Hvalid _ Hlib v limits.
  pose proof Hvalid as (_ & Hi & Hlam & HRs & HL & Hn & Hm).
  pose proof (torque_factor_nonneg p Hn Hlam) as Hk.
  pose proof (clamp_voltage_nonneg voltage) as Hv. fold v in Hv.
  pose proof (vdq_max_nonneg v p Hm Hv) as HV.
  subst limits. unfold WithLibm.CalcTorqueLimits. fold v. cbv zeta.
  cbn [lower_limit upper_limit].
  set (k := 1.5 * IZR (num_pole_pairs p) * flux_linkage p) in *.
  assert (Hturn : omega_e rotor_vel p <> 0 ->
                  WithLibm.iq_limits lib v rotor_vel p
                  = iq_limits v rotor_vel p).
  { intros Hw. apply (nearly_exact_iq_limits lib Hlib); [lra |].
    now apply id_center_neg_turning. }
  split.
  - intros Hfeas Hcase.
    apply Rmult_le_compat_l; [lra |].
    destruct (Req_dec (omega_e rotor_vel p) 0) as [Hstill | Hw].
    + rewrite (omega_e_zero_rotor_vel _ _ Hn Hstill) in *.
      destruct Hfeas as (x & y & Hf).
      destruct (standstill_feasible_within lib p v x y Hlib HRs Hlam Hi
                  HV Hf). lra.
    + rewrite (Hturn Hw).
      pose proof DBL_EPSILON_pos as He.
      assert (He1 : DBL_EPSILON < 1).
      { unfold DBL_EPSILON. rewrite <- Rinv_1.
        apply Rinv_lt_contravar; lra. }
      destruct Hcase as [H0 | [Hfast | [Heps Hrest]]]; [easy | |].
      * apply (turning_limits_ordered v rotor_vel p Hvalid Hv);
          [lra | exact Hfeas | now left].
      * apply (turning_limits_ordered v rotor_vel p Hvalid Hv);
          [exact Heps | exact Hfeas | now right].
  - intros [Hlo Hhi] (id0 & Hid & Hzt).
    destruct (Req_dec (omega_e rotor_vel p) 0) as [Hstill | Hw].
    + rewrite (omega_e_zero_rotor_vel _ _ Hn Hstill) in *.
      assert (Hf : feasible id0 0 v 0 p).
      { split; [| split; [exact Hzt | lra]].
        pose proof (Rabs_sqr_eq id0) as Hsq.
        pose proof (Rabs_pos id0). nra. }
      destruct (standstill_feasible_within lib p v id0 0 Hlib HRs Hlam Hi
                  HV Hf) as [H1 H2].
      split; nra.
    + rewrite (Hturn Hw).
      pose proof (iq_limits_lower_nonpos v rotor_vel p id0 HRs HL Hlam Hi
                    HV Hid Hzt Hlo) as H1.
      pose proof (iq_limits_upper_nonneg v rotor_vel p id0 HRs HL Hlam Hi
                    HV Hid Hzt Hhi) as H2.
      split; nra.
Qed.

(** At 10 V and 10 rad/s the back-EMF (10 V) exceeds the voltage limit
    (about 5.8 V) and zero torque is out of reach, but the generating
    point [(-25, -25)] A is feasible: it needs 5 V. *)
Lemma C3_limits_ordered_when_feasible_witness :
  lower_limit (WithLibm.CalcTorqueLimits WithLibm.rounded 10 10 spec_params)
  <= upper_limit (WithLibm.CalcTorqueLimits WithLibm.rounded 10 10
                    spec_params).
Proof.
  destruct spec_params_at_10 as (Hw & _).
  apply (proj1 (C3_limits_ordered_when_feasible WithLibm.rounded 10 10
                  spec_params spec_params_valid spec_params_non_salient
                  rounded_is_exact_but_at_quarter_turn)).
  - exists (-25), (-25). unfold feasible.
    split; [unfold spec_params; fields; lra |].
    split; [| unfold spec_params; fields; lra].
    unfold steady_state_voltage_sq. rewrite Hw.
    rewrite clamp_voltage_pos by lra.
    unfold vdq_max, spec_params; fields.
    replace (10 * (1 / sqrt 3) * 1 * (10 * (1 / sqrt 3) * 1))
      with (100 * (1 / sqrt 3 * (1 / sqrt 3))) by ring.
    rewrite inv_sqrt3_sqr. lra.
  - right; left. rewrite Hw, Rabs_pos_eq; lra.
Defined.

Lemma low_speed_offset_params_valid :
  physically_valid low_speed_offset_params.
Proof.
  unfold physically_valid, low_speed_offset_params; fields.
  repeat (split; [lra || reflexivity |]). lra.
Qed.

Lemma low_speed_offset_params_non_salient :
  non_salient low_speed_offset_params.
Proof.
  unfold non_salient, low_speed_offset_params. cbn [Ld Lq].
  replace (0.6 - 0.6) with 0 by lra. rewrite Rabs_R0.
  left. exact DBL_EPSILON_pos.
Qed.

Lemma low_speed_offset_quantities :
  omega_e (-0.5) low_speed_offset_params = -0.5 /\
  z2 (-0.5) low_speed_offset_params = 0.25 /\
  sqrt (z2 (-0.5) low_speed_offset_params) = 0.5 /\
  id_center (-0.5) low_speed_offset_params = -0.24 /\
  iq_center (-0.5) low_speed_offset_params = 0.32.
Proof.
  assert (Hw : omega_e (-0.5) low_speed_offset_params = -0.5).
  { unfold omega_e, low_speed_offset_params; fields. lra. }
  assert (Hz : z2 (-0.5) low_speed_offset_params = 0.25).
  { unfold z2. rewrite Hw. unfold low_speed_offset_params; fields. lra. }
  split; [exact Hw | split; [exact Hz | split; [| split]]].
  - rewrite Hz. apply sqrt_lem_1; lra.
  - unfold id_center. rewrite Hw, Hz.
    unfold low_speed_offset_params; fields. lra.
  - unfold iq_center. rewrite Hw, Hz.
    unfold low_speed_offset_params; fields. lra.
Qed.

Lemma low_speed_offset_theta_ref :
  theta_ref (-0.5) low_speed_offset_params < 0 /\
  cos (theta_ref (-0.5) low_speed_offset_params) = 0.6 /\
  sin (theta_ref (-0.5) low_speed_offset_params) = -0.8.
Proof.
  destruct low_speed_offset_quantities as (Hw & Hz & Hs & _).
  assert (HL : 0 < Lq low_speed_offset_params)
    by (unfold low_speed_offset_params; fields; lra).
  assert (Hom : omega_e (-0.5) low_speed_offset_params <> 0)
    by (rewrite Hw; lra).
  destruct (trig_theta_ref (-0.5) low_speed_offset_params HL Hom)
    as [Hc Hsn].
  rewrite Hs, Hw, Rabs_m05 in Hc, Hsn.
  assert (Hr : theta_ref (-0.5) low_speed_offset_params
               = atan (Rs low_speed_offset_params
                       / (omega_e (-0.5) low_speed_offset_params
                          * Lq low_speed_offset_params))).
  { unfold theta_ref, Rgtb. rewrite Rltb_true; [reflexivity |].
    rewrite Hw, Rabs_m05. unfold DBL_EPSILON.
    apply Rmult_lt_reg_r with 4503599627370496; [lra |].
    rewrite Rinv_l; lra. }
  rewrite Hr, Hw. unfold low_speed_offset_params in *; fields.
  cbn [Rs Lq] in Hc, Hsn.
  split; [| split; lra].
  assert (Hneg : 0.4 / (-0.5 * 0.6) < 0) by lra.
  rewrite <- atan_0. now apply atan_increasing.
Qed.

Lemma low_speed_offset_cos_idq :
  cos_idq 0.6 (-0.5) low_speed_offset_params = 23 / 48.
Proof.
  destruct low_speed_offset_quantities as (Hw & Hz & Hs & _).
  assert (Hraw : cos_idq_raw 0.6 (-0.5) low_speed_offset_params = 23 / 48).
  { unfold cos_idq_raw. rewrite Hs, Hz, Hw, Rabs_m05.
    rewrite (Rmax_right 0.5 1) by lra.
    assert (Hv : vdq_max 0.6 low_speed_offset_params
                 * vdq_max 0.6 low_speed_offset_params = 0.12).
    { unfold vdq_max, low_speed_offset_params; fields.
      pose proof inv_sqrt3_sqr as Hq.
      set (t := 1 / sqrt 3) in *. clearbody t. nra. }
    rewrite Hv. unfold low_speed_offset_params; fields. lra. }
  unfold cos_idq. rewrite Hraw. unfold Saturate, Rgtb.
  rewrite (Rltb_false (23 / 48) (-1)), (Rltb_false 1 (23 / 48)) by lra.
  reflexivity.
Qed.

(** The lower bound at 0.6 V: the candidate of the phase current step,
    above -0.278 A. *)
Lemma low_speed_offset_lower :
  -0.278 <= iq_lower (iq_limits 0.6 (-0.5) low_speed_offset_params).
Proof.
  destruct low_speed_offset_quantities as (Hw & Hz & Hs & Ha & Hc).
  destruct low_speed_offset_theta_ref as (Hr0 & Hrc & Hrs).
  pose proof inv_sqrt3_gt as Ht. destruct inv_sqrt3_bounds as [_ Ht2].
  pose proof PI_RGT_0 as Hpi.
  pose proof low_speed_offset_cos_idq as HX.
  pose proof (cos_theta_delta 0.6 (-0.5) low_speed_offset_params) as Hcd.
  rewrite HX in Hcd.
  pose proof (sin_theta_delta_nonneg 0.6 (-0.5) low_speed_offset_params)
    as HS0.
  pose proof (sin2_cos2 (theta_delta 0.6 (-0.5) low_speed_offset_params))
    as Hu.
  unfold Rsqr in Hu. rewrite Hcd in Hu.
  destruct (theta_delta_bound 0.6 (-0.5) low_speed_offset_params)
    as [Hd0 Hd1].
  set (delta := theta_delta 0.6 (-0.5) low_speed_offset_params) in *.
  set (tr := theta_ref (-0.5) low_speed_offset_params) in *.
  assert (HS : 0.8 <= sin delta <= 0.9) by (split; nra).
  assert (Hth : theta_lower 0.6 (-0.5) low_speed_offset_params
                = tr - delta).
  { unfold theta_lower. fold tr delta. apply Rmin_left.
    destruct (Rle_dec (tr - delta) (-0.5 * PI)) as [Hle | Hgt];
      [exact Hle | exfalso].
    assert (0 < cos (tr - delta)) by (apply cos_gt_0; lra).
    rewrite cos_minus, Hrc, Hrs, Hcd in *. lra. }
  assert (Hr : iq_radius 0.6 (-0.5) low_speed_offset_params
               = 1.2 * (1 / sqrt 3)).
  { unfold iq_radius. rewrite Hs.
    unfold vdq_max, low_speed_offset_params; fields. lra. }
  unfold iq_limits, apply_phase_current_limit, apply_power_limit.
  rewrite phase_current_limit_lower, Hth, Ha, power_limit_lower, Hc, Hr.
  rewrite cos_minus, sin_minus, Hrc, Hrs, Hcd.
  cbn [hard_limits iq_lower]. unfold low_speed_offset_params; fields.
  rewrite Rltb_true by lra.
  unfold Rgtb. rewrite Rltb_true by (apply Rmax_lub_lt; lra).
  cbn [andb]. lra.
Qed.

(** Outside the cases of the amended C3 the ordering can fail although
    an operating point is feasible: at [omega_e = -0.5] rad/s and 0.6 V,
    with the hard command band [[-1, -0.28]] A, the point [(-0.1, -0.28)]
    A is feasible, [cos_idq] is [23 / 48], and the lower limit, set by
    the phase current step, is above the upper limit, the hard one. *)
Lemma feasible_band_not_ordered :
  physically_valid low_speed_offset_params /\
  non_salient low_speed_offset_params /\
  feasible (-0.1) (-0.28) (clamp_voltage 0.6) (-0.5)
    low_speed_offset_params /\
  upper_limit (CalcTorqueLimits 0.6 (-0.5) low_speed_offset_params)
  < lower_limit (CalcTorqueLimits 0.6 (-0.5) low_speed_offset_params).
Proof.
  destruct low_speed_offset_quantities as (Hw & _).
  pose proof low_speed_offset_lower as Hlo.
  pose proof (iq_limits_upper_le 0.6 (-0.5) low_speed_offset_params) as Hhi.
  pose proof (Rmin_l (iq_cmd_upper_limit low_speed_offset_params)
                (iq_center (-0.5) low_speed_offset_params
                 + iq_radius 0.6 (-0.5) low_speed_offset_params)) as Hm.
  assert (Hh : iq_cmd_upper_limit low_speed_offset_params = -0.28)
    by reflexivity.
  assert (Hk : 1.5 * IZR (num_pole_pairs low_speed_offset_params)
               * flux_linkage low_speed_offset_params = 0.6).
  { unfold low_speed_offset_params; fields. lra. }
  split; [exact low_speed_offset_params_valid |].
  split; [exact low_speed_offset_params_non_salient |].
  rewrite clamp_voltage_pos by lra.
  split.
  - unfold feasible.
    split; [unfold low_speed_offset_params; fields; lra |].
    split; [| unfold low_speed_offset_params; fields; lra].
    unfold steady_state_voltage_sq. rewrite Hw.
    unfold vdq_max, low_speed_offset_params; fields.
    pose proof inv_sqrt3_sqr as Hq.
    set (t := 1 / sqrt 3) in *. clearbody t. nra.
  - unfold CalcTorqueLimits. rewrite clamp_voltage_pos by lra.
    cbv zeta. cbn [lower_limit upper_limit]. rewrite Hk. lra.
Qed.

(** * Further properties of the three functions *)

(** ** The returned band and its tags *)

(** X1.  With physically valid parameters and any C library, the limits
    returned lie within the hard command limits and within the voltage
    band, all scaled to torque: the steps only ever narrow the band. *)
Theorem limits_within_hard_limits_and_voltage_band lib voltage rotor_vel p :
  physically_valid p ->
  let limits := WithLibm.CalcTorqueLimits lib voltage rotor_vel p in
  let k := 1.5 * IZR (num_pole_pairs p) * flux_linkage p in
  let c := iq_center rotor_vel p in
  let r := iq_radius (clamp_voltage voltage) rotor_vel p in
  k * iq_cmd_lower_limit p <= lower_limit limits
  /\ k * (c - r) <= lower_limit limits
  /\ upper_limit limits <= k * iq_cmd_upper_limit p
  /\ upper_limit limits <= k * (c + r).
Proof.
  intros (_ & _ & Hlam & _ & _ & Hn & _) limits k c r.
  pose proof (torque_factor_nonneg p Hn Hlam) as Hk. fold k in Hk.
  pose proof (WithLibm_iq_limits_lower_ge lib (clamp_voltage voltage)
                rotor_vel p) as Hlo.
  pose proof (WithLibm_iq_limits_upper_le lib (clamp_voltage voltage)
                rotor_vel p) as Hhi.
  fold c r in Hlo, Hhi.
  pose proof (Rmax_l (iq_cmd_lower_limit p) (c - r)).
  pose proof (Rmax_r (iq_cmd_lower_limit p) (c - r)).
  pose proof (Rmin_l (iq_cmd_upper_limit p) (c + r)).
  pose proof (Rmin_r (iq_cmd_upper_limit p) (c + r)).
  subst limits. unfold WithLibm.CalcTorqueLimits. cbv zeta.
  cbn [lower_limit upper_limit]. fold k.
  repeat split; apply Rmult_le_compat_l; lra.
Qed.

Lemma limits_within_hard_limits_and_voltage_band_witness :
  1.5 * IZR (num_pole_pairs spec_params) * flux_linkage spec_params
  * iq_cmd_lower_limit spec_params
  <= lower_limit (WithLibm.CalcTorqueLimits WithLibm.rounded 15 10
                    spec_params)
  /\ upper_limit (WithLibm.CalcTorqueLimits WithLibm.rounded 15 10
                    spec_params)
     <= 1.5 * IZR (num_pole_pairs spec_params) * flux_linkage spec_params
        * iq_cmd_upper_limit spec_params.
Proof.
  destruct (limits_within_hard_limits_and_voltage_band WithLibm.rounded
              15 10 spec_params spec_params_valid) as (H1 & _ & H3 & _).
  split; assumption.
Defined.

(** X2.  A bound tagged [kSimMotorLimitPower] is the edge of the voltage
    circle, [iq_center - iq_radius] or [iq_center + iq_radius] scaled to
    torque, and that edge lies strictly inside the hard command limit. *)
Theorem power_tag_is_voltage_circle_edge voltage rotor_vel p :
  let k := 1.5 * IZR (num_pole_pairs p) * flux_linkage p in
  let c := iq_center rotor_vel p in
  let r := iq_radius (clamp_voltage voltage) rotor_vel p in
  (lower_constraint (CalcTorqueLimits voltage rotor_vel p)
   = kSimMotorLimitPower ->
   lower_limit (CalcTorqueLimits voltage rotor_vel p) = k * (c - r) /\
   iq_cmd_lower_limit p < c - r) /\
  (upper_constraint (CalcTorqueLimits voltage rotor_vel p)
   = kSimMotorLimitPower ->
   upper_limit (CalcTorqueLimits voltage rotor_vel p) = k * (c + r) /\
   c + r < iq_cmd_upper_limit p).
Proof.
  intros k c r. unfold CalcTorqueLimits. cbv zeta.
  cbn [lower_limit upper_limit lower_constraint upper_constraint].
  split; intros Htag.
  - rewrite (iq_limits_lower_power _ _ _ Htag). fold c r k.
    split; [reflexivity |].
    revert Htag.
    unfold iq_limits, apply_phase_current_limit, apply_power_limit.
    rewrite phase_current_limit_lower_tag.
    destruct (Rltb _ _ && Rgtb _ _); [discriminate |].
    rewrite power_limit_lower_tag. cbn [hard_limits iq_lower lower_tag].
    fold c r.
    cmp_cases (iq_cmd_lower_limit p) (c - r); [intros _; exact Hcmp |].
    discriminate.
  - rewrite (iq_limits_upper_power _ _ _ Htag). fold c r k.
    split; [reflexivity |].
    revert Htag.
    unfold iq_limits, apply_phase_current_limit, apply_power_limit.
    rewrite phase_current_limit_upper_tag.
    destruct (Rltb _ _ && Rltb _ _); [discriminate |].
    rewrite power_limit_upper_tag. cbn [hard_limits iq_upper upper_tag].
    fold c r. unfold Rgtb.
    cmp_cases (c + r) (iq_cmd_upper_limit p); [intros _; exact Hcmp |].
    discriminate.
Qed.

Lemma Rabs_mult_sin_le i x : 0 <= i -> Rabs (i * sin x) <= i.
Proof.
  intros Hi. pose proof (SIN_bound x) as [H1 H2].
  apply Rabs_le. split; nra.
Qed.

(** X3.  A bound tagged [kSimMotorLimitPhaseCurrent] is either the hard
    command limit, untouched by both steps, or a point of the current
    circle, whose torque is at most [1.5 * npp * lambda * i_phase_lim] in
    absolute value. *)
Theorem phase_current_tag_is_hard_limit_or_current_circle
    voltage rotor_vel p :
  (0 < num_pole_pairs p)%Z -> 0 < flux_linkage p ->
  0 <= phase_current_cmd_limit p ->
  let k := 1.5 * IZR (num_pole_pairs p) * flux_linkage p in
  (lower_constraint (CalcTorqueLimits voltage rotor_vel p)
   = kSimMotorLimitPhaseCurrent ->
   lower_limit (CalcTorqueLimits voltage rotor_vel p)
   = k * iq_cmd_lower_limit p \/
   Rabs (lower_limit (CalcTorqueLimits voltage rotor_vel p))
   <= k * phase_current_cmd_limit p) /\
  (upper_constraint (CalcTorqueLimits voltage rotor_vel p)
   = kSimMotorLimitPhaseCurrent ->
   upper_limit (CalcTorqueLimits voltage rotor_vel p)
   = k * iq_cmd_upper_limit p \/
   Rabs (upper_limit (CalcTorqueLimits voltage rotor_vel p))
   <= k * phase_current_cmd_limit p).
Proof.
  intros Hn Hlam Hi k.
  pose proof (torque_factor_nonneg p Hn Hlam) as Hk. fold k in Hk.
  unfold CalcTorqueLimits. cbv zeta.
  cbn [lower_limit upper_limit lower_constraint upper_constraint]. fold k.
  unfold iq_limits, apply_phase_current_limit, apply_power_limit.
  split.
  - rewrite phase_current_limit_lower_tag, phase_current_limit_lower.
    destruct (Rltb _ _ && Rgtb _ _).
    + intros _. right. rewrite Rabs_mult, (Rabs_pos_eq k) by lra.
      apply Rmult_le_compat_l; [lra |]. now apply Rabs_mult_sin_le.
    + rewrite power_limit_lower_tag, power_limit_lower.
      cbn [hard_limits iq_lower lower_tag].
      cmp_cases (iq_cmd_lower_limit p)
                (iq_center rotor_vel p
                 - iq_radius (clamp_voltage voltage) rotor_vel p);
        [discriminate |].
      intros _. left. rewrite Rmax_left by lra. reflexivity.
  - rewrite phase_current_limit_upper_tag, phase_current_limit_upper.
    destruct (Rltb _ _ && Rltb _ _).
    + intros _. right. rewrite Rabs_mult, (Rabs_pos_eq k) by lra.
      apply Rmult_le_compat_l; [lra |]. now apply Rabs_mult_sin_le.
    + rewrite power_limit_upper_tag, power_limit_upper.
      cbn [hard_limits iq_upper upper_tag]. unfold Rgtb.
      cmp_cases (iq_center rotor_vel p
                 + iq_radius (clamp_voltage voltage) rotor_vel p)
                (iq_cmd_upper_limit p); [discriminate |].
      intros _. left. rewrite Rmin_left by lra. reflexivity.
Qed.

Lemma phase_current_tag_is_hard_limit_or_current_circle_witness :
  let k := 1.5 * IZR (num_pole_pairs spec_params)
           * flux_linkage spec_params in
  (lower_constraint (CalcTorqueLimits 15 10 spec_params)
   = kSimMotorLimitPhaseCurrent ->
   lower_limit (CalcTorqueLimits 15 10 spec_params)
   = k * iq_cmd_lower_limit spec_params \/
   Rabs (lower_limit (CalcTorqueLimits 15 10 spec_params))
   <= k * phase_current_cmd_limit spec_params) /\
  (upper_constraint (CalcTorqueLimits 15 10 spec_params)
   = kSimMotorLimitPhaseCurrent ->
   upper_limit (CalcTorqueLimits 15 10 spec_params)
   = k * iq_cmd_upper_limit spec_params \/
   Rabs (upper_limit (CalcTorqueLimits 15 10 spec_params))
   <= k * phase_current_cmd_limit spec_params).
Proof.
  apply (phase_current_tag_is_hard_limit_or_current_circle
           15 10 spec_params).
  - reflexivity.
  - unfold spec_params; fields; lra.
  - unfold spec_params; fields; lra.
Defined.

(** X4.  With physically valid parameters and any C library, at zero or
    negative voltage the voltage circle is the point [iq_center]: the
    upper limit is at most, and the lower limit at least, the torque of
    [iq_center], so the band is empty or a single point. *)
Theorem no_voltage_no_band lib voltage rotor_vel p :
  voltage <= 0 -> physically_valid p ->
  let limits := WithLibm.CalcTorqueLimits lib voltage rotor_vel p in
  let k := 1.5 * IZR (num_pole_pairs p) * flux_linkage p in
  upper_limit limits <= k * iq_center rotor_vel p <= lower_limit limits.
Proof.
  intros Hv (_ & _ & Hlam & _ & _ & Hn & _) limits k.
  pose proof (torque_factor_nonneg p Hn Hlam) as Hk. fold k in Hk.
  assert (Hc : clamp_voltage voltage = 0).
  { destruct Hv as [Hv | ->]; [now apply clamp_voltage_neg |].
    apply clamp_voltage_pos. lra. }
  pose proof (WithLibm_iq_limits_lower_ge lib 0 rotor_vel p) as Hlo.
  pose proof (WithLibm_iq_limits_upper_le lib 0 rotor_vel p) as Hhi.
  rewrite iq_radius_0 in Hlo, Hhi.
  pose proof (Rmax_r (iq_cmd_lower_limit p) (iq_center rotor_vel p - 0)).
  pose proof (Rmin_r (iq_cmd_upper_limit p) (iq_center rotor_vel p + 0)).
  subst limits. unfold WithLibm.CalcTorqueLimits. rewrite Hc. cbv zeta.
  cbn [lower_limit upper_limit]. fold k.
  split; apply Rmult_le_compat_l; lra.
Qed.

Lemma no_voltage_no_band_witness :
  upper_limit (WithLibm.CalcTorqueLimits WithLibm.rounded (-5) 10
                 spec_params)
  <= 1.5 * IZR (num_pole_pairs spec_params) * flux_linkage spec_params
     * iq_center 10 spec_params
  <= lower_limit (WithLibm.CalcTorqueLimits WithLibm.rounded (-5) 10
                    spec_params).
Proof.
  apply (no_voltage_no_band WithLibm.rounded (-5) 10 spec_params).
  - lra.
  - exact spec_params_valid.
Defined.

(** ** Ample voltage *)

Section AmpleVoltage.

Variables (v w : R) (p : MotorParams).
Hypothesis HRs : 0 < Rs p.
Hypothesis HL : 0 < Lq p.
Hypothesis Hlam : 0 < flux_linkage p.
Hypothesis Hi : 0 < phase_current_cmd_limit p.
Hypothesis Hw : omega_e w p <> 0.
(** The voltage limit covers the impedance drop at the current limit and
    the back-EMF, the speed being floored at 1 rad/s as in line 75. *)
Hypothesis Hample :
  sqrt (z2 w p) * phase_current_cmd_limit p
  + Rmax (Rabs (omega_e w p)) 1 * flux_linkage p
  <= vdq_max v p.

Lemma ample_cos_idq : cos_idq v w p = 1.
Proof using HRs Hlam Hi Hample.
  pose proof (sqrt_z2_pos w p HRs) as Hs.
  pose proof (sqrt_z2_sqr w p HRs) as Hss.
  pose proof (Rabs_sqr_eq (omega_e w p)) as Hsq.
  pose proof (Rabs_pos (omega_e w p)) as Habs.
  assert (Hm1 : 1 <= Rmax (Rabs (omega_e w p)) 1) by apply Rmax_r.
  assert (Hm2 : Rabs (omega_e w p) <= Rmax (Rabs (omega_e w p)) 1)
    by apply Rmax_l.
  assert (Hraw : 1 <= cos_idq_raw v w p).
  { unfold cos_idq_raw. rewrite <- Hss at 1.
    set (s := sqrt (z2 w p)) in *.
    set (i := phase_current_cmd_limit p) in *.
    set (lam := flux_linkage p) in *. set (V := vdq_max v p) in *.
    set (m := Rmax (Rabs (omega_e w p)) 1) in *.
    assert (HD : 0 < 2 * m * lam * i * s).
    { repeat apply Rmult_lt_0_compat; lra. }
    apply Rmult_le_reg_r with (2 * m * lam * i * s); [exact HD |].
    replace ((V * V - s * s * i * i - lam * lam * omega_e w p * omega_e w p)
             / (2 * m * lam * i * s) * (2 * m * lam * i * s))
      with (V * V - s * s * i * i - lam * lam * (omega_e w p * omega_e w p))
      by (field; lra).
    rewrite <- Hsq.
    assert (Hsi : 0 < s * i) by (apply Rmult_lt_0_compat; lra).
    assert (Hml : 0 < m * lam) by (apply Rmult_lt_0_compat; lra).
    assert (HVV : (s * i + m * lam) * (s * i + m * lam) <= V * V) by nra.
    assert (Hmm : Rabs (omega_e w p) * Rabs (omega_e w p) <= m * m) by nra.
    assert (0 <= lam * lam * (m * m - Rabs (omega_e w p) * Rabs (omega_e w p))).
    { apply Rmult_le_pos; [nra | lra]. }
    lra. }
  unfold cos_idq, Saturate, Rgtb.
  rewrite Rltb_false by lra.
  cmp_cases 1 (cos_idq_raw v w p); lra.
Qed.

Lemma ample_theta :
  theta_lower v w p = -0.5 * PI /\ theta_upper v w p = 0.5 * PI.
Proof using HRs Hlam Hi Hample.
  pose proof (theta_ref_bound w p) as Hb.
  unfold theta_lower, theta_upper, theta_delta.
  rewrite ample_cos_idq, acos_1.
  split; [apply Rmin_right | apply Rmax_right]; lra.
Qed.

Lemma ample_id_center_neg : id_center w p < 0.
Proof using HRs HL Hlam Hw.
  pose proof (z2_pos w p HRs) as Hz.
  unfold id_center.
  assert (0 < omega_e w p * omega_e w p * Lq p * flux_linkage p).
  { assert (0 < omega_e w p * omega_e w p)
      by (destruct (Rlt_dec (omega_e w p) 0); nra).
    apply Rmult_lt_0_compat; [apply Rmult_lt_0_compat |]; lra. }
  assert (H0 : - omega_e w p * omega_e w p * Lq p * flux_linkage p < 0)
    by lra.
  unfold Rdiv. pose proof (Rinv_0_lt_compat _ Hz). nra.
Qed.

(** The voltage circle reaches beyond the current limit on both sides. *)
Lemma ample_voltage_band :
  iq_center w p - iq_radius v w p <= - phase_current_cmd_limit p /\
  phase_current_cmd_limit p <= iq_center w p + iq_radius v w p.
Proof using HRs Hlam Hi Hample.
  pose proof (sqrt_z2_pos w p HRs) as Hs.
  pose proof (sqrt_z2_sqr w p HRs) as Hss.
  pose proof (Rabs_pos (omega_e w p)) as Habs.
  assert (Hm2 : Rabs (omega_e w p) <= Rmax (Rabs (omega_e w p)) 1)
    by apply Rmax_l.
  assert (HRss : Rs p <= sqrt (z2 w p)).
  { assert (Rs p * Rs p <= sqrt (z2 w p) * sqrt (z2 w p)).
    { rewrite Hss. unfold z2.
      assert (0 <= Lq p * omega_e w p * (Lq p * omega_e w p))
        by (apply Rle_0_sqr || nra).
      lra. }
    nra. }
  assert (Hc : Rabs (iq_center w p) * sqrt (z2 w p)
               <= Rabs (omega_e w p) * flux_linkage p).
  { unfold iq_center. rewrite <- Hss at 1.
    set (s := sqrt (z2 w p)) in *.
    replace (- Rs p * omega_e w p * flux_linkage p / (s * s))
      with (- (Rs p / s * (flux_linkage p / s)) * omega_e w p)
      by (field; lra).
    rewrite Rabs_mult, Rabs_Ropp, Rabs_pos_eq.
    2:{ apply Rmult_le_pos; apply Rmult_le_pos; try lra;
        left; now apply Rinv_0_lt_compat. }
    replace (Rs p / s * (flux_linkage p / s) * Rabs (omega_e w p) * s)
      with (Rs p / s * (Rabs (omega_e w p) * flux_linkage p))
      by (field; lra).
    assert (Hq : Rs p / s <= 1).
    { apply Rmult_le_reg_r with s; [lra |].
      replace (Rs p / s * s) with (Rs p) by (field; lra). lra. }
    assert (0 <= Rabs (omega_e w p) * flux_linkage p)
      by (apply Rmult_le_pos; lra).
    nra. }
  assert (Hr : iq_radius v w p * sqrt (z2 w p) = vdq_max v p).
  { unfold iq_radius. field. lra. }
  assert (Hlm : Rabs (omega_e w p) * flux_linkage p
                <= Rmax (Rabs (omega_e w p)) 1 * flux_linkage p)
    by (apply Rmult_le_compat_r; lra).
  assert (Hsum : (Rabs (iq_center w p) + phase_current_cmd_limit p)
                 * sqrt (z2 w p)
                 <= iq_radius v w p * sqrt (z2 w p)) by lra.
  apply Rmult_le_reg_r in Hsum; [| exact Hs].
  pose proof (Rle_abs (iq_center w p)).
  pose proof (Rle_abs (- iq_center w p)) as H'. rewrite Rabs_Ropp in H'.
  split; lra.
Qed.

Lemma ample_iq_limits :
  iq_lower (iq_limits v w p)
  = Rmax (iq_cmd_lower_limit p) (- phase_current_cmd_limit p) /\
  iq_upper (iq_limits v w p)
  = Rmin (iq_cmd_upper_limit p) (phase_current_cmd_limit p).
Proof using HRs HL Hlam Hi Hw Hample.
  destruct ample_theta as [Htl Htu].
  destruct ample_voltage_band as [Hb1 Hb2].
  pose proof ample_id_center_neg as Ha.
  destruct sin_cos_m_half_PI as [Hsl Hcl].
  assert (Hsu : sin (0.5 * PI) = 1).
  { replace (0.5 * PI) with (PI / 2) by lra. apply sin_PI2. }
  assert (Hcu : cos (0.5 * PI) = 0).
  { replace (0.5 * PI) with (PI / 2) by lra. apply cos_PI2. }
  unfold iq_limits, apply_phase_current_limit, apply_power_limit.
  rewrite phase_current_limit_lower, phase_current_limit_upper,
    power_limit_lower, power_limit_upper.
  cbn [hard_limits iq_lower iq_upper].
  rewrite Htl, Htu, Hsl, Hcl, Hsu, Hcu.
  rewrite !Rltb_true by lra. cbn [andb]. unfold Rgtb.
  split.
  - match goal with |- context [Rltb ?x ?y] => cmp_cases x y end;
      revert Hcmp; unfold Rmax; repeat destruct (Rle_dec _ _); lra.
  - match goal with |- context [Rltb ?x ?y] => cmp_cases x y end;
      revert Hcmp; unfold Rmin; repeat destruct (Rle_dec _ _); lra.
Qed.

End AmpleVoltage.

(** X5.  When the machine turns and the voltage limit covers the
    impedance drop at the current limit plus the back-EMF (the speed
    floored at 1 rad/s as in the code), [cos_idq] saturates at 1, both
    angles are clamped to a quarter turn, and the limits are the current
    limit intersected with the hard command limits. *)
Theorem ample_voltage_leaves_current_limit voltage rotor_vel p :
  0 < Rs p -> 0 < Lq p -> 0 < flux_linkage p ->
  0 < phase_current_cmd_limit p ->
  omega_e rotor_vel p <> 0 ->
  sqrt (z2 rotor_vel p) * phase_current_cmd_limit p
  + Rmax (Rabs (omega_e rotor_vel p)) 1 * flux_linkage p
  <= vdq_max (clamp_voltage voltage) p ->
  let k := 1.5 * IZR (num_pole_pairs p) * flux_linkage p in
  lower_limit (CalcTorqueLimits voltage rotor_vel p)
  = k * Rmax (iq_cmd_lower_limit p) (- phase_current_cmd_limit p) /\
  upper_limit (CalcTorqueLimits voltage rotor_vel p)
  = k * Rmin (iq_cmd_upper_limit p) (phase_current_cmd_limit p).
Proof.
  intros HRs HL Hlam Hi Hw Hample k.
  destruct (ample_iq_limits _ _ _ HRs HL Hlam Hi Hw Hample) as [H1 H2].
  unfold CalcTorqueLimits. cbv zeta. cbn [lower_limit upper_limit].
  rewrite H1, H2. split; reflexivity.
Qed.

(** 40 V at 100 rad/s electrical: the voltage limit is above 20 V, the
    impedance drop at 40 A below 6 V and the back-EMF 10 V. *)
Lemma ample_voltage_leaves_current_limit_witness :
  lower_limit (CalcTorqueLimits 40 10 spec_params)
  = 1.5 * IZR (num_pole_pairs spec_params) * flux_linkage spec_params
    * Rmax (iq_cmd_lower_limit spec_params)
           (- phase_current_cmd_limit spec_params) /\
  upper_limit (CalcTorqueLimits 40 10 spec_params)
  = 1.5 * IZR (num_pole_pairs spec_params) * flux_linkage spec_params
    * Rmin (iq_cmd_upper_limit spec_params)
           (phase_current_cmd_limit spec_params).
Proof.
  destruct spec_params_at_10 as (Hw & Hz & _).
  apply (ample_voltage_leaves_current_limit 40 10 spec_params).
  - unfold spec_params; fields; lra.
  - unfold spec_params; fields; lra.
  - unfold spec_params; fields; lra.
  - unfold spec_params; fields; lra.
  - rewrite Hw. lra.
  - rewrite Hw, Hz, clamp_voltage_pos by lra.
    rewrite (Rabs_pos_eq 100), (Rmax_left 100 1) by lra.
    assert (Hs : sqrt 0.02 <= 0.15).
    { replace 0.15 with (sqrt (0.15 * 0.15))
        by (apply sqrt_square; lra).
      apply sqrt_le_1_alt. lra. }
    destruct inv_sqrt3_bounds as [Hb _].
    unfold vdq_max, spec_params; fields. lra.
Defined.

(** ** Reversing the rotor speed *)

Lemma omega_e_opp w p : omega_e (- w) p = - omega_e w p.
Proof. unfold omega_e. ring. Qed.

Lemma z2_opp w p : z2 (- w) p = z2 w p.
Proof. unfold z2. rewrite omega_e_opp. ring. Qed.

Lemma id_center_opp w p : id_center (- w) p = id_center w p.
Proof.
  unfold id_center. rewrite z2_opp, omega_e_opp. unfold Rdiv. ring.
Qed.

Lemma iq_center_opp w p : iq_center (- w) p = - iq_center w p.
Proof.
  unfold iq_center. rewrite z2_opp, omega_e_opp. unfold Rdiv. ring.
Qed.

Lemma iq_radius_opp v w p : iq_radius v (- w) p = iq_radius v w p.
Proof. unfold iq_radius. now rewrite z2_opp. Qed.

Lemma theta_delta_opp v w p : theta_delta v (- w) p = theta_delta v w p.
Proof.
  unfold theta_delta, cos_idq, cos_idq_raw.
  rewrite z2_opp, omega_e_opp, Rabs_Ropp.
  do 2 f_equal. unfold Rdiv. ring.
Qed.

Lemma theta_ref_opp w p : theta_ref (- w) p = - theta_ref w p.
Proof.
  unfold theta_ref. rewrite omega_e_opp, Rabs_Ropp.
  destruct (Rgtb _ _); [| ring].
  rewrite <- atan_opp. f_equal.
  unfold Rdiv.
  replace (- omega_e w p * Lq p) with (- (omega_e w p * Lq p)) by ring.
  rewrite Rinv_opp. ring.
Qed.

Lemma theta_lower_opp v w p : theta_lower v (- w) p = - theta_upper v w p.
Proof.
  unfold theta_lower, theta_upper.
  rewrite theta_ref_opp, theta_delta_opp.
  unfold Rmin, Rmax. repeat destruct (Rle_dec _ _); lra.
Qed.

Lemma theta_upper_opp v w p : theta_upper v (- w) p = - theta_lower v w p.
Proof.
  unfold theta_lower, theta_upper.
  rewrite theta_ref_opp, theta_delta_opp.
  unfold Rmin, Rmax. repeat destruct (Rle_dec _ _); lra.
Qed.

Lemma Rltb_eq x y x' y' : (x < y <-> x' < y') -> Rltb x y = Rltb x' y'.
Proof.
  intros H. unfold Rltb.
  destruct (Rlt_dec x y), (Rlt_dec x' y'); tauto.
Qed.

(** The band in quadrature current at [- w], for hard limits symmetric
    about zero, is the band at [w] reflected. *)
Lemma iq_limits_opp v w p :
  iq_cmd_lower_limit p = - iq_cmd_upper_limit p ->
  iq_lower (iq_limits v (- w) p) = - iq_upper (iq_limits v w p) /\
  iq_upper (iq_limits v (- w) p) = - iq_lower (iq_limits v w p) /\
  lower_tag (iq_limits v (- w) p) = upper_tag (iq_limits v w p) /\
  upper_tag (iq_limits v (- w) p) = lower_tag (iq_limits v w p).
Proof.
  intros Hsym.
  unfold iq_limits, apply_phase_current_limit, apply_power_limit.
  rewrite !phase_current_limit_lower, !phase_current_limit_upper,
    !phase_current_limit_lower_tag, !phase_current_limit_upper_tag,
    !power_limit_lower, !power_limit_upper,
    !power_limit_lower_tag, !power_limit_upper_tag.
  cbn [hard_limits iq_lower iq_upper lower_tag upper_tag].
  rewrite id_center_opp, iq_center_opp, iq_radius_opp,
    theta_lower_opp, theta_upper_opp, !cos_neg, !sin_neg, Hsym.
  set (i := phase_current_cmd_limit p). set (a := id_center w p).
  set (c := iq_center w p). set (r := iq_radius v w p).
  set (hi := iq_cmd_upper_limit p).
  set (sl := sin (theta_lower v w p)). set (su := sin (theta_upper v w p)).
  set (cl := cos (theta_lower v w p)). set (cu := cos (theta_upper v w p)).
  assert (HL : Rmax (- hi) (- c - r) = - Rmin hi (c + r)).
  { unfold Rmax, Rmin. repeat destruct (Rle_dec _ _); lra. }
  assert (HU : Rmin hi (- c + r) = - Rmax (- hi) (c - r)).
  { unfold Rmax, Rmin. repeat destruct (Rle_dec _ _); lra. }
  rewrite HL, HU. unfold Rgtb.
  assert (E1 : Rltb (- Rmin hi (c + r)) (i * - su)
               = Rltb (i * su) (Rmin hi (c + r))).
  { apply Rltb_eq. split; intros; lra. }
  assert (E2 : Rltb (i * - sl) (- Rmax (- hi) (c - r))
               = Rltb (Rmax (- hi) (c - r)) (i * sl)).
  { apply Rltb_eq. split; intros; lra. }
  assert (E3 : Rltb (- hi) (- c - r) = Rltb (c + r) hi).
  { apply Rltb_eq. split; intros; lra. }
  assert (E4 : Rltb (- c + r) hi = Rltb (- hi) (c - r)).
  { apply Rltb_eq. split; intros; lra. }
  rewrite E1, E2, E3, E4.
  repeat split.
  - destruct (Rltb a (i * cu) && Rltb (i * su) (Rmin hi (c + r))); ring.
  - destruct (Rltb a (i * cl) && Rltb (Rmax (- hi) (c - r)) (i * sl)); ring.
Qed.

(** X6.  With hard command limits symmetric about zero, reversing the
    rotor speed reflects the result: the limits swap with their signs
    changed and the tags swap. *)
Theorem reversed_speed_mirrors_limits voltage rotor_vel p :
  iq_cmd_lower_limit p = - iq_cmd_upper_limit p ->
  lower_limit (CalcTorqueLimits voltage (- rotor_vel) p)
  = - upper_limit (CalcTorqueLimits voltage rotor_vel p) /\
  upper_limit (CalcTorqueLimits voltage (- rotor_vel) p)
  = - lower_limit (CalcTorqueLimits voltage rotor_vel p) /\
  lower_constraint (CalcTorqueLimits voltage (- rotor_vel) p)
  = upper_constraint (CalcTorqueLimits voltage rotor_vel p) /\
  upper_constraint (CalcTorqueLimits voltage (- rotor_vel) p)
  = lower_constraint (CalcTorqueLimits voltage rotor_vel p).
Proof.
  intros Hsym.
  destruct (iq_limits_opp (clamp_voltage voltage) rotor_vel p Hsym)
    as (H1 & H2 & H3 & H4).
  unfold CalcTorqueLimits. cbv zeta.
  cbn [lower_limit upper_limit lower_constraint upper_constraint].
  rewrite H1, H2.
  split; [ring | split; [ring | split; assumption]].
Qed.

Lemma reversed_speed_mirrors_limits_witness :
  lower_limit (CalcTorqueLimits 15 (- 10) spec_params)
  = - upper_limit (CalcTorqueLimits 15 10 spec_params) /\
  upper_limit (CalcTorqueLimits 15 (- 10) spec_params)
  = - lower_limit (CalcTorqueLimits 15 10 spec_params) /\
  lower_constraint (CalcTorqueLimits 15 (- 10) spec_params)
  = upper_constraint (CalcTorqueLimits 15 10 spec_params) /\
  upper_constraint (CalcTorqueLimits 15 (- 10) spec_params)
  = lower_constraint (CalcTorqueLimits 15 10 spec_params).
Proof.
  apply (reversed_speed_mirrors_limits 15 10 spec_params).
  unfold spec_params; fields. lra.
Defined.

(** ** The squared peak phase current of [CalcMotorPower] *)

(** The three outcomes of lines 146-157, for given values of the locals. *)
Lemma peak_phase_current_sq_cases v t w p :
  let iq := iq_of_torque t p in
  let a := id_center w p in
  let h := iq - iq_center w p in
  let r := iq_radius v w p in
  (r < Rabs h /\ peak_phase_current_sq v t w p = iq * iq + a * a) \/
  (Rabs h <= r /\ a + sqrt (r * r - h * h) < 0 /\
   peak_phase_current_sq v t w p
   = iq * iq + (a + sqrt (r * r - h * h)) * (a + sqrt (r * r - h * h))) \/
  (Rabs h <= r /\ 0 <= a + sqrt (r * r - h * h) /\
   peak_phase_current_sq v t w p = iq * iq).
Proof.
  intros iq a h r. unfold peak_phase_current_sq. cbv zeta.
  fold iq a. fold h. fold r. unfold Rgtb.
  cmp_cases r (Rabs h); [left; split; [assumption | reflexivity] | right].
  cmp_cases (a + sqrt (r * r - h * h)) 0; [left | right];
    (split; [assumption | split; [assumption | reflexivity]]).
Qed.








(** ** Signs of the losses *)

Lemma CalcMotorControllerLoss_nonpos v x p :
  0 <= v -> 0 <= x ->
  0 <= rds_on p -> 0 <= specific_switching_loss p ->
  0 <= fixed_loss_sq_coeff p -> 0 <= fixed_loss_lin_coeff p ->
  0 <= switching_frequency p ->
  CalcMotorControllerLoss v x p <= 0.
Proof.
  intros Hv Hx Hr Hs Hq Hl Hf.
  unfold CalcMotorControllerLoss, variable_switching_loss_per_cycle,
    fixed_switching_loss_per_cycle.
  rewrite conduction_loss_eq.
  pose proof six_over_PI_pos as H6. pose proof (sqrt_pos x) as Hsx.
  assert (0 <= x * rds_on p) by (apply Rmult_le_pos; lra).
  assert (0 <= 3 * 2 / PI * v * sqrt x * specific_switching_loss p).
  { repeat apply Rmult_le_pos; lra. }
  assert (0 <= (fixed_loss_sq_coeff p * v + fixed_loss_lin_coeff p) * v).
  { apply Rmult_le_pos; [| lra].
    assert (0 <= fixed_loss_sq_coeff p * v) by (apply Rmult_le_pos; lra).
    lra. }
  assert (0 <= switching_frequency p
               * (3 * 2 / PI * v * sqrt x * specific_switching_loss p
                  + 3 * ((fixed_loss_sq_coeff p * v
                          + fixed_loss_lin_coeff p) * v))).
  { apply Rmult_le_pos; lra. }
  lra.
Qed.

(** X10.  For a non-negative voltage and squared current and non-negative
    coefficients, [CalcMotorControllerLoss] is not positive: the sign
    convention of the comment on line 188 holds there. *)
Theorem controller_loss_is_a_loss voltage peak_phase_current_sq p :
  0 <= voltage -> 0 <= peak_phase_current_sq ->
  0 <= rds_on p -> 0 <= specific_switching_loss p ->
  0 <= fixed_loss_sq_coeff p -> 0 <= fixed_loss_lin_coeff p ->
  0 <= switching_frequency p ->
  CalcMotorControllerLoss voltage peak_phase_current_sq p <= 0.
Proof.
  intros Hv Hx Hr Hs Hq Hl Hf.
  now apply CalcMotorControllerLoss_nonpos.
Qed.

Lemma controller_loss_is_a_loss_witness :
  CalcMotorControllerLoss 48 4 spec_params <= 0.
Proof.
  apply (controller_loss_is_a_loss 48 4 spec_params);
    unfold spec_params; fields; lra.
Defined.



(** ** Reversing torque and speed together *)




(** ** No voltage *)

Lemma id_center_nonpos w p :
  0 <= Lq p -> 0 <= flux_linkage p -> id_center w p <= 0.
Proof.
  intros HL Hlam. unfold id_center, Rdiv.
  pose proof (z2_nonneg w p) as Hz.
  assert (Hinv : 0 <= / z2 w p).
  { destruct Hz as [Hz | <-]; [left; now apply Rinv_0_lt_compat |].
    rewrite Rinv_0. lra. }
  assert (0 <= omega_e w p * omega_e w p * Lq p * flux_linkage p).
  { apply Rmult_le_pos; [apply Rmult_le_pos |]; try lra.
    apply Rle_0_sqr. }
  nra.
Qed.



(** ** From a torque limit back to the current *)

Lemma iq_of_torque_scaled x p :
  (0 < num_pole_pairs p)%Z -> 0 < flux_linkage p ->
  iq_of_torque (1.5 * IZR (num_pole_pairs p) * flux_linkage p * x) p = x.
Proof.
  intros Hn Hlam. apply IZR_lt in Hn.
  unfold iq_of_torque. field. split; lra.
Qed.

Lemma iq_radius_clamped_nonneg voltage w p :
  0 <= modulation_limit p -> 0 <= iq_radius (clamp_voltage voltage) w p.
Proof.
  intros Hm. rewrite <- (iq_radius_0 w p).
  apply iq_radius_mono; [exact Hm | apply clamp_voltage_nonneg].
Qed.

(** The current at a point of the rim of the voltage circle straight
    below or above its centre. *)
Lemma peak_phase_current_sq_on_rim v t w p :
  0 <= Lq p -> 0 <= flux_linkage p -> 0 <= iq_radius v w p ->
  Rabs (iq_of_torque t p - iq_center w p) = iq_radius v w p ->
  peak_phase_current_sq v t w p
  = iq_of_torque t p * iq_of_torque t p + id_center w p * id_center w p.
Proof.
  intros HL Hlam Hr Hh.
  pose proof (id_center_nonpos w p HL Hlam) as Ha.
  pose proof (Rabs_sqr_eq (iq_of_torque t p - iq_center w p)) as Hsq.
  rewrite Hh in Hsq.
  destruct (peak_phase_current_sq_cases v t w p)
    as [[H1 ->] | [(H1 & N1 & ->) | (H1 & N1 & ->)]];
    cbv zeta in *; [reflexivity | |].
  - rewrite <- Hsq. unfold Rminus. rewrite Rplus_opp_r, sqrt_0. ring.
  - rewrite <- Hsq in N1. unfold Rminus in N1 at 1.
    rewrite Rplus_opp_r, sqrt_0 in N1.
    assert (id_center w p = 0) by lra. nra.
Qed.

(** X14.  A torque limit tagged [kSimMotorLimitPower], handed back to
    [CalcMotorPower] at the same voltage and speed, maps to the q-axis
    current at the edge of the voltage circle, and the squared peak phase
    current there is that current squared plus [id_center] squared. *)
Theorem power_limited_torque_needs_full_flux_weakening voltage rotor_vel p :
  (0 < num_pole_pairs p)%Z -> 0 < flux_linkage p ->
  0 <= modulation_limit p -> 0 <= Lq p ->
  let v := clamp_voltage voltage in
  let a := id_center rotor_vel p in
  let c := iq_center rotor_vel p in
  let r := iq_radius v rotor_vel p in
  let limits := CalcTorqueLimits voltage rotor_vel p in
  (lower_constraint limits = kSimMotorLimitPower ->
   iq_of_torque (lower_limit limits) p = c - r /\
   peak_phase_current_sq v (lower_limit limits) rotor_vel p
   = (c - r) * (c - r) + a * a) /\
  (upper_constraint limits = kSimMotorLimitPower ->
   iq_of_torque (upper_limit limits) p = c + r /\
   peak_phase_current_sq v (upper_limit limits) rotor_vel p
   = (c + r) * (c + r) + a * a).
Proof.
  intros Hn Hlam Hm HL v a c r limits.
  pose proof (iq_radius_clamped_nonneg voltage rotor_vel p Hm) as Hr.
  fold v in Hr. fold r in Hr.
  assert (Hlam' : 0 <= flux_linkage p) by lra.
  subst limits. unfold CalcTorqueLimits. fold v. cbv zeta.
  cbn [lower_limit upper_limit lower_constraint upper_constraint].
  split; intros Htag.
  - rewrite (iq_limits_lower_power _ _ _ Htag). fold c r.
    pose proof (iq_of_torque_scaled (c - r) p Hn Hlam) as Hiq.
    split; [exact Hiq |].
    rewrite (peak_phase_current_sq_on_rim v _ rotor_vel p HL Hlam' Hr).
    + rewrite Hiq. reflexivity.
    + rewrite Hiq. fold c. fold r.
      replace (c - r - c) with (- r) by ring.
      rewrite Rabs_Ropp. now apply Rabs_pos_eq.
  - rewrite (iq_limits_upper_power _ _ _ Htag). fold c r.
    pose proof (iq_of_torque_scaled (c + r) p Hn Hlam) as Hiq.
    split; [exact Hiq |].
    rewrite (peak_phase_current_sq_on_rim v _ rotor_vel p HL Hlam' Hr).
    + rewrite Hiq. reflexivity.
    + rewrite Hiq. fold c. fold r.
      replace (c + r - c) with r by ring.
      now apply Rabs_pos_eq.
Qed.

(** The lower limit of [low_speed_params] at 9 V, which is tagged
    power-limited. *)
Lemma power_limited_torque_needs_full_flux_weakening_witness :
  lower_constraint (CalcTorqueLimits 9 (-0.5) low_speed_params)
  = kSimMotorLimitPower /\
  iq_of_torque (lower_limit (CalcTorqueLimits 9 (-0.5) low_speed_params))
    low_speed_params
  = iq_center (-0.5) low_speed_params
    - iq_radius (clamp_voltage 9) (-0.5) low_speed_params /\
  peak_phase_current_sq (clamp_voltage 9)
    (lower_limit (CalcTorqueLimits 9 (-0.5) low_speed_params)) (-0.5)
    low_speed_params
  = (iq_center (-0.5) low_speed_params
     - iq_radius (clamp_voltage 9) (-0.5) low_speed_params)
    * (iq_center (-0.5) low_speed_params
       - iq_radius (clamp_voltage 9) (-0.5) low_speed_params)
    + id_center (-0.5) low_speed_params * id_center (-0.5) low_speed_params.
Proof.
  assert (Htag : lower_constraint
                   (CalcTorqueLimits 9 (-0.5) low_speed_params)
                 = kSimMotorLimitPower).
  { unfold CalcTorqueLimits. rewrite clamp_voltage_pos by lra.
    cbv zeta. cbn [lower_constraint]. apply low_speed_lower_at_9. }
  split; [exact Htag |].
  apply (proj1 (power_limited_torque_needs_full_flux_weakening
                  9 (-0.5) low_speed_params
                  ltac:(reflexivity)
                  ltac:(unfold low_speed_params; fields; lra)
                  ltac:(unfold low_speed_params; fields; lra)
                  ltac:(unfold low_speed_params; fields; lra))).
  exact Htag.
Defined.

(** ** Divisions with valid parameters *)

Lemma valid_divisors w p :
  physically_valid p ->
  sqrt 3 <> 0 /\ z2 w p <> 0 /\ sqrt (z2 w p) <> 0 /\
  2 * Rmax (Rabs (omega_e w p)) 1 * flux_linkage p
  * phase_current_cmd_limit p * sqrt (z2 w p) <> 0 /\
  1.5 * IZR (num_pole_pairs p) * flux_linkage p <> 0 /\
  PI <> 0.
Proof.
  intros (_ & Hi & Hlam & HRs & HL & Hn & Hm).
  pose proof sqrt3_pos. pose proof (z2_pos w p HRs).
  pose proof (sqrt_z2_pos w p HRs). pose proof PI_RGT_0.
  pose proof (torque_factor_nonneg p Hn Hlam).
  assert (1 <= Rmax (Rabs (omega_e w p)) 1) by apply Rmax_r.
  assert (0 < 2 * Rmax (Rabs (omega_e w p)) 1 * flux_linkage p
              * phase_current_cmd_limit p * sqrt (z2 w p)).
  { repeat apply Rmult_lt_0_compat; lra. }
  repeat split; lra.
Qed.

(** X15.  With physically valid parameters no division of
    [CalcTorqueLimits] has a zero divisor. *)
Theorem valid_parameters_torque_limits_divisions voltage rotor_vel p :
  physically_valid p ->
  forall s d,
    In (Traced.Div s d) (snd (Traced.CalcTorqueLimits voltage rotor_vel p)) ->
    d <> 0.
Proof.
  intros Hv s d Hin.
  destruct (valid_divisors rotor_vel p Hv) as (H3 & Hz & Hs & Hc & _ & _).
  destruct Hv as (_ & _ & _ & _ & HL & _ & _).
  rewrite Traced_CalcTorqueLimits_events in Hin.
  apply in_app_or in Hin. destruct Hin as [Hin | Hin].
  - simpl in Hin.
    repeat (destruct Hin as [Hin | Hin];
            [try discriminate; injection Hin as _ <-; assumption |]).
    contradiction.
  - unfold Rgtb in Hin.
    cmp_cases DBL_EPSILON (Rabs (omega_e rotor_vel p)); [| contradiction].
    simpl in Hin. destruct Hin as [Hin | []]. injection Hin as _ <-.
    pose proof DBL_EPSILON_pos.
    apply Rmult_integral_contrapositive. split; [| lra].
    intros H0. rewrite H0, Rabs_R0 in Hcmp. lra.
Qed.

Lemma valid_parameters_torque_limits_divisions_witness :
  Forall (fun e => match e with
                   | Traced.Div _ d => d <> 0
                   | Traced.Acos _ => True
                   end)
         (snd (Traced.CalcTorqueLimits 15 10 spec_params)).
Proof.
  apply Forall_forall. intros [s d | x] Hin; [| exact I].
  exact (valid_parameters_torque_limits_divisions
           15 10 spec_params spec_params_valid s d Hin).
Defined.

(** X16.  With physically valid parameters no division of
    [CalcMotorPower], that of [CalcMotorControllerLoss] included, has a
    zero divisor. *)
Theorem valid_parameters_motor_power_divisions voltage torque rotor_vel p :
  physically_valid p ->
  forall s d,
    In (Traced.Div s d)
       (snd (Traced.CalcMotorPower voltage torque rotor_vel p)) ->
    d <> 0.
Proof.
  intros Hv s d Hin.
  destruct (valid_divisors rotor_vel p Hv) as (H3 & Hz & Hs & _ & Hk & Hpi).
  rewrite Traced_CalcMotorPower_events in Hin. simpl in Hin.
  repeat (destruct Hin as [Hin | Hin];
          [injection Hin as _ <-; assumption |]).
  contradiction.
Qed.

Lemma valid_parameters_motor_power_divisions_witness :
  Forall (fun e => match e with
                   | Traced.Div _ d => d <> 0
                   | Traced.Acos _ => True
                   end)
         (snd (Traced.CalcMotorPower 15 3 10 spec_params)).
Proof.
  apply Forall_forall. intros [s d | x] Hin; [| exact I].
  exact (valid_parameters_motor_power_divisions
           15 3 10 spec_params spec_params_valid s d Hin).
Defined.
